(** * Instrument and part renaming in StaffPad MusicXML exports

    A shallow embedding of [staffpad_xml_cleanup.py] (class
    [InstrumentManager]) and the properties of its name-normalisation
    pipeline: table construction, substring lookup, per-family numbering,
    the single-occurrence cleanup and the in-place renaming of the tree.

    Conventions of the embedding:
    - a Python [str] is a [string]; every pattern of the swap map is ASCII,
      and an ASCII pattern occurs in a text exactly when its bytes occur in
      the UTF-8 bytes of the text, so [in] on code points and on bytes agree;
    - [None] is [option]'s [None]: an element's [text], an attribute read with
      [get] and the value of [find] are options;
    - the ordered dictionaries the code iterates ([OrderedDict], [Counter])
      are association lists in insertion order; the rename dictionaries,
      only read by key and rewritten entry by entry, are [gmap]s;
    - an exception ends the running method and leaves every mutation done
      so far in place: computations return a [result] next to the state;
      [assert] raises [AssertionError] (the interpreter runs without [-O]);
    - an lxml element is its tag, its attributes, its text and its child
      elements; tails, comments and processing instructions, which the code
      never reads, are left out;
    - lxml checks a text before it writes it: [element.text = s] removes the
      old text and then raises [ValueError] when [s] is not XML compatible
      ([xml_compatible], on the UTF-8 bytes of [s]). *)

From Stdlib Require Import Ascii DecimalString DecimalNat.
From stdpp Require Import gmap strings list fin_maps.

(** ** Strings *)

(** [s.startswith(p)] *)
Fixpoint startswith (p s : string) : bool :=
  match p, s with
  | EmptyString, _ => true
  | String a p', String b s' => if Ascii.eqb a b then startswith p' s' else false
  | String _ _, EmptyString => false
  end.

(** [p in s] for two [str]: [p] occurs in [s] as a contiguous block. *)
Fixpoint contains (p s : string) : bool :=
  startswith p s ||
  match s with
  | EmptyString => false
  | String _ s' => contains p s'
  end.

(** The declarative reading of [p in s]. *)
Definition substring_of (p s : string) : Prop :=
  ∃ pre post, s = pre +:+ p +:+ post.

(** [str(n)] for a non-negative [int]. *)
Definition str (n : nat) : string := NilZero.string_of_uint (Nat.to_uint n).

(** ** Ordered dictionaries

    [d[k] = v] on a Python dictionary keeps the position of a key that is
    already present and appends a new key at the end. *)

Section ordered_dict.
Context {V : Type}.

Fixpoint od_set (k : string) (v : V) (d : list (string * V)) : list (string * V) :=
  match d with
  | [] => [(k, v)]
  | (k', v') :: d' =>
      if String.eqb k' k then (k', v) :: d' else (k', v') :: od_set k v d'
  end.

Fixpoint od_get (k : string) (d : list (string * V)) : option V :=
  match d with
  | [] => None
  | (k', v') :: d' => if String.eqb k' k then Some v' else od_get k d'
  end.
End ordered_dict.

(** ** The swap map, [_create_instrument_swap_map] *)

Definition sections : list (string * list string) :=
  [ ("wind", ["Piccolo"; "Alto Flute"; "Bass Flute"; "Flutes"; "Flute";
              "Oboes"; "Oboe"; "English Horn"; "Contrabass Clarinet";
              "Bass Clarinet"; "Eb Clarinet"; "Clarinets"; "Clarinet";
              "Contrabassoon"; "Bassoons"; "Bassoon"; "Cor Anglais"]);
    ("horn", ["12 French Horns"; "2 French Horns"; "4 French Horns"]);
    ("brass", ["Horn Ensemble"; "CineBrass French Horn"; "2 Trumpets";
               "Trumpet Ensemble"; "Trumpet"; "Bass Trombone"; "Trombones";
               "Trombone Ensemble"; "Trombone"; "Tuba"]);
    ("percussion", ["Timpani"; "Cymbals"; "Glockenspiel"; "Marimba";
                    "Vibraphone"; "Bass Drum 36in"; "Bowed Gongs"]);
    ("keys", ["Harp"]);
    ("voice", ["Sopranos"; "Full Chorus"; "Boys Choir"; "Solo Soprano"]);
    ("strings", ["Violin 1"; "Violin 2"; "Viola"; "Cello"; "Bass";
                 "Violins 1"; "Violins 2"; "Violas"; "Cellos"; "Basses"]) ].

(** [sections[name]] *)
Definition section (name : string) : list string :=
  default [] (od_get name sections).

(** [for x in xs: swap_map[key x] = value x] *)
Definition set_each (xs : list string) (key value : string → string)
    (swap_map : list (string * string)) : list (string * string) :=
  fold_left (λ m x, od_set (key x) (value x) m) xs swap_map.

Definition solo_strings : list string :=
  ["Violin 1"; "Violin 2"; "Viola"; "Cello"; "Bass"].
Definition section_strings : list string :=
  ["Violins 1"; "Violins 2"; "Violas"; "Cellos"; "Basses"].

Definition _create_instrument_swap_map : list (string * string) :=
  let swap_map := [] in
  let swap_map :=
    fold_left (λ m s, set_each s.2 id id m) sections swap_map in
  let swap_map := od_set "Cor Anglais" "English Horn" swap_map in
  let swap_map :=
    set_each (str <$> seq 1 4) (λ i, "Berlin Brass Horn " +:+ i)
             (λ _, "French Horn") swap_map in
  let swap_map := od_set "Horn Ensemble" "4 French Horns" swap_map in
  let swap_map := od_set "CineBrass French Horn" "French Horn" swap_map in
  let swap_map := od_set "Trumpet Ensemble" "2 Trumpets" swap_map in
  let swap_map := od_set "Trombone Ensemble" "Trombones" swap_map in
  let swap_map :=
    set_each (section "percussion") (λ x, "CinePerc " +:+ x) id swap_map in
  let swap_map :=
    set_each (section "voice") (λ x, "VOXOS " +:+ x) id swap_map in
  let swap_map :=
    set_each solo_strings (λ x, "Cinestrings Solo " +:+ x)
             (λ x, "Solo " +:+ x) swap_map in
  let swap_map :=
    fold_left (λ m x,
                 od_set ("First Chair " +:+ x) ("Solo " +:+ x)
                   (od_set ("Cinestrings Solo " +:+ x) ("Solo " +:+ x) m))
              solo_strings swap_map in
  let swap_map :=
    set_each section_strings (λ x, "Berlin Strings " +:+ x) id swap_map in
  let swap_map :=
    od_set "Spitfire Chamber Strings Violins I" "Violins 1" swap_map in
  let swap_map :=
    od_set "Spitfire Chamber Strings Violins II" "Violins 2" swap_map in
  set_each ["Violas"; "Cellos"; "Basses"]
           (λ x, "Spitfire Chamber Strings " +:+ x) id swap_map.

(** [self.instrument_swap_map], built once in [__init__]. *)
Definition instrument_swap_map : list (string * string) :=
  Eval vm_compute in _create_instrument_swap_map.
Global Arguments instrument_swap_map : simpl never.

(** ** Exceptions and results *)

Inductive exn : Type :=
  | AttributeError         (* [None.findall], [None.text] *)
  | TypeError              (* [pattern in None] *)
  | KeyError               (* [swap_map[key]] without that key *)
  | ValueError             (* [element.text = s], [s] not XML compatible *)
  | AssertionError (msg : string).

Inductive result (A : Type) : Type :=
  | Ok (a : A)
  | Raise (e : exn).
Arguments Ok {A} a.
Arguments Raise {A} e.

Definition is_raise {A} (r : result A) : bool :=
  match r with Raise _ => true | Ok _ => false end.

(** ** Counters and rename maps *)

(** A [collections.Counter] keyed by family name: a missing key reads 0. *)
Abbreviation Counter := (list (string * nat)).

Definition counter_get (counter : Counter) (k : string) : nat :=
  default 0 (od_get k counter).

(** [counter[k] += 1] *)
Definition counter_incr (counter : Counter) (k : string) : Counter :=
  od_set k (counter_get counter k + 1) counter.

(** The dictionary [{"original name": ..., "swap name": ...}]. *)
Record rename_map : Type := RenameMap {
  original_name : string;
  swap_name : string
}.

Definition set_swap_name (s : string) (rm : rename_map) : rename_map :=
  {| original_name := original_name rm; swap_name := s |}.

(** A rename dictionary: element id (the value of [element.get('id')], which
    is [None] for an element without that attribute) to rename map. *)
Abbreviation rename_dict := (gmap (option string) rename_map).

(** ** [_find_generic_name] *)

(** The loop of [_find_generic_name] over the remaining keys of the swap
    map. [name] is the [text] of an element: on [None] the test
    [instrument in name] raises [TypeError]. The counter is updated in place,
    so it is returned. *)
Fixpoint find_generic_name_from (keys : list string)
    (name : option string) (counter : Counter)
    : result (option rename_map) * Counter :=
  match keys with
  | [] => (Ok None, counter)
  | instrument :: keys' =>
      match name with
      | None => (Raise TypeError, counter)
      | Some s =>
          if contains instrument s then
            match od_get instrument instrument_swap_map with
            | None => (Raise KeyError, counter)
            | Some swap =>
                let counter := counter_incr counter swap in
                let numbered_swap_name :=
                  swap +:+ " " +:+ str (counter_get counter swap) in
                (Ok (Some {| original_name := s;
                              swap_name := numbered_swap_name |}),
                 counter)
            end
          else find_generic_name_from keys' name counter
      end
  end.

Definition _find_generic_name (name : option string) (counter : Counter)
    : result (option rename_map) * Counter :=
  find_generic_name_from instrument_swap_map.*1 name counter.

(** The lookup alone: the family of the first pattern found in [name], read
    off the pairs of the swap map. *)
Fixpoint resolve_from (items : list (string * string)) (name : string)
    : option string :=
  match items with
  | [] => None
  | (instrument, swap) :: items' =>
      if contains instrument name then Some swap else resolve_from items' name
  end.

Definition resolve (name : string) : option string :=
  resolve_from instrument_swap_map name.

(** ** The document tree (lxml elements) *)

#[warnings="-register-all"]
Inductive element : Type := Element {
  tag : string;
  attrib : gmap string string;
  text : option string;
  children : list element
}.

(** [element.get(key)] *)
Definition get (key : string) (e : element) : option string := attrib e !! key.

Definition has_tag (t : string) (e : element) : bool := String.eqb (tag e) t.

(** [element.findall(t)]: the children with tag [t], in document order. *)
Definition findall (t : string) (e : element) : list element :=
  List.filter (has_tag t) (children e).

(** [element.find(t)]: the first child with tag [t], or [None]. *)
Definition find (t : string) (e : element) : option element :=
  head (findall t e).

(** The test lxml runs on the UTF-8 bytes of a text it is given: a byte
    below 0x80 has to be an XML character, that is a tab, a line feed, a
    carriage return or a byte from 0x20 on, and no three bytes that start
    with a byte from 0x80 on may encode U+FFFE, U+FFFF or a surrogate. *)
Definition xml_char (b : N) : bool :=
  ((9 <=? b) && (b <=? 10) || (b =? 13) || (32 <=? b))%N.

Definition forbidden (a b c : N) : bool :=
  let next3 := ((a * 256 + b) * 256 + c)%N in
  ((next3 =? 0xefbfbe) || (next3 =? 0xefbfbf) ||
   (0xeda080 <=? next3) && (next3 <=? 0xedbfbf))%N.

Fixpoint xml_compatible (s : string) : bool :=
  match s with
  | EmptyString => true
  | String a s' =>
      (if (128 <=? N_of_ascii a)%N then
         match s' with
         | String b (String c _) =>
             negb (forbidden (N_of_ascii a) (N_of_ascii b) (N_of_ascii c))
         | _ => true
         end
       else xml_char (N_of_ascii a))
      && xml_compatible s'
  end.

(** [element.text = s]: the old text is removed first, and a text that is
    not XML compatible is refused with [ValueError], which leaves the
    element without text. *)
Definition set_text (s : string) (e : element) : result unit * element :=
  if xml_compatible s
  then (Ok tt, {| tag := tag e; attrib := attrib e; text := Some s;
                  children := children e |})
  else (Raise ValueError, {| tag := tag e; attrib := attrib e; text := None;
                             children := children e |}).

Definition set_children (cs : list element) (e : element) : element :=
  {| tag := tag e; attrib := attrib e; text := text e; children := cs |}.

(** ** The manager and its state monad *)

Record InstrumentManager : Type := Manager {
  root : element;
  instrument_rename_dict : rename_dict;
  part_rename_dict : rename_dict;
  instrument_counter : Counter;
  part_counter : Counter
}.

(** [InstrumentManager(tree)] *)
Definition __init__ (tree : element) : InstrumentManager :=
  {| root := tree;
     instrument_rename_dict := ∅; part_rename_dict := ∅;
     instrument_counter := []; part_counter := [] |}.

(** A method body: it may raise, and it leaves a state behind either way. *)
Definition M (A : Type) : Type := InstrumentManager → result A * InstrumentManager.

Global Instance M_ret : MRet M := λ A a s, (Ok a, s).
Global Instance M_bind : MBind M := λ A B k m s,
  match m s with
  | (Ok a, s') => k a s'
  | (Raise e, s') => (Raise e, s')
  end.
Definition raise {A} (e : exn) : M A := λ s, (Raise e, s).
Definition modify (f : InstrumentManager → InstrumentManager) : M unit :=
  λ s, (Ok tt, f s).

(** [for x in xs: body x] *)
Fixpoint for_each {X} (xs : list X) (body : X → M unit) : M unit :=
  match xs with
  | [] => mret tt
  | x :: xs' => body x ;; for_each xs' body
  end.

(** The two namespaces: which counter and which dictionary a call works on. *)
Inductive kind : Type := Part | Instrument.

Definition counter_of (k : kind) (s : InstrumentManager) : Counter :=
  match k with Part => part_counter s | Instrument => instrument_counter s end.
Definition dict_of (k : kind) (s : InstrumentManager) : rename_dict :=
  match k with Part => part_rename_dict s | Instrument => instrument_rename_dict s end.

Definition set_counter (k : kind) (c : Counter) (s : InstrumentManager)
    : InstrumentManager :=
  match k with
  | Part => {| root := root s;
               instrument_rename_dict := instrument_rename_dict s;
               part_rename_dict := part_rename_dict s;
               instrument_counter := instrument_counter s;
               part_counter := c |}
  | Instrument => {| root := root s;
               instrument_rename_dict := instrument_rename_dict s;
               part_rename_dict := part_rename_dict s;
               instrument_counter := c;
               part_counter := part_counter s |}
  end.

Definition set_dict (k : kind) (d : rename_dict) (s : InstrumentManager)
    : InstrumentManager :=
  match k with
  | Part => {| root := root s;
               instrument_rename_dict := instrument_rename_dict s;
               part_rename_dict := d;
               instrument_counter := instrument_counter s;
               part_counter := part_counter s |}
  | Instrument => {| root := root s;
               instrument_rename_dict := d;
               part_rename_dict := part_rename_dict s;
               instrument_counter := instrument_counter s;
               part_counter := part_counter s |}
  end.

Definition set_root (r : element) (s : InstrumentManager) : InstrumentManager :=
  {| root := r;
     instrument_rename_dict := instrument_rename_dict s;
     part_rename_dict := part_rename_dict s;
     instrument_counter := instrument_counter s;
     part_counter := part_counter s |}.

(** [self._find_generic_name(name, self.<k>_counter)] *)
Definition call_find_generic_name (k : kind) (name : option string)
    : M (option rename_map) :=
  λ s, let (r, c) := _find_generic_name name (counter_of k s) in
       (r, set_counter k c s).

(** [rename_map = ...; if rename_map: self.<k>_rename_dict[element_id] = rename_map] *)
Definition record_generic_name (k : kind) (element_id name : option string)
    : M unit :=
  rename_map ← call_find_generic_name k name;
  match rename_map with
  | Some rm => modify (λ s, set_dict k (<[element_id := rm]> (dict_of k s)) s)
  | None => mret tt
  end.

(** ** [find_generic_instrument_names] *)

Definition discover_score_instrument (score_instrument : element) : M unit :=
  let instrument_id := get "id" score_instrument in
  match find "instrument-name" score_instrument with
  | None => raise AttributeError
  | Some instrument_name =>
      record_generic_name Instrument instrument_id (text instrument_name)
  end.

Definition discover_score_part (score_part : element) : M unit :=
  let part_id := get "id" score_part in
  for_each (findall "part-name" score_part)
    (λ part_name, record_generic_name Part part_id (text part_name)) ;;
  for_each (findall "score-instrument" score_part) discover_score_instrument.

Definition find_generic_instrument_names (root : element) : M unit :=
  match find "part-list" root with
  | None => raise AttributeError
  | Some part_list =>
      for_each (findall "score-part" part_list) discover_score_part
  end.

(** ** [cleanup_names] and [_cleanup] *)

(** The body of the inner loop of [_cleanup] on one rename map. *)
Definition cleanup_entry (swap : string) (rm : rename_map) : rename_map :=
  let numbered_swap_name := swap +:+ " 1" in
  if String.eqb (swap_name rm) numbered_swap_name
  then set_swap_name swap rm else rm.

(** [_cleanup]: the counter is visited in insertion order; the entries of
    the dictionary are rewritten independently of each other. *)
Definition _cleanup (counter : Counter) (d : rename_dict) : rename_dict :=
  fold_left
    (λ d item, if Nat.eqb item.2 1 then cleanup_entry item.1 <$> d else d)
    counter d.

Definition cleanup_names : M unit :=
  modify (λ s,
    let s := set_dict Instrument
               (_cleanup (instrument_counter s) (instrument_rename_dict s)) s in
    set_dict Part (_cleanup (part_counter s) (part_rename_dict s)) s).

(** ** [_rename_element] and [rename_instruments]

    The tree is mutated in place. An element has one parent and the loops
    visit every element once, so a loop over [findall] is a pass over the
    children that rebuilds the list: the elements before a raising body keep
    their new content, the ones after it are not reached. *)

(** [for c in parent.findall(t): body c] on the children of [parent]. *)
Fixpoint for_each_child (t : string) (body : element → result unit * element)
    (cs : list element) : result unit * list element :=
  match cs with
  | [] => (Ok tt, [])
  | c :: cs' =>
      if has_tag t c then
        match body c with
        | (Ok _, c') =>
            let (r, cs'') := for_each_child t body cs' in (r, c' :: cs'')
        | (Raise e, c') => (Raise e, c' :: cs')
        end
      else
        let (r, cs'') := for_each_child t body cs' in (r, c :: cs'')
  end.

(** [c = parent.find(t); body c], where [body] starts with a method call on
    [c]: without such a child [c] is [None] and the call raises. *)
Fixpoint with_first_child (t : string) (body : element → result unit * element)
    (cs : list element) : result unit * list element :=
  match cs with
  | [] => (Raise AttributeError, [])
  | c :: cs' =>
      if has_tag t c then
        let (r, c') := body c in (r, c' :: cs')
      else
        let (r, cs'') := with_first_child t body cs' in (r, c :: cs'')
  end.

Definition on_children (f : list element → result unit * list element)
    (e : element) : result unit * element :=
  let (r, cs) := f (children e) in (r, set_children cs e).

(** [assert tag.text == rename_map['original name'], "Original name mismatch";
     tag.text = rename_map['swap name']] *)
Definition rename_tag (rm : rename_map) (tag : element) : result unit * element :=
  if decide (text tag = Some (original_name rm))
  then set_text (swap_name rm) tag
  else (Raise (AssertionError "Original name mismatch"), tag).

Definition _rename_element (elem : element) (d : rename_dict)
    (tag_name : string) : result unit * element :=
  let element_id := get "id" elem in
  match d !! element_id with
  | Some rm => on_children (for_each_child tag_name (rename_tag rm)) elem
  | None => (Ok tt, elem)
  end.

Definition rename_score_part (parts instruments : rename_dict)
    (score_part : element) : result unit * element :=
  match _rename_element score_part parts "part-name" with
  | (Ok _, score_part) =>
      on_children
        (for_each_child "score-instrument"
           (λ score_instrument,
              _rename_element score_instrument instruments "instrument-name"))
        score_part
  | (Raise e, score_part) => (Raise e, score_part)
  end.

(** [rename_instruments(root)] with the two dictionaries of [self]. *)
Definition rename_instruments (root : element) (parts instruments : rename_dict)
    : result unit * element :=
  on_children
    (with_first_child "part-list"
       (on_children
          (for_each_child "score-part" (rename_score_part parts instruments))))
    root.

(** ** [process_xml] *)

Definition call_find_generic_instrument_names : M unit :=
  λ s, find_generic_instrument_names (root s) s.

Definition call_rename_instruments : M unit :=
  λ s, let (r, root') :=
         rename_instruments (root s) (part_rename_dict s)
           (instrument_rename_dict s) in
       (r, set_root root' s).

Definition process_xml : M unit :=
  call_find_generic_instrument_names ;;
  cleanup_names ;;
  call_rename_instruments.

(** ** [main]: the name of the output file

    [output_file = args.input_file[:-4] + "_xml_cleanup.xml"]. A slice of a
    [str] counts code points, so a file name is the list of its code points
    here; [code_points] reads an ASCII literal as such a list. *)

Definition code_points (s : string) : list nat :=
  nat_of_ascii <$> String.list_ascii_of_string s.

Definition output_file (input_file : list nat) : list nat :=
  take (length input_file - 4) input_file ++ code_points "_xml_cleanup.xml".

(** * The vocabulary of the properties *)

(** Texts without a blank; the decimal numerals are among them. *)
Fixpoint space_free (s : string) : Prop :=
  match s with
  | EmptyString => True
  | String a s' => a ≠ " "%char ∧ space_free s'
  end.

(** Texts of printable ASCII characters. *)
Fixpoint printable (s : string) : bool :=
  match s with
  | EmptyString => true
  | String a s' =>
      (32 <=? N_of_ascii a)%N && (N_of_ascii a <? 128)%N && printable s'
  end.

(** ** Families *)

(** The family of a label, if it has a text and the text resolves. *)
Definition family (label : option string) : option string := label ≫= resolve.

(** How many of the entities resolve to family [fam]. *)
Definition occurrences (fam : string) (es : list (option string * option string))
    : nat :=
  length (List.filter (λ e, bool_decide (family e.2 = Some fam)) es).

(** The families of the table: the values of the swap map. *)
Definition families : list string := instrument_swap_map.*2.

(** The families that do not resolve to themselves: the ones no pattern
    stands for, and three plurals that follow their singular in the table. *)
Definition unmatched_families : list string :=
  "French Horn" :: ((λ x, "Solo " +:+ x) <$> solo_strings).
Definition shadowed_families : list string := ["Violas"; "Cellos"; "Basses"].

(** ** The entities of a document

    What the traversals of discovery read, in document order: the score
    parts of the first part list, the label of every part name with the id of
    its score part, and the label of every score instrument with its id. *)

Definition score_parts (root : element) : list element :=
  match find "part-list" root with
  | Some part_list => findall "score-part" part_list
  | None => []
  end.

Definition part_labels (score_part : element)
    : list (option string * option string) :=
  (λ part_name, (get "id" score_part, text part_name))
    <$> findall "part-name" score_part.

(** [score_instrument.find('instrument-name').text], [None] when the child is
    missing or has no text (the code raises in both cases). *)
Definition instrument_label (score_instrument : element) : option string :=
  find "instrument-name" score_instrument ≫= text.

Definition instrument_labels (score_part : element)
    : list (option string * option string) :=
  (λ score_instrument,
     (get "id" score_instrument, instrument_label score_instrument))
    <$> findall "score-instrument" score_part.

Definition labels_of (k : kind) (score_part : element)
    : list (option string * option string) :=
  match k with
  | Part => part_labels score_part
  | Instrument => instrument_labels score_part
  end.

(** The entities of kind [k]: pairs of an id and a label. *)
Definition entities (k : kind) (root : element)
    : list (option string * option string) :=
  score_parts root ≫= labels_of k.

(** ** What discovery records *)

(** The two dictionaries of a namespace, read and written together. *)
Definition proj (k : kind) (s : InstrumentManager) : rename_dict * Counter :=
  (dict_of k s, counter_of k s).
Definition put (k : kind) (st : rename_dict * Counter) (s : InstrumentManager)
    : InstrumentManager :=
  set_dict k st.1 (set_counter k st.2 s).

(** What discovery does with one entity on the dictionaries of its namespace:
    a label that resolves takes the next number of its family. *)
Definition record_entity (st : rename_dict * Counter)
    (e : option string * option string) : rename_dict * Counter :=
  match e.2 with
  | Some name =>
      match resolve name with
      | Some fam =>
          let counter := counter_incr st.2 fam in
          (<[e.1 := {| original_name := name;
                       swap_name := fam +:+ " " +:+ str (counter_get counter fam) |}]> st.1,
           counter)
      | None => st
      end
  | None => st
  end.

Definition record_entities (es : list (option string * option string))
    (st : rename_dict * Counter) : rename_dict * Counter :=
  fold_left record_entity es st.

(** What discovery does with one score part: its part names, then its score
    instruments. *)
Definition score_part_step (s : InstrumentManager) (score_part : element)
    : InstrumentManager :=
  put Instrument
    (record_entities (instrument_labels score_part) (proj Instrument s))
    (put Part (record_entities (part_labels score_part) (proj Part s)) s).

(** A document discovery can read to the end: it has a part list, and every
    entity has a label. *)
Definition labelled (es : list (option string * option string)) : Prop :=
  Forall (λ e, is_Some e.2) es.
Definition well_labelled (root : element) : Prop :=
  is_Some (find "part-list" root) ∧
  labelled (entities Part root) ∧ labelled (entities Instrument root).

(** The state discovery leaves when it returns. *)
Definition discovered (root : element) (s : InstrumentManager)
    : InstrumentManager :=
  put Instrument
    (record_entities (entities Instrument root) (proj Instrument s))
    (put Part (record_entities (entities Part root) (proj Part s)) s).

(** ** What cleanup rewrites *)

(** What [_cleanup] does to one rename map: the counter is visited in
    order, and each family with count 1 tests and rewrites the map. *)
Definition cleanup_entries (counter : Counter) (rm : rename_map) : rename_map :=
  fold_left
    (λ rm item, if Nat.eqb item.2 1 then cleanup_entry item.1 rm else rm)
    counter rm.

(** No family counted once is another such family followed by [" 1"]: the
    bare name cleanup leaves is then never taken for a numbered one. *)
Definition separated (counter : Counter) : Prop :=
  ∀ f g, (f, 1) ∈ counter → (g, 1) ∈ counter → f ≠ g +:+ " 1".

(** The counters of a manager only count families of the table. *)
Definition counts_families_only (s : InstrumentManager) : Prop :=
  ∀ k fam, fam ∈ (counter_of k s).*1 → fam ∈ families.

(** ** The frame of renaming

    [blank_labels] erases what renaming may write: the text of the part names
    of the score parts of the first part list and the text of the instrument
    names of their score instruments. Two trees with the same image differ in
    those texts only. *)

Definition map_tagged (t : string) (f : element → element)
    (cs : list element) : list element :=
  (λ c, if has_tag t c then f c else c) <$> cs.

Fixpoint map_first (t : string) (f : element → element)
    (cs : list element) : list element :=
  match cs with
  | [] => []
  | c :: cs' => if has_tag t c then f c :: cs' else c :: map_first t f cs'
  end.

Definition map_children (f : list element → list element) (e : element)
    : element :=
  set_children (f (children e)) e.

Definition blank (e : element) : element :=
  {| tag := tag e; attrib := attrib e; text := None; children := children e |}.

Definition blank_score_instrument : element → element :=
  map_children (map_tagged "instrument-name" blank).

Definition blank_score_part : element → element :=
  map_children (λ cs,
    map_tagged "score-instrument" blank_score_instrument
      (map_tagged "part-name" blank cs)).

Definition blank_labels : element → element :=
  map_children
    (map_first "part-list"
       (map_children (map_tagged "score-part" blank_score_part))).


(** ** Documents that are already normalised

    The entities of a kind are normalised when their ids are distinct and
    every label either fails to resolve or is the bare name of a family that
    resolves to itself and occurs once. *)

Definition canonical_label (es : list (option string * option string))
    (label : option string) : Prop :=
  family label = None ∨
  ∃ fam, label = Some fam ∧ resolve fam = Some fam ∧ occurrences fam es = 1.

Definition canonical (k : kind) (root : element) : Prop :=
  ∀ e, e ∈ entities k root → canonical_label (entities k root) e.2.

Definition normalized (k : kind) (root : element) : Prop :=
  NoDup (entities k root).*1 ∧ canonical k root.

(** Every instrument name of a score instrument carries the label discovery
    reads from the first one (a score instrument of MusicXML has one). *)
Definition single_named (root : element) : Prop :=
  ∀ score_part score_instrument,
    score_part ∈ score_parts root →
    score_instrument ∈ findall "score-instrument" score_part →
    Forall (λ c, text c = instrument_label score_instrument)
      (findall "instrument-name" score_instrument).

(** ** Patterns that never match first

    An entry of the swap map is shadowed when an earlier pattern that is not
    shadowed itself occurs in its pattern: the earlier pattern then occurs in
    every name the pattern occurs in, and the loop of [_find_generic_name]
    returns before it reaches the entry. [live_from] keeps the other
    entries, in order; [earlier] holds the patterns kept so far. *)

Fixpoint live_from (earlier : list string) (items : list (string * string))
    : list (string * string) :=
  match items with
  | [] => []
  | (pat, fam) :: items' =>
      if existsb (λ k, contains k pat) earlier
      then live_from earlier items'
      else (pat, fam) :: live_from (earlier ++ [pat]) items'
  end.

Definition live_entries : list (string * string) :=
  live_from [] instrument_swap_map.

(** The families of the table that no name resolves to. *)
Definition never_resolved_families : list string :=
  ((λ x, "Solo " +:+ x) <$> solo_strings) ++ shadowed_families.

(** ** Numbered names

    [straddles k a] tells whether the pattern [k] can occur in [a] followed
    by a blank and a numeral without occurring in [a]: some end of [a] is
    the start of [k] and the rest of [k] is a blank and digits ([through]),
    or [k] consists of digits. *)

Definition is_digit (a : ascii) : bool :=
  (48 <=? nat_of_ascii a) && (nat_of_ascii a <=? 57).

Fixpoint all_digits (s : string) : bool :=
  match s with
  | EmptyString => true
  | String a s' => is_digit a && all_digits s'
  end.

Definition blank_digits (k : string) : bool :=
  match k with
  | String a k' => Ascii.eqb a " " && all_digits k'
  | EmptyString => false
  end.

Fixpoint through (k a : string) : bool :=
  match a with
  | EmptyString => blank_digits k
  | String c a' =>
      match k with
      | String d k' => Ascii.eqb d c && through k' a'
      | EmptyString => false
      end
  end.

Fixpoint straddles (k a : string) : bool :=
  through k a ||
  match a with
  | EmptyString => all_digits k
  | String _ a' => straddles k a'
  end.

(** [" 1"] repeated [n] times, and the families a counter counts once. *)
Fixpoint ones (n : nat) : string :=
  match n with
  | 0 => ""
  | S n' => ones n' +:+ " 1"
  end.

Definition counted_once (counter : Counter) : list string :=
  (List.filter (λ item, Nat.eqb item.2 1) counter).*1.

(** ** What discovery reads, in the order of the traversal

    Discovery visits the score parts in order and, in each, first the part
    names and then the score instruments. A read is an entity with its
    namespace; [record_read] is what discovery does with a read that has a
    label, and [until_unlabelled] cuts a list of reads before the first one
    without label. *)

Abbreviation read := (kind * (option string * option string))%type.

Definition reads_of (score_part : element) : list read :=
  ((λ e, (Part, e)) <$> part_labels score_part) ++
  ((λ e, (Instrument, e)) <$> instrument_labels score_part).

Definition reads (root : element) : list read := score_parts root ≫= reads_of.

Definition record_read (s : InstrumentManager) (r : read) : InstrumentManager :=
  put r.1 (record_entity (proj r.1 s) r.2) s.

Fixpoint until_unlabelled (rs : list read) : list read :=
  match rs with
  | [] => []
  | r :: rs' =>
      match r.2.2 with
      | Some _ => r :: until_unlabelled rs'
      | None => []
      end
  end.

Definition all_labelled (rs : list read) : Prop :=
  Forall (λ r : read, is_Some r.2.2) rs.

(** The method [m] reads the entities [rs] in this order and stops at the
    first one without label, with an exception that satisfies [P]. *)
Definition reads_until_unlabelled (m : M unit) (rs : list read)
    (P : exn → Prop) : Prop :=
  ∀ s, (m s).2 = fold_left record_read (until_unlabelled rs) s ∧
       ((m s).1 = Ok tt ↔ all_labelled rs) ∧
       (∀ e, (m s).1 = Raise e → P e).

Definition discovery_error (e : exn) : Prop :=
  e = TypeError ∨ e = AttributeError.

(** ** What renaming writes

    [relabel] is the document renaming leaves when it returns: every label
    of an entity with an entry carries the proposed name of the entry. The
    dictionaries are [consistent] with a document when every label of an
    entity with an entry carries the original name of the entry, which is
    what the assertions test, and the document is [writable] with them when
    the proposed name of every entry that renaming writes is XML
    compatible, which is what lxml tests. A dictionary is [compatible] when
    all its proposed names are. *)

(** The element [e] with the text [s]. *)
Definition with_text (s : string) (e : element) : element :=
  {| tag := tag e; attrib := attrib e; text := Some s; children := children e |}.

Definition relabel_element (d : rename_dict) (tag_name : string)
    (elem : element) : element :=
  match d !! get "id" elem with
  | Some rm => map_children (map_tagged tag_name (with_text (swap_name rm))) elem
  | None => elem
  end.

Definition relabel_score_part (parts instruments : rename_dict)
    (score_part : element) : element :=
  map_children
    (map_tagged "score-instrument"
       (relabel_element instruments "instrument-name"))
    (relabel_element parts "part-name" score_part).

Definition relabel (parts instruments : rename_dict) : element → element :=
  map_children
    (map_first "part-list"
       (map_children
          (map_tagged "score-part" (relabel_score_part parts instruments)))).

Definition agrees (d : rename_dict) (tag_name : string) (elem : element)
    : Prop :=
  ∀ rm, d !! get "id" elem = Some rm →
    Forall (λ c, text c = Some (original_name rm)) (findall tag_name elem).

Definition consistent (parts instruments : rename_dict) (root : element)
    : Prop :=
  ∀ score_part, score_part ∈ score_parts root →
    agrees parts "part-name" score_part ∧
    ∀ score_instrument,
      score_instrument ∈ findall "score-instrument" score_part →
      agrees instruments "instrument-name" score_instrument.

(** Why renaming with the entry [rm] raises [e] at the label [c]: the label
    differs from the original name, or it carries the original name and the
    proposed name is refused. *)
Definition refused (rm : rename_map) (c : element) (e : exn) : Prop :=
  (e = AssertionError "Original name mismatch" ∧
   text c ≠ Some (original_name rm)) ∨
  (e = ValueError ∧ text c = Some (original_name rm) ∧
   xml_compatible (swap_name rm) = false).

Definition compatible (d : rename_dict) : Prop :=
  ∀ i rm, d !! i = Some rm → xml_compatible (swap_name rm) = true.

Definition writes (d : rename_dict) (tag_name : string) (elem : element)
    : Prop :=
  ∀ rm, d !! get "id" elem = Some rm → findall tag_name elem ≠ [] →
    xml_compatible (swap_name rm) = true.

Definition writable (parts instruments : rename_dict) (root : element)
    : Prop :=
  ∀ score_part, score_part ∈ score_parts root →
    writes parts "part-name" score_part ∧
    ∀ score_instrument,
      score_instrument ∈ findall "score-instrument" score_part →
      writes instruments "instrument-name" score_instrument.

(** The entities after renaming with the dictionary [d]: an entity whose id
    has an entry carries the proposed name of the entry. *)
Definition relabelled (d : rename_dict)
    (es : list (option string * option string))
    : list (option string * option string) :=
  (λ e, (e.1, match d !! e.1 with
              | Some rm => Some (swap_name rm)
              | None => e.2
              end)) <$> es.

(** The name normalisation gives the [n]-th entity of [es]: the bare family
    name when the family occurs once, the family name with the rank of the
    entity among the entities of its family otherwise, and the label as it
    is when it does not resolve. *)
Definition normal_name (es : list (option string * option string))
    (n : nat) (e : option string * option string) : option string :=
  match family e.2 with
  | Some fam =>
      Some (if decide (occurrences fam es = 1) then fam
            else fam +:+ " " +:+ str (occurrences fam (take (S n) es)))
  | None => e.2
  end.

Definition normal_names (es : list (option string * option string))
    : list (option string * option string) :=
  imap (λ n e, (e.1, normal_name es n e)) es.

(** ** Documents [process_xml] accepts *)

(** The labels under one id agree: two entities of an id, one of which
    resolves, carry the same label. *)
Definition ids_agree (es : list (option string * option string)) : Prop :=
  ∀ i l1 l2, (i, l1) ∈ es → (i, l2) ∈ es → is_Some (family l1) → l1 = l2.

(** Every instrument name of a score instrument that resolves carries the
    label discovery reads from the first one. *)
Definition resolved_single_named (root : element) : Prop :=
  ∀ score_part score_instrument,
    score_part ∈ score_parts root →
    score_instrument ∈ findall "score-instrument" score_part →
    is_Some (family (instrument_label score_instrument)) →
    Forall (λ c, text c = instrument_label score_instrument)
      (findall "instrument-name" score_instrument).

(** ** Example documents *)

Definition mk (t : string) (id : option string) (txt : option string)
    (cs : list element) : element :=
  {| tag := t;
     attrib := match id with Some i => {["id" := i]} | None => ∅ end;
     text := txt; children := cs |}.

Definition score_partwise (score_parts : list element) : element :=
  mk "score-partwise" None None
    [ mk "work" None None [mk "work-title" None (Some "Suite") []];
      mk "part-list" None None score_parts ].

Definition simple_part (id name : string) (instruments : list element)
    : element :=
  mk "score-part" (Some id) None
    (mk "part-name" None (Some name) [] :: instruments).

Definition simple_instrument (id name : string) : element :=
  mk "score-instrument" (Some id) None
    [mk "instrument-name" None (Some name) []].

(** Three timpani parts, one of them under a vendor name, an instrument
    outside the table and a trumpet ensemble. *)
Definition timpani_doc : element :=
  score_partwise
    [ simple_part "P1" "CinePerc Timpani" [simple_instrument "P1-I1" "Timpani"];
      simple_part "P2" "Timpani" [simple_instrument "P2-I1" "Kazoo"];
      simple_part "P3" "2 Trumpets" [simple_instrument "P3-I1" "Trumpet Ensemble"];
      simple_part "P4" "Timpani" [] ].

(** Two violin sections and a harp. *)
Definition violins_harp_doc : element :=
  score_partwise
    [ simple_part "P1" "Violins 1" [];
      simple_part "P2" "Violins 2" [];
      simple_part "P3" "Harp" [] ].

(** A part list without score parts, and a document without part list. *)
Definition no_parts_doc : element := score_partwise [].
Definition no_part_list_doc : element :=
  mk "score-partwise" None None
    [mk "work" None None [mk "work-title" None (Some "Suite") []]].

(** A score instrument without instrument name. *)
Definition unnamed_instrument_doc : element :=
  score_partwise
    [ simple_part "P1" "Harp" [mk "score-instrument" (Some "P1-I1") None []];
      simple_part "P2" "Tuba" [simple_instrument "P2-I1" "Tuba"] ].

(** Two score parts with the same id. *)
Definition colliding_ids_doc : element :=
  score_partwise
    [ simple_part "P1" "Harp" [];
      simple_part "P1" "Tuba" [] ].

(** Two harps with the same id. *)
Definition twin_harps_doc : element :=
  score_partwise
    [ simple_part "P1" "Harp" [];
      simple_part "P1" "Harp" [] ].

(** Two horns under vendor names, with their instruments, and a viola
    section. *)
Definition horns_doc : element :=
  score_partwise
    [ simple_part "P1" "Berlin Brass Horn 1"
        [simple_instrument "P1-I1" "CineBrass French Horn"];
      simple_part "P2" "CineBrass French Horn"
        [simple_instrument "P2-I1" "Horn Ensemble"];
      simple_part "P3" "Berlin Strings Violas" [] ].

(** A proposed name with a control character (U+0007). *)
Definition bell_harp : rename_map :=
  {| original_name := "Harp";
     swap_name := String (ascii_of_nat 7) "Harp" |}.

(** * Properties *)

(** ** Strings *)

Lemma app_cons a p s : String a p +:+ s = String a (p +:+ s).
Proof. reflexivity. Qed.
Lemma app_empty s : "" +:+ s = s.
Proof. reflexivity. Qed.

Ltac unfold_app := rewrite ?app_cons, ?app_empty in *.

Lemma startswith_spec p s :
  startswith p s = true ↔ ∃ post, s = p +:+ post.
Proof.
  revert s. induction p as [|a p IH]; intros s; simpl.
  - split; [intros _; by exists s | done].
  - destruct s as [|b s].
    + split; [done | intros [post Hpost]; unfold_app; discriminate].
    + destruct (Ascii.eqb_spec a b) as [->|Hab].
      * rewrite IH. split.
        -- intros [post ->]. by exists post.
        -- intros [post Hpost]. exists post. unfold_app. by simplify_eq.
      * split; [done | intros [post Hpost]; unfold_app; congruence].
Qed.

Lemma contains_spec p s : contains p s = true ↔ substring_of p s.
Proof.
  unfold substring_of. induction s as [|b s IH]; simpl.
  - rewrite orb_false_r, startswith_spec. split.
    + intros [post ->]. by exists "", post.
    + intros (pre & post & H). destruct pre; unfold_app; [by exists post|discriminate].
  - rewrite orb_true_iff, startswith_spec, IH. split.
    + intros [[post ->]|(pre & post & ->)].
      * by exists "", post.
      * by exists (String b pre), post.
    + intros (pre & post & H). destruct pre as [|c pre]; unfold_app.
      * left. by exists post.
      * right. exists pre, post. by simplify_eq.
Qed.

Lemma contains_false p s : contains p s = false ↔ ¬ substring_of p s.
Proof. rewrite <-contains_spec. by destruct (contains p s). Qed.

Lemma space_free_app_blank a x : ¬ space_free (a +:+ " " +:+ x).
Proof. induction a as [|c a IH]; unfold_app; simpl; [intros [? _]; done | tauto]. Qed.

Lemma numeral_space_free d : space_free (NilEmpty.string_of_uint d).
Proof. induction d; simpl; auto; split; auto; discriminate. Qed.

Lemma str_space_free n : space_free (str n).
Proof.
  unfold str, NilZero.string_of_uint.
  destruct (Nat.to_uint n) eqn:E; try apply numeral_space_free.
  simpl; split; [discriminate | done].
Qed.

Lemma all_digits_numeral d : all_digits (NilEmpty.string_of_uint d) = true.
Proof. induction d; simpl; auto. Qed.

Lemma str_digits n : all_digits (str n) = true.
Proof.
  unfold str, NilZero.string_of_uint.
  destruct (Nat.to_uint n) eqn:E; try apply all_digits_numeral. done.
Qed.

Lemma str_inj n m : str n = str m → n = m.
Proof.
  unfold str. intros H. apply DecimalNat.Unsigned.to_uint_inj.
  assert (∀ k, Nat.to_uint k ≠ Decimal.Nil) as Hnn.
  { intros k Hk. pose proof (DecimalNat.Unsigned.of_to k) as T.
    rewrite Hk in T. cbv in T. subst k. discriminate. }
  pose proof (NilZero.usu _ (Hnn n)) as Hn.
  pose proof (NilZero.usu _ (Hnn m)) as Hm.
  rewrite H in Hn. congruence.
Qed.

(** A numbered name splits in one way only at its last blank. *)
Lemma numbered_inj a b x y :
  space_free x → space_free y →
  a +:+ " " +:+ x = b +:+ " " +:+ y → a = b ∧ x = y.
Proof.
  intros Hx Hy. revert b.
  induction a as [|c a IH]; intros [|c' b] H; unfold_app.
  - by simplify_eq.
  - simplify_eq. by destruct (space_free_app_blank b y).
  - simplify_eq. by destruct (space_free_app_blank a x).
  - simplify_eq. destruct (IH b) as [-> ->]; done.
Qed.

Lemma numbered_str_inj a b n m :
  a +:+ " " +:+ str n = b +:+ " " +:+ str m → a = b ∧ n = m.
Proof.
  intros H. apply numbered_inj in H as [-> H]; auto using str_space_free.
  split; [done | by apply str_inj].
Qed.

Lemma app_blank_ne a x : a ≠ a +:+ " " +:+ x.
Proof.
  induction a as [|c a IH]; unfold_app; [discriminate|].
  intros H. by simplify_eq.
Qed.

(** ** Ordered dictionaries and counters *)

Section ordered_dict_facts.
Context {V : Type}.
Implicit Types (d : list (string * V)) (k : string) (v : V).

Lemma od_get_set_eq k v d : od_get k (od_set k v d) = Some v.
Proof.
  induction d as [|[k' v'] d IH]; simpl.
  - by rewrite String.eqb_refl.
  - destruct (String.eqb_spec k' k) as [->|Hne]; simpl.
    + by rewrite String.eqb_refl.
    + by destruct (String.eqb_spec k' k).
Qed.

Lemma od_get_set_ne k k' v d : k ≠ k' → od_get k' (od_set k v d) = od_get k' d.
Proof.
  intros Hne. induction d as [|[k0 v0] d IH]; simpl.
  - by destruct (String.eqb_spec k k').
  - destruct (String.eqb_spec k0 k) as [->|Hk0]; simpl.
    + by destruct (String.eqb_spec k k').
    + by rewrite IH.
Qed.

(** Setting a key leaves the other pairs where they are. *)
Lemma od_set_keys k v d k' :
  k' ∈ (od_set k v d).*1 ↔ k' = k ∨ k' ∈ d.*1.
Proof.
  induction d as [|[k0 v0] d IH]; simpl.
  - rewrite list_elem_of_singleton, elem_of_nil. tauto.
  - destruct (String.eqb_spec k0 k) as [->|Hk0]; simpl;
      rewrite !elem_of_cons; [|rewrite IH]; tauto.
Qed.

Lemma od_get_Some_elem k v d : od_get k d = Some v → (k, v) ∈ d.
Proof.
  induction d as [|[k0 v0] d IH]; simpl; [done|].
  destruct (String.eqb_spec k0 k) as [->|Hk0].
  - intros [= ->]. left.
  - intros H. right. auto.
Qed.
End ordered_dict_facts.

Lemma counter_get_incr_eq counter k :
  counter_get (counter_incr counter k) k = counter_get counter k + 1.
Proof. unfold counter_get, counter_incr. by rewrite od_get_set_eq. Qed.

Lemma counter_get_incr_ne counter k k' :
  k ≠ k' → counter_get (counter_incr counter k) k' = counter_get counter k'.
Proof. intros. unfold counter_get, counter_incr. by rewrite od_get_set_ne. Qed.

Lemma counter_incr_keys counter k k' :
  k' ∈ (counter_incr counter k).*1 ↔ k' = k ∨ k' ∈ counter.*1.
Proof. apply od_set_keys. Qed.

(** ** The swap map *)

Lemma swap_map_built : instrument_swap_map = _create_instrument_swap_map.
Proof. vm_compute. reflexivity. Qed.

(** The keys of the swap map are distinct, and [swap_map[instrument]] is the
    value paired with [instrument]: the loop over [keys()] that indexes the
    map visits the pairs of the list. *)
Lemma swap_map_keys : NoDup instrument_swap_map.*1.
Proof. apply (bool_decide_unpack _). vm_compute. exact I. Qed.

Lemma swap_map_lookup instrument swap :
  (instrument, swap) ∈ instrument_swap_map →
  od_get instrument instrument_swap_map = Some swap.
Proof.
  revert instrument swap.
  assert (Forall (λ item, od_get item.1 instrument_swap_map = Some item.2)
            instrument_swap_map) as H.
  { apply (bool_decide_unpack _). vm_compute. exact I. }
  intros instrument swap Hin. rewrite Forall_forall in H.
  apply (H (instrument, swap) Hin).
Qed.

(** ** Resolution *)

Lemma resolve_from_Some items name fam :
  resolve_from items name = Some fam ↔
  ∃ i pat, items !! i = Some (pat, fam) ∧ substring_of pat name ∧
           ∀ j e, j < i → items !! j = Some e → ¬ substring_of e.1 name.
Proof.
  induction items as [|[pat0 fam0] items IH]; simpl.
  - split; [done | intros (i & pat & H & _); by destruct i].
  - destruct (contains pat0 name) eqn:E.
    + split.
      * intros [= ->]. exists 0, pat0. split_and!; [done|by apply contains_spec|lia].
      * intros (i & pat & Hi & Hpat & Hmin). destruct i as [|i]; [by simplify_eq/=|].
        apply contains_spec in E. destruct (Hmin 0 (pat0, fam0)); [lia|done|done].
    + apply contains_false in E. rewrite IH. split.
      * intros (i & pat & Hi & Hpat & Hmin). exists (S i), pat. split_and!; [done..|].
        intros [|j] e Hj He; simplify_eq/=; [done|]. eapply Hmin; [|done]. lia.
      * intros (i & pat & Hi & Hpat & Hmin). destruct i as [|i]; simplify_eq/=; [done|].
        exists i, pat. split_and!; [done..|].
        intros j e Hj He. apply (Hmin (S j) e); [lia|done].
Qed.

Lemma resolve_from_None items name :
  resolve_from items name = None ↔
  ∀ pat fam, (pat, fam) ∈ items → ¬ substring_of pat name.
Proof.
  induction items as [|[pat0 fam0] items IH]; simpl.
  - split; [intros _ ?? H; by apply elem_of_nil in H | done].
  - destruct (contains pat0 name) eqn:E.
    + split; [done|]. intros H. apply contains_spec in E.
      destruct (H pat0 fam0); [left | done].
    + apply contains_false in E. rewrite IH. split.
      * intros H pat fam [?|?]%elem_of_cons; simplify_eq; eauto.
      * intros H pat fam ?. apply (H pat fam). by right.
Qed.

(** The loop of [_find_generic_name] is the lookup followed by the update of
    the counter. *)
Lemma find_generic_name_from_resolve items name counter :
  (∀ item, item ∈ items → od_get item.1 instrument_swap_map = Some item.2) →
  find_generic_name_from items.*1 (Some name) counter =
  match resolve_from items name with
  | Some fam =>
      (Ok (Some {| original_name := name;
                    swap_name := fam +:+ " " +:+ str (counter_get counter fam + 1) |}),
       counter_incr counter fam)
  | None => (Ok None, counter)
  end.
Proof.
  induction items as [|[pat fam] items IH]; intros Hitems; simpl; [done|].
  destruct (contains pat name).
  - pose proof (Hitems (pat, fam) ltac:(left)) as Hhd. simpl in Hhd.
    rewrite Hhd. by rewrite counter_get_incr_eq.
  - apply IH. intros item Hitem. apply Hitems. by right.
Qed.

Lemma find_generic_name_resolve name counter :
  _find_generic_name (Some name) counter =
  match resolve name with
  | Some fam =>
      (Ok (Some {| original_name := name;
                    swap_name := fam +:+ " " +:+ str (counter_get counter fam + 1) |}),
       counter_incr counter fam)
  | None => (Ok None, counter)
  end.
Proof.
  apply find_generic_name_from_resolve.
  intros [instrument swap]. apply swap_map_lookup.
Qed.

Lemma find_generic_name_None counter :
  _find_generic_name None counter = (Raise TypeError, counter).
Proof. reflexivity. Qed.

Lemma resolve_family name fam : resolve name = Some fam → fam ∈ families.
Proof.
  unfold resolve, families. intros (i & pat & Hi & _)%resolve_from_Some.
  apply list_elem_of_fmap. exists (pat, fam). split; [done|].
  by eapply list_elem_of_lookup_2.
Qed.

(** ** Method bodies and loops *)

Lemma bind_unfold {A B} (m : M A) (k : A → M B) s :
  (m ≫= k) s =
  match m s with
  | (Ok a, s') => k a s'
  | (Raise e, s') => (Raise e, s')
  end.
Proof. reflexivity. Qed.

Lemma for_each_cons {X} (x : X) xs body s :
  for_each (x :: xs) body s =
  match body x s with
  | (Ok _, s') => for_each xs body s'
  | (Raise e, s') => (Raise e, s')
  end.
Proof. reflexivity. Qed.

(** A loop whose body succeeds exactly on the elements with [P], and then
    acts as [F], succeeds exactly on the lists of such elements. *)
Lemma for_each_Ok_iff {X} (xs : list X) body (P : X → Prop)
    (F : InstrumentManager → X → InstrumentManager) :
  (∀ x s s', body x s = (Ok tt, s') ↔ P x ∧ s' = F s x) →
  ∀ s s', for_each xs body s = (Ok tt, s') ↔ Forall P xs ∧ s' = fold_left F xs s.
Proof.
  intros Hbody. induction xs as [|x xs IH]; intros s s'.
  - simpl. unfold mret, M_ret. split.
    + intros [= <-]. by split.
    + by intros [_ ->].
  - rewrite for_each_cons, Forall_cons. simpl.
    destruct (body x s) as [[[]|e] s1] eqn:E.
    + apply Hbody in E as [HP ->]. rewrite IH. tauto.
    + split; [done|]. intros [[HP _] _].
      assert (body x s = (Ok tt, F s x)) as E' by (by apply Hbody).
      congruence.
Qed.

(** ** The state of a namespace *)

Lemma proj_put k st s : proj k (put k st s) = st.
Proof. by destruct k, st, s. Qed.
Lemma proj_put_ne k k' st s : k ≠ k' → proj k' (put k st s) = proj k' s.
Proof. by destruct k, k', st, s. Qed.
Lemma put_proj k s : put k (proj k s) s = s.
Proof. by destruct k, s. Qed.
Lemma put_put k st st' s : put k st (put k st' s) = put k st s.
Proof. by destruct k, s. Qed.
Lemma root_put k st s : root (put k st s) = root s.
Proof. by destruct k, s. Qed.

Lemma fold_put {X} k (lab : X → option string * option string) xs s :
  fold_left (λ s x, put k (record_entity (proj k s) (lab x)) s) xs s =
  put k (record_entities (lab <$> xs) (proj k s)) s.
Proof.
  revert s. induction xs as [|x xs IH]; intros s; simpl.
  - by rewrite put_proj.
  - by rewrite IH, proj_put, put_put.
Qed.

(** ** Discovery *)

Lemma record_generic_name_Some k element_id name s :
  record_generic_name k element_id (Some name) s =
  (Ok tt, put k (record_entity (proj k s) (element_id, Some name)) s).
Proof.
  unfold record_generic_name, call_find_generic_name, record_entity.
  rewrite bind_unfold, find_generic_name_resolve. simpl.
  destruct (resolve name) as [fam|]; simpl.
  - rewrite counter_get_incr_eq. by destruct k, s.
  - by destruct k, s.
Qed.

Lemma record_generic_name_None k element_id s :
  record_generic_name k element_id None s = (Raise TypeError, s).
Proof.
  unfold record_generic_name, call_find_generic_name.
  rewrite bind_unfold, find_generic_name_None. by destruct k, s.
Qed.

Lemma record_generic_name_Ok k element_id name s s' :
  record_generic_name k element_id name s = (Ok tt, s') ↔
  is_Some name ∧ s' = put k (record_entity (proj k s) (element_id, name)) s.
Proof.
  destruct name as [name|].
  - rewrite record_generic_name_Some. split.
    + intros [= <-]. eauto.
    + by intros [_ ->].
  - rewrite record_generic_name_None. split; [done|]. by intros [[? [=]] _].
Qed.

Lemma discover_score_instrument_Ok score_instrument s s' :
  discover_score_instrument score_instrument s = (Ok tt, s') ↔
  is_Some (instrument_label score_instrument) ∧
  s' = put Instrument
         (record_entity (proj Instrument s)
            (get "id" score_instrument, instrument_label score_instrument)) s.
Proof.
  unfold discover_score_instrument, instrument_label.
  destruct (find "instrument-name" score_instrument) as [e|]; simpl.
  - apply record_generic_name_Ok.
  - split; [done|]. by intros [[? [=]] _].
Qed.

Lemma discover_score_part_Ok score_part s s' :
  discover_score_part score_part s = (Ok tt, s') ↔
  (labelled (part_labels score_part) ∧ labelled (instrument_labels score_part)) ∧
  s' = score_part_step s score_part.
Proof.
  unfold discover_score_part, score_part_step, labelled, part_labels,
    instrument_labels.
  rewrite bind_unfold, !Forall_fmap.
  set (body := λ part_name, record_generic_name Part _ (text part_name)).
  pose proof (for_each_Ok_iff (findall "part-name" score_part) body
    (λ part_name, is_Some (text part_name))
    (λ s part_name,
       put Part (record_entity (proj Part s)
                   (get "id" score_part, text part_name)) s)) as Hparts.
  pose proof (for_each_Ok_iff (findall "score-instrument" score_part)
    discover_score_instrument
    (λ si, is_Some (instrument_label si))
    (λ s si, put Instrument
               (record_entity (proj Instrument s)
                  (get "id" si, instrument_label si)) s)) as Hinstr.
  destruct (for_each _ body s) as [[[]|e] s1] eqn:E.
  - apply Hparts in E as [HP ->];
      [|intros; apply record_generic_name_Ok].
    rewrite Hinstr by (intros; apply discover_score_instrument_Ok).
    rewrite !(fold_put Part (λ pn, (get "id" score_part, text pn))),
      !(fold_put Instrument (λ si, (get "id" si, instrument_label si))).
    rewrite proj_put_ne by done. unfold compose in *; simpl. tauto.
  - split; [done|]. intros [[HP _] _].
    destruct (Hparts (λ _ _ _, record_generic_name_Ok _ _ _ _ _) s
      (fold_left (λ s part_name,
         put Part (record_entity (proj Part s)
                     (get "id" score_part, text part_name)) s)
         (findall "part-name" score_part) s)) as [_ H].
    rewrite H in E; [done|]. split; [exact HP | done].
Qed.

Lemma fold_score_part_step k sps s :
  proj k (fold_left score_part_step sps s) =
  record_entities (sps ≫= labels_of k) (proj k s).
Proof.
  revert s. induction sps as [|sp sps IH]; intros s; [done|].
  simpl. rewrite IH. unfold record_entities at 2. rewrite fold_left_app.
  f_equal. unfold score_part_step.
  destruct k; [by rewrite proj_put_ne, proj_put | by rewrite proj_put].
Qed.

Lemma root_fold_score_part_step sps s :
  root (fold_left score_part_step sps s) = root s.
Proof.
  revert s. induction sps as [|sp sps IH]; intros s; [done|].
  simpl. rewrite IH. unfold score_part_step. by rewrite !root_put.
Qed.

(** A manager is its root and the states of its two namespaces. *)
Lemma manager_eq s1 s2 :
  root s1 = root s2 → proj Part s1 = proj Part s2 →
  proj Instrument s1 = proj Instrument s2 → s1 = s2.
Proof. destruct s1, s2; unfold proj; simpl. congruence. Qed.

Lemma labelled_bind {X} (f : X → list (option string * option string)) xs :
  labelled (xs ≫= f) ↔ Forall (λ x, labelled (f x)) xs.
Proof.
  unfold labelled. induction xs as [|x xs IH]; simpl.
  - split; constructor.
  - rewrite Forall_app, Forall_cons, IH. tauto.
Qed.

(** Discovery returns exactly on the well-labelled documents, and then it
    has recorded the part entities and the instrument entities, each kind
    in its own dictionary and counter. *)
Lemma discover_Ok root s s' :
  find_generic_instrument_names root s = (Ok tt, s') ↔
  well_labelled root ∧ s' = discovered root s.
Proof.
  unfold find_generic_instrument_names, well_labelled, discovered, entities,
    score_parts.
  destruct (find "part-list" root) as [part_list|].
  - rewrite (for_each_Ok_iff _ _ _ score_part_step discover_score_part_Ok).
    rewrite !labelled_bind, Forall_and.
    assert (fold_left score_part_step (findall "score-part" part_list) s =
      put Instrument
        (record_entities (findall "score-part" part_list ≫= labels_of Instrument)
           (proj Instrument s))
        (put Part
           (record_entities (findall "score-part" part_list ≫= labels_of Part)
              (proj Part s)) s)) as ->.
    { apply manager_eq.
      - by rewrite root_fold_score_part_step, !root_put.
      - by rewrite fold_score_part_step, proj_put_ne, proj_put.
      - by rewrite fold_score_part_step, proj_put. }
    split; [intros [[??] ->]|intros [(_&?&?) ->]]; eauto.
  - split; [done|]. by intros [[[? [=]] _] _].
Qed.

(** ** Numbering a list of entities *)

Lemma record_entity_cases st e :
  match family e.2 with
  | Some fam =>
      ∃ name, e.2 = Some name ∧ resolve name = Some fam ∧
        record_entity st e =
        (<[e.1 := {| original_name := name;
                     swap_name := fam +:+ " " +:+ str (counter_get st.2 fam + 1) |}]> st.1,
         counter_incr st.2 fam)
  | None => record_entity st e = st
  end.
Proof.
  unfold record_entity, family. destruct e as [i [name|]]; simpl; [|done].
  destruct (resolve name) as [fam|] eqn:E; [|done].
  exists name. by rewrite counter_get_incr_eq.
Qed.

Lemma occurrences_cons fam e es :
  occurrences fam (e :: es) =
  (if bool_decide (family e.2 = Some fam) then 1 else 0) + occurrences fam es.
Proof. unfold occurrences. simpl. by case_bool_decide. Qed.

Lemma occurrences_app fam es1 es2 :
  occurrences fam (es1 ++ es2) = occurrences fam es1 + occurrences fam es2.
Proof.
  induction es1 as [|e es1 IH]; [done|].
  rewrite <-app_comm_cons, !occurrences_cons, IH. lia.
Qed.

Lemma record_entities_counter es st fam :
  counter_get (record_entities es st).2 fam =
  counter_get st.2 fam + occurrences fam es.
Proof.
  revert st. induction es as [|e es IH]; intros st; simpl.
  - unfold occurrences. simpl. lia.
  - rewrite IH, occurrences_cons. pose proof (record_entity_cases st e) as H.
    destruct (family e.2) as [f|] eqn:E.
    + destruct H as (name & _ & _ & ->). simpl. case_bool_decide; simplify_eq.
      * rewrite counter_get_incr_eq. lia.
      * rewrite counter_get_incr_ne by congruence. lia.
    + rewrite H. case_bool_decide; [done | lia].
Qed.

Lemma record_entities_keys es st fam :
  fam ∈ (record_entities es st).2.*1 → fam ∈ st.2.*1 ∨ fam ∈ families.
Proof.
  revert st. induction es as [|e es IH]; intros st; simpl; [auto|].
  intros [H|H]%IH; [|auto]. pose proof (record_entity_cases st e) as Hc.
  destruct (family e.2) as [f|] eqn:E.
  - destruct Hc as (name & _ & Hres & Hc). rewrite Hc in H. simpl in H.
    apply counter_incr_keys in H as [->|H]; [|auto].
    right. by eapply resolve_family.
  - rewrite Hc in H. auto.
Qed.

Lemma numbered_eq name fam a b :
  a = b →
  {| original_name := name; swap_name := fam +:+ " " +:+ str a |} =
  {| original_name := name; swap_name := fam +:+ " " +:+ str b |}.
Proof. by intros ->. Qed.

(** The entry of an id after the entities [es]: the one of the last entity
    with that id that resolves, numbered by the occurrences of its family up
    to there; the old entry when no such entity exists. *)
Lemma record_entities_lookup es st i rm :
  (record_entities es st).1 !! i = Some rm ↔
  (∃ n name fam,
      es !! n = Some (i, Some name) ∧ resolve name = Some fam ∧
      (∀ m e, n < m → es !! m = Some e → e.1 = i → family e.2 = None) ∧
      rm = {| original_name := name;
              swap_name := fam +:+ " " +:+
                str (counter_get st.2 fam + occurrences fam (take (S n) es)) |})
  ∨ (st.1 !! i = Some rm ∧ ∀ e, e ∈ es → e.1 = i → family e.2 = None).
Proof.
  revert st. induction es as [|e es IH]; intros st.
  - simpl. split.
    + intros H. right. split; [done|]. intros e He. by apply elem_of_nil in He.
    + intros [(n & name & fam & Hn & _)|[H _]]; [by destruct n | done].
  - change (record_entities (e :: es) st) with (record_entities es (record_entity st e)).
    rewrite IH. clear IH. pose proof (record_entity_cases st e) as Hc. split.
    + intros [(n & name & fam & Hn & Hres & Hlast & ->)|[Hold Hnone]].
      * left. exists (S n), name, fam. split_and!; [done..| |].
        { intros [|m] e' Hm He' Hi; [lia|]. apply (Hlast m e'); [lia|done..]. }
        apply numbered_eq.
        change (take (S (S n)) (e :: es)) with (e :: take (S n) es).
        rewrite occurrences_cons.
        destruct (family e.2) as [f|] eqn:E.
        -- destruct Hc as (name' & _ & _ & ->). simpl.
           case_bool_decide; simplify_eq.
           ++ rewrite counter_get_incr_eq. lia.
           ++ rewrite counter_get_incr_ne by congruence. lia.
        -- rewrite Hc. case_bool_decide; [done|lia].
      * destruct (family e.2) as [f|] eqn:E.
        -- destruct Hc as (name & He2 & Hres & Hc). rewrite Hc in Hold. simpl in Hold.
           destruct (decide (e.1 = i)) as [<-|Hne].
           ++ rewrite lookup_insert_eq in Hold. simplify_eq.
              left. exists 0, name, f. split_and!.
              ** simpl. destruct e; simpl in *; by subst.
              ** done.
              ** intros [|m] e' Hm He' Hi; [lia|]. simpl in He'.
                 apply Hnone; [|done]. by eapply list_elem_of_lookup_2.
              ** apply numbered_eq. simpl.
                 change (occurrences f [e]) with (occurrences f (e :: [])).
                 rewrite occurrences_cons. rewrite bool_decide_true by done.
                 unfold occurrences. simpl. lia.
           ++ rewrite lookup_insert_ne in Hold by done.
              right. split; [done|]. intros e' [->|He']%elem_of_cons; [done|auto].
        -- rewrite Hc in Hold. right. split; [done|].
           intros e' [->|He']%elem_of_cons; [done|auto].
    + intros [(n & name & fam & Hn & Hres & Hlast & ->)|[Hold Hnone]].
      * destruct n as [|n].
        -- simpl in Hn. simplify_eq. right.
           unfold family in Hc. simpl in Hc. rewrite Hres in Hc.
           destruct Hc as (name' & ? & _ & ->). simplify_eq. simpl. split.
           ++ rewrite lookup_insert_eq. f_equal. apply numbered_eq.
              change (take 1 ((i, Some name') :: es)) with [(i, Some name')].
              change [(i, Some name')] with ((i, Some name') :: []).
              rewrite occurrences_cons. rewrite bool_decide_true.
              ** unfold occurrences. simpl. lia.
              ** unfold family. simpl. done.
           ++ intros e' He' Hi. apply list_elem_of_lookup_1 in He' as [m Hm].
              apply (Hlast (S m) e'); [lia|done..].
        -- left. exists n, name, fam. simpl in Hn. split_and!; [done..| |].
           { intros m e' Hm He' Hi. apply (Hlast (S m) e'); [lia|done..]. }
           apply numbered_eq.
           change (take (S (S n)) (e :: es)) with (e :: take (S n) es).
           rewrite occurrences_cons.
           destruct (family e.2) as [f|] eqn:E.
           ++ destruct Hc as (name' & _ & _ & ->). simpl.
              case_bool_decide; simplify_eq.
              ** rewrite counter_get_incr_eq. lia.
              ** rewrite counter_get_incr_ne by congruence. lia.
           ++ rewrite Hc. case_bool_decide; [done|lia].
      * right. split; [|intros e' He'; apply Hnone; by right].
        destruct (family e.2) as [f|] eqn:E.
        -- destruct Hc as (name & He2 & Hres & ->). simpl.
           rewrite lookup_insert_ne; [done|]. intros Hi.
           assert (family e.2 = None) by (apply Hnone; [left|done]). congruence.
        -- by rewrite Hc.
Qed.

(** ** Cleanup *)

Lemma cleanup_fmap (counter : Counter) (d : rename_dict) :
  _cleanup counter d = cleanup_entries counter <$> d.
Proof.
  unfold _cleanup, cleanup_entries.
  revert d. induction counter as [|[f n] counter IH]; intros d; simpl.
  - by rewrite map_fmap_id.
  - rewrite IH. destruct (Nat.eqb n 1); [|done].
    by rewrite <-map_fmap_compose.
Qed.

Lemma cleanup_entries_cons f n (counter : Counter) rm :
  cleanup_entries ((f, n) :: counter) rm =
  cleanup_entries counter (if Nat.eqb n 1 then cleanup_entry f rm else rm).
Proof. reflexivity. Qed.

Lemma cleanup_entry_original f rm :
  original_name (cleanup_entry f rm) = original_name rm.
Proof. unfold cleanup_entry. by destruct (String.eqb _ _). Qed.

Lemma cleanup_entry_hit f rm :
  swap_name rm = f +:+ " 1" → cleanup_entry f rm = set_swap_name f rm.
Proof. unfold cleanup_entry. intros ->. by rewrite String.eqb_refl. Qed.

Lemma cleanup_entry_miss f rm :
  swap_name rm ≠ f +:+ " 1" → cleanup_entry f rm = rm.
Proof. unfold cleanup_entry. intros H. by destruct (String.eqb_spec (swap_name rm) (f +:+ " 1")). Qed.

(** A map that is not the numbered form of a family counted once is kept. *)
Lemma cleanup_entries_miss (counter : Counter) rm :
  (∀ g, (g, 1) ∈ counter → swap_name rm ≠ g +:+ " 1") →
  cleanup_entries counter rm = rm.
Proof.
  induction counter as [|[f n] counter IH]; intros H; [done|].
  rewrite cleanup_entries_cons. destruct (Nat.eqb_spec n 1) as [->|Hn].
  - rewrite cleanup_entry_miss by (apply H; left). apply IH.
    intros g Hg. apply H. by right.
  - apply IH. intros g Hg. apply H. by right.
Qed.

Lemma blank_one_inj f g : f +:+ " 1" = g +:+ " 1" → f = g.
Proof.
  intros H. apply (numbered_inj f g "1" "1") in H as [H _]; [done|..];
    simpl; split; done.
Qed.

(** A map that is the numbered form of a family counted once is rewritten
    to the bare family name. *)
Lemma cleanup_entries_hit (counter : Counter) f rm :
  (f, 1) ∈ counter → swap_name rm = f +:+ " 1" →
  (∀ g, (g, 1) ∈ counter → f ≠ g +:+ " 1") →
  cleanup_entries counter rm = set_swap_name f rm.
Proof.
  revert rm. induction counter as [|[g n] counter IH]; intros rm Hf Hrm Hsep.
  - by apply elem_of_nil in Hf.
  - rewrite cleanup_entries_cons. destruct (Nat.eqb_spec n 1) as [->|Hn].
    + destruct (decide (g = f)) as [->|Hgf].
      * rewrite cleanup_entry_hit by done. apply cleanup_entries_miss.
        intros g Hg. simpl. apply Hsep. by right.
      * rewrite cleanup_entry_miss.
        2:{ rewrite Hrm. intros H%blank_one_inj. done. }
        apply IH; [|done|intros g' Hg'; apply Hsep; by right].
        apply elem_of_cons in Hf as [?|?]; [by simplify_eq|done].
    + apply IH; [|done|intros g' Hg'; apply Hsep; by right].
      apply elem_of_cons in Hf as [?|?]; [by simplify_eq|done].
Qed.

(** The proposed name after cleanup is the old one or a family counted once. *)
Lemma cleanup_entries_swap (counter : Counter) rm :
  swap_name (cleanup_entries counter rm) = swap_name rm ∨
  (swap_name (cleanup_entries counter rm), 1) ∈ counter.
Proof.
  revert rm. induction counter as [|[f n] counter IH]; intros rm; [by left|].
  rewrite cleanup_entries_cons. destruct (Nat.eqb_spec n 1) as [->|Hn].
  - destruct (String.eqb_spec (swap_name rm) (f +:+ " 1")) as [Hhit|Hmiss].
    + rewrite cleanup_entry_hit by done. right.
      destruct (IH (set_swap_name f rm)) as [->|H]; [left | by right].
    + rewrite cleanup_entry_miss by done.
      destruct (IH rm) as [H|H]; [by left | right; by right].
  - destruct (IH rm) as [H|H]; [by left | right; by right].
Qed.

Lemma separated_cons item (counter : Counter) :
  separated (item :: counter) → separated counter.
Proof. intros H f g Hf Hg. apply H; by right. Qed.

(** After cleanup no map has the numbered form of a family counted once. *)
Lemma cleanup_entries_settled (counter : Counter) rm g :
  separated counter → (g, 1) ∈ counter →
  swap_name (cleanup_entries counter rm) ≠ g +:+ " 1".
Proof.
  revert rm. induction counter as [|[f n] counter IH]; intros rm Hsep Hg.
  - by apply elem_of_nil in Hg.
  - rewrite cleanup_entries_cons.
    set (rm1 := if Nat.eqb n 1 then cleanup_entry f rm else rm).
    apply elem_of_cons in Hg as [Hg|Hg].
    + destruct (cleanup_entries_swap counter rm1) as [->|H].
      * simplify_eq. subst rm1. simpl.
        destruct (String.eqb_spec (swap_name rm) (f +:+ " 1")) as [Hhit|Hmiss].
        -- rewrite cleanup_entry_hit by done. apply app_blank_ne.
        -- by rewrite cleanup_entry_miss.
      * apply Hsep; [by right | rewrite Hg; left].
    + apply IH; [by eapply separated_cons | done].
Qed.

Lemma cleanup_entries_idemp (counter : Counter) rm :
  separated counter →
  cleanup_entries counter (cleanup_entries counter rm) =
  cleanup_entries counter rm.
Proof.
  intros Hsep. apply cleanup_entries_miss.
  intros g Hg. by apply cleanup_entries_settled.
Qed.

Lemma cleanup_idemp (counter : Counter) (d : rename_dict) :
  separated counter →
  _cleanup counter (_cleanup counter d) = _cleanup counter d.
Proof.
  intros Hsep. rewrite !cleanup_fmap, <-map_fmap_compose.
  apply map_fmap_ext. intros i rm _. by apply cleanup_entries_idemp.
Qed.

(** No family of the table is another family followed by [" 1"]. *)
Lemma families_separated f g :
  f ∈ families → g ∈ families → f ≠ g +:+ " 1".
Proof.
  revert f g.
  assert (Forall (λ f, Forall (λ g, f ≠ g +:+ " 1") families) families) as H.
  { apply (bool_decide_unpack _). vm_compute. exact I. }
  intros f g Hf Hg. rewrite Forall_forall in H. specialize (H f Hf).
  rewrite Forall_forall in H. by apply H.
Qed.

(** ** Counters keep one pair per family *)

Section ordered_dict_nodup.
Context {V : Type}.
Implicit Types (d : list (string * V)) (k : string) (v : V).

Lemma od_set_NoDup k v d : NoDup d.*1 → NoDup (od_set k v d).*1.
Proof.
  induction d as [|[k0 v0] d IH]; simpl.
  - intros _. apply NoDup_singleton.
  - rewrite NoDup_cons. intros [Hk0 Hd].
    destruct (String.eqb_spec k0 k) as [->|Hne]; simpl.
    + by apply NoDup_cons.
    + apply NoDup_cons. split; [|auto].
      rewrite od_set_keys. intros [?|?]; done.
Qed.

Lemma od_get_elem k v d : NoDup d.*1 → (k, v) ∈ d → od_get k d = Some v.
Proof.
  induction d as [|[k0 v0] d IH]; simpl.
  - intros _ H. by apply elem_of_nil in H.
  - rewrite NoDup_cons. intros [Hk0 Hd] [H|H]%elem_of_cons.
    + simplify_eq. by rewrite String.eqb_refl.
    + destruct (String.eqb_spec k0 k) as [->|Hne]; [|auto].
      destruct Hk0. apply list_elem_of_fmap. by exists (k, v).
Qed.
End ordered_dict_nodup.

Lemma record_entities_NoDup es st :
  NoDup st.2.*1 → NoDup (record_entities es st).2.*1.
Proof.
  revert st. induction es as [|e es IH]; intros st Hst; [done|].
  simpl. apply IH. pose proof (record_entity_cases st e) as Hc.
  destruct (family e.2) as [f|].
  - destruct Hc as (name & _ & _ & ->). simpl. by apply od_set_NoDup.
  - by rewrite Hc.
Qed.

Lemma counter_once (counter : Counter) f :
  NoDup counter.*1 → (f, 1) ∈ counter ↔ counter_get counter f = 1.
Proof.
  intros Hnd. unfold counter_get. split.
  - intros H. by rewrite (od_get_elem _ _ _ Hnd H).
  - destruct (od_get f counter) as [n|] eqn:E; simpl; [|done].
    intros ->. by apply od_get_Some_elem.
Qed.

(** ** Occurrences in document order *)

Lemma occurrences_nil fam : occurrences fam [] = 0.
Proof. reflexivity. Qed.

Lemma occurrences_take_le fam es m :
  occurrences fam (take m es) ≤ occurrences fam es.
Proof.
  rewrite <-(take_drop m es) at 2. rewrite occurrences_app. lia.
Qed.

Lemma occurrences_take_S fam es n e :
  es !! n = Some e →
  occurrences fam (take (S n) es) =
  occurrences fam (take n es) +
  (if bool_decide (family e.2 = Some fam) then 1 else 0).
Proof.
  intros H. rewrite (take_S_r _ _ _ H), occurrences_app.
  change [e] with (e :: []). rewrite occurrences_cons, occurrences_nil. lia.
Qed.

Lemma occurrences_take_mono fam es m m' :
  m ≤ m' → occurrences fam (take m es) ≤ occurrences fam (take m' es).
Proof.
  intros H. replace (take m es) with (take m (take m' es)).
  - apply occurrences_take_le.
  - rewrite take_take. f_equal. lia.
Qed.

(** Later entities of a family have larger numbers. *)
Lemma occurrences_lt fam es n n' e' :
  n < n' → es !! n' = Some e' → family e'.2 = Some fam →
  occurrences fam (take (S n) es) < occurrences fam (take (S n') es).
Proof.
  intros Hlt He' Hfam. rewrite (occurrences_take_S fam es n' e' He').
  rewrite bool_decide_true by done.
  pose proof (occurrences_take_mono fam es (S n) n'). lia.
Qed.

Lemma occurrences_pos fam es n e :
  es !! n = Some e → family e.2 = Some fam →
  1 ≤ occurrences fam (take (S n) es) ≤ occurrences fam es.
Proof.
  intros He Hfam. split; [|apply occurrences_take_le].
  rewrite (occurrences_take_S fam es n e He), bool_decide_true by done. lia.
Qed.

(** Every number from 1 to the count of a family is the number of one of
    its entities. *)
Lemma occurrences_surj fam es k :
  1 ≤ k ≤ occurrences fam es →
  ∃ n e, es !! n = Some e ∧ family e.2 = Some fam ∧
         occurrences fam (take (S n) es) = k.
Proof.
  induction es as [|e es IH] using rev_ind.
  - rewrite occurrences_nil. lia.
  - rewrite occurrences_app. change [e] with (e :: []).
    rewrite occurrences_cons, occurrences_nil. intros Hk.
    destruct (decide (k ≤ occurrences fam es)) as [Hle|Hgt].
    + destruct IH as (n & e' & Hn & Hfam & Hocc); [lia|].
      exists n, e'. split_and!; [|done|].
      * by apply lookup_app_l_Some.
      * apply lookup_lt_Some in Hn. rewrite take_app_le by lia. done.
    + case_bool_decide; [|lia]. exists (length es), e. split_and!; [|done|].
      * by rewrite list_lookup_middle.
      * rewrite take_app_ge by lia.
        replace (S (length es) - length es) with 1 by lia.
        rewrite take_ge by done. simpl.
        change (take 1 [e]) with [e].
        rewrite occurrences_app. change [e] with (e :: []).
        rewrite occurrences_cons, occurrences_nil, bool_decide_true by done. lia.
Qed.

(** ** The plan of a list of entities with distinct ids *)

Lemma str_1 : str 1 = "1".
Proof. reflexivity. Qed.

Section plan.
Variable es : list (option string * option string).
Local Abbreviation plan := (record_entities es (∅, [])).1.
Local Abbreviation counts := (record_entities es (∅, [])).2.

Lemma counts_occurrences fam : counter_get counts fam = occurrences fam es.
Proof. by rewrite record_entities_counter. Qed.

Lemma counts_NoDup : NoDup counts.*1.
Proof. apply record_entities_NoDup. simpl. apply NoDup_nil_2. Qed.

Lemma counts_families fam : fam ∈ counts.*1 → fam ∈ families.
Proof.
  intros [H|H]%record_entities_keys; [|done]. by apply elem_of_nil in H.
Qed.

Lemma counts_separated : separated counts.
Proof.
  intros f g Hf Hg. apply families_separated; apply counts_families;
    apply list_elem_of_fmap; [by exists (f, 1) | by exists (g, 1)].
Qed.

(** Every entry of the plan is the numbered name of an entity. *)
Lemma plan_lookup_inv i rm :
  plan !! i = Some rm →
  ∃ n name fam,
    es !! n = Some (i, Some name) ∧ resolve name = Some fam ∧
    rm = {| original_name := name;
            swap_name := fam +:+ " " +:+ str (occurrences fam (take (S n) es)) |}.
Proof.
  rewrite record_entities_lookup.
  intros [(n & name & fam & Hn & Hres & _ & ->)|[H _]]; [|done].
  by exists n, name, fam.
Qed.

(** What cleanup makes of a numbered name of the plan. *)
Lemma cleanup_numbered name fam n :
  1 ≤ n ≤ counter_get counts fam → fam ∈ families →
  cleanup_entries counts
    {| original_name := name; swap_name := fam +:+ " " +:+ str n |} =
  {| original_name := name;
     swap_name := if decide (counter_get counts fam = 1) then fam
                  else fam +:+ " " +:+ str n |}.
Proof.
  intros Hn Hfam. case_decide as Hone.
  - assert (n = 1) as -> by lia. rewrite str_1.
    apply counter_once in Hone; [|apply counts_NoDup].
    rewrite (cleanup_entries_hit counts fam); [done..|].
    intros g Hg. by apply counts_separated.
  - apply cleanup_entries_miss. simpl. intros g Hg Heq.
    rewrite <-str_1 in Heq. apply numbered_str_inj in Heq as [-> ->].
    apply counter_once in Hg; [done|apply counts_NoDup].
Qed.

Lemma cleaned_lookup_inv i rm :
  _cleanup counts plan !! i = Some rm →
  ∃ n name fam,
    es !! n = Some (i, Some name) ∧ resolve name = Some fam ∧
    rm = {| original_name := name;
            swap_name :=
              if decide (counter_get counts fam = 1) then fam
              else fam +:+ " " +:+ str (occurrences fam (take (S n) es)) |}.
Proof.
  rewrite cleanup_fmap, lookup_fmap.
  destruct (plan !! i) as [rm0|] eqn:E; [|done]. simpl. intros [= <-].
  apply plan_lookup_inv in E as (n & name & fam & Hn & Hres & ->).
  exists n, name, fam. split_and!; [done..|].
  apply cleanup_numbered.
  - rewrite counts_occurrences. eapply occurrences_pos; [done|].
    unfold family. simpl. done.
  - by eapply resolve_family.
Qed.

Hypothesis ids_distinct : NoDup es.*1.

Lemma ids_distinct_lookup n m e e' :
  es !! n = Some e → es !! m = Some e' → e.1 = e'.1 → n = m.
Proof.
  intros Hn Hm Heq. eapply NoDup_lookup; [exact ids_distinct|..].
  - by rewrite list_lookup_fmap, Hn.
  - by rewrite list_lookup_fmap, Hm, Heq.
Qed.

(** The entry of an entity that resolves. *)
Lemma plan_lookup n i name fam :
  es !! n = Some (i, Some name) → resolve name = Some fam →
  plan !! i =
  Some {| original_name := name;
          swap_name := fam +:+ " " +:+ str (occurrences fam (take (S n) es)) |}.
Proof.
  intros Hn Hres. rewrite record_entities_lookup.
  left. exists n, name, fam. split_and!; [done..| |done].
  intros m e Hm He Hi.
  assert (n = m) by (eapply ids_distinct_lookup; [done..|by symmetry]). lia.
Qed.

Lemma cleaned_lookup n i name fam :
  es !! n = Some (i, Some name) → resolve name = Some fam →
  _cleanup counts plan !! i =
  Some {| original_name := name;
          swap_name :=
            if decide (counter_get counts fam = 1) then fam
            else fam +:+ " " +:+ str (occurrences fam (take (S n) es)) |}.
Proof.
  intros Hn Hres. rewrite cleanup_fmap, lookup_fmap.
  rewrite (plan_lookup n i name fam Hn Hres). simpl. f_equal.
  apply cleanup_numbered.
  - rewrite counts_occurrences. eapply occurrences_pos; [done|].
    unfold family. simpl. done.
  - by eapply resolve_family.
Qed.

(** Two entities of one family with the same number are the same. *)
Lemma occurrences_inj fam n m e e' :
  es !! n = Some e → es !! m = Some e' →
  family e.2 = Some fam → family e'.2 = Some fam →
  occurrences fam (take (S n) es) = occurrences fam (take (S m) es) → n = m.
Proof.
  intros Hn Hm Hf Hf' Heq.
  destruct (Nat.lt_trichotomy n m) as [Hlt|[?|Hlt]]; [|done|].
  - pose proof (occurrences_lt fam es n m e' Hlt Hm Hf'). lia.
  - pose proof (occurrences_lt fam es m n e Hlt Hn Hf). lia.
Qed.
End plan.

(** ** Loops over the children of an element *)

Lemma set_children_id e : set_children (children e) e = e.
Proof. by destruct e. Qed.

Lemma children_set_children cs e : children (set_children cs e) = cs.
Proof. done. Qed.

Lemma for_each_child_cons t body c cs :
  for_each_child t body (c :: cs) =
  if has_tag t c then
    match body c with
    | (Ok _, c') => ((for_each_child t body cs).1, c' :: (for_each_child t body cs).2)
    | (Raise e, c') => (Raise e, c' :: cs)
    end
  else ((for_each_child t body cs).1, c :: (for_each_child t body cs).2).
Proof.
  simpl. destruct (has_tag t c); [destruct (body c) as [[[]|e] c']|];
    by destruct (for_each_child t body cs).
Qed.



(** The loop returns normally when the body does on every tagged child. *)
Lemma for_each_child_Ok t body cs :
  Forall (λ c, (body c).1 = Ok tt) (List.filter (has_tag t) cs) →
  for_each_child t body cs = (Ok tt, map_tagged t (λ c, (body c).2) cs).
Proof.
  induction cs as [|c cs IH]; [done|]. rewrite for_each_child_cons. simpl.
  destruct (has_tag t c) eqn:E.
  - rewrite Forall_cons. intros [Hc Hcs]. rewrite (IH Hcs).
    destruct (body c) as [[[]|e] c']; simpl in *; [done|discriminate].
  - intros Hcs. by rewrite (IH Hcs).
Qed.


(** An exception of the loop is an exception of the body on a tagged child. *)
Lemma for_each_child_Raise_inv t body cs e :
  (for_each_child t body cs).1 = Raise e →
  ∃ c, c ∈ cs ∧ has_tag t c = true ∧ (body c).1 = Raise e.
Proof.
  induction cs as [|c cs IH]; [done|]. rewrite for_each_child_cons.
  destruct (has_tag t c) eqn:E.
  - destruct (body c) as [[[]|e'] c'] eqn:Eb; simpl.
    + intros (c0 & ? & ? & ?)%IH. exists c0. split; [by right|done].
    + intros [= ->]. exists c. rewrite Eb. split; [left|done].
  - simpl. intros (c0 & ? & ? & ?)%IH. exists c0. split; [by right|done].
Qed.

(** A tagged child on which the body raises makes the loop raise. *)
Lemma for_each_child_raises t body cs c :
  c ∈ cs → has_tag t c = true → is_raise (body c).1 = true →
  is_raise (for_each_child t body cs).1 = true.
Proof.
  intros Hc Ht Hb. induction cs as [|c0 cs IH]; [by apply elem_of_nil in Hc|].
  rewrite for_each_child_cons. apply elem_of_cons in Hc as [<-|Hc].
  - rewrite Ht. by destruct (body c) as [[[]|e'] c'].
  - destruct (has_tag t c0); [destruct (body c0) as [[[]|e'] c']|]; simpl; auto.
Qed.

Lemma map_tagged_id t f cs :
  (∀ c, c ∈ cs → has_tag t c = true → f c = c) → map_tagged t f cs = cs.
Proof.
  intros H. unfold map_tagged. rewrite <-(list_fmap_id cs) at 2.
  apply list_fmap_ext. intros n c Hn. simpl.
  destruct (has_tag t c) eqn:E; [|done]. apply H; [|done].
  by eapply list_elem_of_lookup_2.
Qed.

(** A loop without tagged children does nothing. *)
Lemma for_each_child_none t body cs :
  List.filter (has_tag t) cs = [] → for_each_child t body cs = (Ok tt, cs).
Proof.
  intros H. rewrite for_each_child_Ok by (rewrite H; constructor).
  f_equal. apply map_tagged_id. intros c Hc Ht.
  assert (c ∈ List.filter (has_tag t) cs) as Hin.
  { apply list_elem_of_In, filter_In. split; [by apply list_elem_of_In|done]. }
  rewrite H in Hin. by apply elem_of_nil in Hin.
Qed.

Lemma on_children_fst f e : (on_children f e).1 = (f (children e)).1.
Proof. unfold on_children. by destruct (f (children e)). Qed.

Lemma on_children_snd f e :
  (on_children f e).2 = set_children (f (children e)).2 e.
Proof. unfold on_children. by destruct (f (children e)). Qed.

Lemma map_children_set_children f cs e :
  map_children f (set_children cs e) = set_children (f cs) e.
Proof. done. Qed.

Lemma map_children_eq f e : map_children f e = set_children (f (children e)) e.
Proof. done. Qed.

(** ** Renaming one element *)

Lemma set_text_compatible s c :
  xml_compatible s = true → set_text s c = (Ok tt, with_text s c).
Proof. unfold set_text. by intros ->. Qed.


Lemma rename_tag_match rm c :
  text c = Some (original_name rm) → xml_compatible (swap_name rm) = true →
  rename_tag rm c = (Ok tt, with_text (swap_name rm) c).
Proof.
  intros H Hswap. unfold rename_tag.
  by rewrite decide_True, set_text_compatible.
Qed.



(** The body returns exactly when the label carries the original name and
    the proposed name can be written. *)
Lemma rename_tag_Ok rm c :
  (rename_tag rm c).1 = Ok tt ↔
  text c = Some (original_name rm) ∧ xml_compatible (swap_name rm) = true.
Proof.
  unfold rename_tag, set_text. case_decide as Ht.
  - destruct (xml_compatible (swap_name rm)); simpl; split; try done.
    by intros [_ ?].
  - split; [done|]. by intros [? _].
Qed.

Lemma rename_tag_blank rm c : blank (rename_tag rm c).2 = blank c.
Proof.
  unfold rename_tag, set_text. case_decide; [|done].
  by destruct (xml_compatible _).
Qed.

Lemma rename_tag_tag rm c : tag (rename_tag rm c).2 = tag c.
Proof.
  unfold rename_tag, set_text. case_decide; [|done].
  by destruct (xml_compatible _).
Qed.

(** What the body raises: the failed assertion on a label that differs, the
    refusal of lxml on a proposed name that is not XML compatible. *)
Lemma rename_tag_raise rm c e :
  (rename_tag rm c).1 = Raise e → refused rm c e.
Proof.
  unfold refused, rename_tag, set_text. case_decide as Ht.
  - destruct (xml_compatible _) eqn:E; simpl; [done|].
    intros [= <-]. by right.
  - simpl. intros [= <-]. by left.
Qed.

Lemma rename_element_absent (elem : element) (d : rename_dict) tag_name :
  d !! get "id" elem = None → _rename_element elem d tag_name = (Ok tt, elem).
Proof. unfold _rename_element. by intros ->. Qed.

Lemma rename_labels_Ok rm tag_name cs :
  xml_compatible (swap_name rm) = true →
  Forall (λ c, text c = Some (original_name rm)) (List.filter (has_tag tag_name) cs) →
  for_each_child tag_name (rename_tag rm) cs =
  (Ok tt, map_tagged tag_name (with_text (swap_name rm)) cs).
Proof.
  intros Hswap H. rewrite for_each_child_Ok.
  - f_equal. unfold map_tagged. apply list_fmap_ext. intros n c Hn. simpl.
    destruct (has_tag tag_name c) eqn:E; [|done].
    rewrite rename_tag_match; [done| |done].
    rewrite Forall_forall in H. apply H.
    apply list_elem_of_In, filter_In. split; [|done].
    apply list_elem_of_In. by eapply list_elem_of_lookup_2.
  - eapply Forall_impl; [exact H|]. intros c Hc. simpl in Hc.
    by rewrite rename_tag_match.
Qed.




(** ** The frame of the loops *)

Lemma for_each_child_frame t body g cs :
  (∀ c, has_tag t c = true →
        has_tag t (body c).2 = true ∧ g (body c).2 = g c) →
  map_tagged t g (for_each_child t body cs).2 = map_tagged t g cs.
Proof.
  intros Hbody. induction cs as [|c cs IH]; [done|].
  rewrite for_each_child_cons. unfold map_tagged in *.
  destruct (has_tag t c) eqn:E.
  - destruct (Hbody c E) as [Ht Hg].
    destruct (body c) as [[[]|e] c']; simpl in *; rewrite Ht, E, Hg; by f_equal.
  - simpl. rewrite E. by f_equal.
Qed.

Lemma with_first_child_frame t body g cs :
  (∀ c, has_tag t c = true →
        has_tag t (body c).2 = true ∧ g (body c).2 = g c) →
  map_first t g (with_first_child t body cs).2 = map_first t g cs.
Proof.
  intros Hbody. induction cs as [|c cs IH]; [done|]. simpl.
  destruct (has_tag t c) eqn:E.
  - destruct (Hbody c E) as [Ht Hg].
    destruct (body c) as [r c']; simpl in *. by rewrite Ht, Hg.
  - destruct (with_first_child t body cs) as [r cs']; simpl in *.
    rewrite E. by f_equal.
Qed.

Lemma has_tag_true t c : has_tag t c = true ↔ tag c = t.
Proof. unfold has_tag. apply String.eqb_eq. Qed.

Lemma has_tag_ext t c c' : tag c = tag c' → has_tag t c = has_tag t c'.
Proof. unfold has_tag. by intros ->. Qed.

Lemma tag_differs t t' c : has_tag t c = true → t ≠ t' → has_tag t' c = false.
Proof.
  intros <-%has_tag_true Hne. unfold has_tag.
  by destruct (String.eqb_spec (tag c) t').
Qed.

(** The children of another tag are not touched by a loop. *)
Lemma for_each_child_filter_other t t' body cs :
  t ≠ t' → (∀ c, tag (body c).2 = tag c) →
  List.filter (has_tag t') (for_each_child t body cs).2 =
  List.filter (has_tag t') cs.
Proof.
  intros Hne Htag. induction cs as [|c cs IH]; [done|].
  rewrite for_each_child_cons. destruct (has_tag t c) eqn:E.
  - pose proof (tag_differs t t' c E Hne) as Hc.
    pose proof (has_tag_ext t' (body c).2 c (Htag c)) as Hb.
    destruct (body c) as [[[]|e] c']; simpl in *; rewrite Hb, Hc; [done|].
    done.
  - simpl. rewrite IH. done.
Qed.

Lemma filter_map_tagged_other t t' f cs :
  t ≠ t' → (∀ c, tag (f c) = tag c) →
  List.filter (has_tag t') (map_tagged t f cs) = List.filter (has_tag t') cs.
Proof.
  intros Hne Htag. induction cs as [|c cs IH]; [done|].
  unfold map_tagged in *. rewrite fmap_cons. simpl.
  destruct (has_tag t c) eqn:E.
  - rewrite (has_tag_ext t' (f c) c (Htag c)).
    rewrite (tag_differs t t' c E Hne). done.
  - rewrite IH. done.
Qed.

Lemma filter_map_tagged t f cs :
  (∀ c, tag (f c) = tag c) →
  List.filter (has_tag t) (map_tagged t f cs) = f <$> List.filter (has_tag t) cs.
Proof.
  intros Htag. induction cs as [|c cs IH]; [done|].
  unfold map_tagged in *. rewrite fmap_cons. simpl.
  destruct (has_tag t c) eqn:E.
  - rewrite (has_tag_ext t (f c) c (Htag c)), E, fmap_cons. by rewrite IH.
  - by rewrite E.
Qed.

Lemma map_tagged_ext t f g cs :
  (∀ c, c ∈ cs → has_tag t c = true → f c = g c) →
  map_tagged t f cs = map_tagged t g cs.
Proof.
  intros H. unfold map_tagged. apply list_fmap_ext.
  intros n c Hc%list_elem_of_lookup_2. destruct (has_tag t c) eqn:E; auto.
Qed.

(** Rewriting the children of two different tags can be done in any order. *)
Lemma map_tagged_comm t1 t2 f g cs :
  t1 ≠ t2 → (∀ c, tag (f c) = tag c) → (∀ c, tag (g c) = tag c) →
  map_tagged t1 f (map_tagged t2 g cs) = map_tagged t2 g (map_tagged t1 f cs).
Proof.
  intros Hne Hf Hg. unfold map_tagged. rewrite <-!list_fmap_compose.
  apply list_fmap_ext. intros n c _. unfold compose.
  destruct (has_tag t2 c) eqn:E2, (has_tag t1 c) eqn:E1.
  - apply has_tag_true in E1, E2. congruence.
  - by rewrite (has_tag_ext t1 (g c) c (Hg c)), E1, E2.
  - by rewrite (has_tag_ext t2 (f c) c (Hf c)), E2.
  - by rewrite E2.
Qed.

Lemma rename_element_tag (elem : element) (d : rename_dict) tag_name :
  tag (_rename_element elem d tag_name).2 = tag elem.
Proof.
  unfold _rename_element. destruct (d !! get "id" elem); [|done].
  by rewrite on_children_snd.
Qed.

(** Renaming an element rewrites the text of its labels and nothing else. *)
Lemma rename_element_frame (elem : element) (d : rename_dict) tag_name :
  ∃ cs, (_rename_element elem d tag_name).2 = set_children cs elem ∧
        map_tagged tag_name blank cs = map_tagged tag_name blank (children elem).
Proof.
  unfold _rename_element. destruct (d !! get "id" elem) as [rm|].
  - rewrite on_children_snd. eexists. split; [done|].
    apply for_each_child_frame. intros c Hc. split.
    + unfold has_tag in *. by rewrite rename_tag_tag.
    + apply rename_tag_blank.
  - exists (children elem). by rewrite set_children_id.
Qed.

Lemma rename_score_instrument_frame (instruments : rename_dict) si :
  blank_score_instrument (_rename_element si instruments "instrument-name").2 =
  blank_score_instrument si.
Proof.
  destruct (rename_element_frame si instruments "instrument-name")
    as (cs & -> & Hcs).
  unfold blank_score_instrument.
  by rewrite map_children_set_children, Hcs.
Qed.

Lemma rename_score_part_frame (parts instruments : rename_dict) sp :
  blank_score_part (rename_score_part parts instruments sp).2 =
  blank_score_part sp.
Proof.
  unfold rename_score_part.
  destruct (rename_element_frame sp parts "part-name") as (cs1 & Hsp1 & Hcs1).
  destruct (_rename_element sp parts "part-name") as [[[]|e] sp1];
    simpl in Hsp1; subst sp1.
  - rewrite on_children_snd. simpl.
    unfold blank_score_part, map_children, set_children. simpl. f_equal.
    rewrite (map_tagged_comm "score-instrument" "part-name") by done.
    rewrite for_each_child_frame.
    + rewrite <-(map_tagged_comm "score-instrument" "part-name") by done.
      by rewrite Hcs1.
    + intros c Hc. split.
      * unfold has_tag in *. by rewrite rename_element_tag.
      * apply rename_score_instrument_frame.
  - unfold blank_score_part, map_children, set_children. simpl.
    by rewrite Hcs1.
Qed.

Lemma rename_score_part_tag (parts instruments : rename_dict) sp :
  tag (rename_score_part parts instruments sp).2 = tag sp.
Proof.
  unfold rename_score_part.
  pose proof (rename_element_tag sp parts "part-name") as H.
  destruct (_rename_element sp parts "part-name") as [[[]|e] sp1]; [|done].
  by rewrite on_children_snd.
Qed.

(** Renaming changes the texts of labels only. *)
Lemma rename_instruments_frame (root : element) (parts instruments : rename_dict) :
  blank_labels (rename_instruments root parts instruments).2 = blank_labels root.
Proof.
  unfold rename_instruments, blank_labels.
  rewrite on_children_snd, map_children_set_children, map_children_eq. f_equal.
  apply with_first_child_frame. intros pl Hpl. rewrite on_children_snd. split.
  - done.
  - rewrite map_children_set_children, map_children_eq. f_equal.
    apply for_each_child_frame. intros sp Hsp. split.
    + unfold has_tag in *. by rewrite rename_score_part_tag.
    + apply rename_score_part_frame.
Qed.

(** ** The first child with a tag *)

Lemma with_first_child_none t body cs :
  head (List.filter (has_tag t) cs) = None →
  with_first_child t body cs = (Raise AttributeError, cs).
Proof.
  induction cs as [|c cs IH]; [done|]. simpl.
  destruct (has_tag t c); [done|]. intros H. by rewrite (IH H).
Qed.

Lemma with_first_child_fst t body cs c :
  head (List.filter (has_tag t) cs) = Some c →
  (with_first_child t body cs).1 = (body c).1.
Proof.
  induction cs as [|c0 cs IH]; [done|]. simpl.
  destruct (has_tag t c0).
  - intros [= ->]. by destruct (body c).
  - intros H. rewrite <-(IH H). by destruct (with_first_child t body cs).
Qed.

Lemma with_first_child_snd t body cs c :
  head (List.filter (has_tag t) cs) = Some c →
  has_tag t (body c).2 = true →
  head (List.filter (has_tag t) (with_first_child t body cs).2) = Some (body c).2.
Proof.
  intros Hc Ht. induction cs as [|c0 cs IH]; [done|]. simpl in *.
  destruct (has_tag t c0) eqn:E.
  - simpl in Hc. simplify_eq. destruct (body c) as [r c']. simpl in *.
    by rewrite Ht.
  - specialize (IH Hc). destruct (with_first_child t body cs) as [r cs'].
    simpl in *. by rewrite E.
Qed.

(** A first child on which the body does nothing leaves the list as it is. *)
Lemma with_first_child_id t body cs c :
  head (List.filter (has_tag t) cs) = Some c → (body c).2 = c →
  (with_first_child t body cs).2 = cs.
Proof.
  intros Hc Hb. induction cs as [|c0 cs IH]; [done|]. simpl in *.
  destruct (has_tag t c0) eqn:E.
  - simpl in Hc. simplify_eq. destruct (body c) as [r c']. simpl in *. by subst.
  - specialize (IH Hc). destruct (with_first_child t body cs) as [r cs'].
    simpl in *. by subst.
Qed.

(** ** Renaming a score part *)

(** An exception of the renaming of an element comes from one of its labels. *)
Lemma rename_element_raise (elem : element) (d : rename_dict) tag_name e :
  (_rename_element elem d tag_name).1 = Raise e →
  ∃ rm c, d !! get "id" elem = Some rm ∧ c ∈ findall tag_name elem ∧
          refused rm c e.
Proof.
  unfold _rename_element. destruct (d !! get "id" elem) as [rm|]; [|done].
  rewrite on_children_fst. intros (c & Hc & Ht & H)%for_each_child_Raise_inv.
  exists rm, c. split_and!; [done| |by apply rename_tag_raise].
  apply list_elem_of_In, filter_In. split; [by apply list_elem_of_In|done].
Qed.

(** With a proposed name that can be written the exception is the failed
    assertion; with labels that carry the original name it is the refusal
    of the write. *)
Lemma rename_element_raise_writes (elem : element) (d : rename_dict) tag_name e :
  writes d tag_name elem →
  (_rename_element elem d tag_name).1 = Raise e →
  e = AssertionError "Original name mismatch".
Proof.
  intros Hw (rm & c & Hd & Hc & [[-> _]|(_ & _ & Hswap)])%rename_element_raise;
    [done|].
  rewrite (Hw rm Hd) in Hswap; [done|]. intros Hnil. rewrite Hnil in Hc.
  by apply elem_of_nil in Hc.
Qed.

Lemma rename_element_raise_agrees (elem : element) (d : rename_dict) tag_name e :
  agrees d tag_name elem →
  (_rename_element elem d tag_name).1 = Raise e → e = ValueError.
Proof.
  intros Ha (rm & c & Hd & Hc & [[_ Hne]|[-> _]])%rename_element_raise; [|done].
  specialize (Ha rm Hd). rewrite Forall_forall in Ha. by destruct (Hne (Ha c Hc)).
Qed.

(** Renaming the part names keeps the score instruments. *)
Lemma rename_element_findall_other (elem : element) (d : rename_dict) t t' :
  t ≠ t' →
  findall t' (_rename_element elem d t).2 = findall t' elem.
Proof.
  intros Hne. unfold _rename_element, findall.
  destruct (d !! get "id" elem) as [rm|]; [|done].
  rewrite on_children_snd, children_set_children.
  apply for_each_child_filter_other; [done|]. intros c. apply rename_tag_tag.
Qed.

(** An exception of the renaming of a score part comes from one of its part
    names or from an instrument name of one of its score instruments. *)
Lemma rename_score_part_raise (parts instruments : rename_dict) sp e :
  (rename_score_part parts instruments sp).1 = Raise e →
  (_rename_element sp parts "part-name").1 = Raise e ∨
  ∃ si, si ∈ findall "score-instrument" sp ∧
        (_rename_element si instruments "instrument-name").1 = Raise e.
Proof.
  unfold rename_score_part.
  pose proof (rename_element_findall_other sp parts "part-name"
                "score-instrument" ltac:(done)) as Hsi.
  destruct (_rename_element sp parts "part-name") as [[[]|e1] sp1]; simpl in *.
  - rewrite on_children_fst.
    intros (si & Hin & Ht & H)%for_each_child_Raise_inv. right.
    exists si. split; [|done]. rewrite <-Hsi.
    apply list_elem_of_In, filter_In. split; [by apply list_elem_of_In|done].
  - intros [= <-]. by left.
Qed.





(** ** Renaming the document *)

Section rename_document.
Variables (root : element) (parts instruments : rename_dict).

Local Abbreviation renamed_score_parts part_list :=
  (for_each_child "score-part" (rename_score_part parts instruments)
     (children part_list)).

Lemma rename_instruments_no_part_list :
  find "part-list" root = None →
  rename_instruments root parts instruments = (Raise AttributeError, root).
Proof.
  intros H. unfold rename_instruments, on_children at 1.
  rewrite with_first_child_none by done. by rewrite set_children_id.
Qed.

Lemma rename_instruments_fst part_list :
  find "part-list" root = Some part_list →
  (rename_instruments root parts instruments).1 =
  (renamed_score_parts part_list).1.
Proof.
  intros H. unfold rename_instruments.
  rewrite on_children_fst, (with_first_child_fst _ _ _ part_list H).
  by rewrite on_children_fst.
Qed.

Lemma rename_instruments_find part_list :
  find "part-list" root = Some part_list →
  find "part-list" (rename_instruments root parts instruments).2 =
  Some (set_children (renamed_score_parts part_list).2 part_list).
Proof.
  intros H. unfold rename_instruments. rewrite on_children_snd.
  unfold find, findall. rewrite children_set_children.
  rewrite (with_first_child_snd _ _ _ part_list H).
  - by rewrite on_children_snd.
  - rewrite on_children_snd.
    apply head_Some_elem_of, list_elem_of_In, filter_In in H as [_ H]. done.
Qed.


(** An exception of renaming is the attribute error of a missing part list
    or an exception of the renaming of an entity. *)
Lemma rename_instruments_raise e :
  (rename_instruments root parts instruments).1 = Raise e →
  (find "part-list" root = None ∧ e = AttributeError) ∨
  ∃ sp, sp ∈ score_parts root ∧
    ((_rename_element sp parts "part-name").1 = Raise e ∨
     ∃ si, si ∈ findall "score-instrument" sp ∧
           (_rename_element si instruments "instrument-name").1 = Raise e).
Proof.
  destruct (find "part-list" root) as [part_list|] eqn:Hpl.
  - rewrite (rename_instruments_fst part_list Hpl).
    intros (sp & Hsp & Ht & H)%for_each_child_Raise_inv. right.
    exists sp. split; [|by apply rename_score_part_raise].
    unfold score_parts. rewrite Hpl.
    apply list_elem_of_In, filter_In. split; [by apply list_elem_of_In|done].
  - rewrite rename_instruments_no_part_list by done. simpl.
    intros [= <-]. by left.
Qed.

(** With a part list, renaming raises nothing but the failed assertion when
    every proposed name it writes is XML compatible, and nothing but the
    refusal of a write when the dictionaries are consistent with the
    document. *)
Lemma rename_instruments_raise_writable e :
  is_Some (find "part-list" root) → writable parts instruments root →
  (rename_instruments root parts instruments).1 = Raise e →
  e = AssertionError "Original name mismatch".
Proof.
  intros [pl Hpl] Hw [[Hnone _]|(sp & Hsp & H)]%rename_instruments_raise;
    [congruence|].
  destruct (Hw sp Hsp) as [HP HI]. destruct H as [H|(si & Hsi & H)].
  - by eapply rename_element_raise_writes.
  - eapply rename_element_raise_writes; [|done]. by apply HI.
Qed.

Lemma rename_instruments_raise_consistent e :
  is_Some (find "part-list" root) → consistent parts instruments root →
  (rename_instruments root parts instruments).1 = Raise e → e = ValueError.
Proof.
  intros [pl Hpl] Hc [[Hnone _]|(sp & Hsp & H)]%rename_instruments_raise;
    [congruence|].
  destruct (Hc sp Hsp) as [HP HI]. destruct H as [H|(si & Hsi & H)].
  - by eapply rename_element_raise_agrees.
  - eapply rename_element_raise_agrees; [|done]. by apply HI.
Qed.

Lemma compatible_writable :
  compatible parts → compatible instruments → writable parts instruments root.
Proof.
  intros HP HI sp Hsp. split.
  - intros rm Hrm _. by eapply HP.
  - intros si Hsi rm Hrm _. by eapply HI.
Qed.

(** With no score part under the part list, renaming changes nothing. *)
Lemma rename_instruments_no_score_part part_list :
  find "part-list" root = Some part_list →
  findall "score-part" part_list = [] →
  rename_instruments root parts instruments = (Ok tt, root).
Proof.
  intros Hpl Hsp.
  assert (on_children
            (for_each_child "score-part" (rename_score_part parts instruments))
            part_list = (Ok tt, part_list)) as Hbody.
  { unfold on_children. rewrite for_each_child_none by done.
    by rewrite set_children_id. }
  pose proof (rename_instruments_fst part_list Hpl) as Hfst.
  rewrite for_each_child_none in Hfst by done.
  unfold rename_instruments in *. rewrite on_children_fst in Hfst.
  unfold on_children at 1.
  pose proof (with_first_child_id "part-list"
    (on_children
       (for_each_child "score-part" (rename_score_part parts instruments)))
    (children root) part_list Hpl) as Hid.
  rewrite Hbody in Hid. specialize (Hid eq_refl).
  destruct (with_first_child _ _ (children root)) as [r cs].
  simpl in *. subst. by rewrite set_children_id.
Qed.
End rename_document.

(** ** The pipeline *)

Lemma discovered_proj k root s :
  proj k (discovered root s) = record_entities (entities k root) (proj k s).
Proof.
  unfold discovered.
  destruct k; [by rewrite proj_put_ne, proj_put | by rewrite proj_put].
Qed.

(** After a discovery that returns, on a fresh manager, the dictionary and
    the counter of a namespace are those of its entities. *)
Lemma discover_init k root s :
  find_generic_instrument_names root (__init__ root) = (Ok tt, s) →
  dict_of k s = (record_entities (entities k root) (∅, [])).1 ∧
  counter_of k s = (record_entities (entities k root) (∅, [])).2 ∧
  labelled (entities k root).
Proof.
  intros [(Hpl & HP & HI) ->]%discover_Ok.
  pose proof (discovered_proj k root (__init__ root)) as H.
  assert (proj k (__init__ root) = (∅, [])) as Hinit by (by destruct k).
  rewrite Hinit in H. unfold proj in H.
  split_and!; [by rewrite <-H..|by destruct k].
Qed.

Lemma cleanup_names_dict k s :
  dict_of k (cleanup_names s).2 = _cleanup (counter_of k s) (dict_of k s).
Proof. by destruct k, s. Qed.

Lemma cleanup_names_counter k s :
  counter_of k (cleanup_names s).2 = counter_of k s.
Proof. by destruct k, s. Qed.

Lemma process_xml_unfold s :
  process_xml s =
  match call_find_generic_instrument_names s with
  | (Ok _, s1) => call_rename_instruments (cleanup_names s1).2
  | (Raise e, s1) => (Raise e, s1)
  end.
Proof.
  unfold process_xml. rewrite bind_unfold.
  destruct (call_find_generic_instrument_names s) as [[[]|e] s1]; [|done].
  by rewrite bind_unfold.
Qed.

Lemma labelled_lookup es n i label :
  labelled es → es !! n = Some (i, label) → ∃ name, label = Some name.
Proof.
  intros H Hn. unfold labelled in H. rewrite Forall_forall in H.
  apply (H (i, label)). by eapply list_elem_of_lookup_2.
Qed.

(** ** The names discovery proposes can be written *)

Lemma printable_compatible s : printable s = true → xml_compatible s = true.
Proof.
  induction s as [|a s IH]; [done|]. simpl.
  intros [[Hlo Hhi]%andb_true_iff Hs]%andb_true_iff.
  rewrite (IH Hs), andb_true_r. apply N.ltb_lt in Hhi.
  destruct (N.leb_spec 128 (N_of_ascii a)) as [?|_]; [lia|].
  unfold xml_char. by rewrite Hlo, orb_true_r.
Qed.

Lemma printable_app a b :
  printable a = true → printable b = true → printable (a +:+ b) = true.
Proof.
  intros Ha Hb. induction a as [|x a IH]; unfold_app; [done|]. simpl in *.
  apply andb_true_iff in Ha as [-> Ha]. by apply IH.
Qed.

Lemma digit_printable a :
  is_digit a = true →
  (32 <=? N_of_ascii a)%N && (N_of_ascii a <? 128)%N = true.
Proof. destruct a as [[] [] [] [] [] [] [] []]; vm_compute; done. Qed.

Lemma digits_printable s : all_digits s = true → printable s = true.
Proof.
  induction s as [|a s IH]; [done|]. simpl.
  intros [Ha Hs]%andb_true_iff. by rewrite (digit_printable a Ha), IH.
Qed.

Lemma families_printable fam : fam ∈ families → printable fam = true.
Proof.
  assert (Forall (λ fam, printable fam = true) families) as H.
  { apply (bool_decide_unpack _). vm_compute. exact I. }
  rewrite Forall_forall in H. apply H.
Qed.

Lemma numbered_printable fam n :
  fam ∈ families → printable (fam +:+ " " +:+ str n) = true.
Proof.
  intros Hfam. apply printable_app; [by apply families_printable|].
  apply (printable_app " "); [done|]. apply digits_printable, str_digits.
Qed.

(** Every name a plan of discovery proposes, before and after cleanup, is a
    family of the table, followed or not by a blank and a numeral: lxml
    accepts it. *)
Lemma discovered_plan_compatible k root s :
  find_generic_instrument_names root (__init__ root) = (Ok tt, s) →
  compatible (dict_of k s) ∧ compatible (dict_of k (cleanup_names s).2).
Proof.
  intros Hs. destruct (discover_init k root s Hs) as (Hd & Hc & _). split.
  - rewrite Hd. intros i rm (n & name & fam & _ & Hres & ->)%plan_lookup_inv.
    simpl. apply printable_compatible, numbered_printable.
    by eapply resolve_family.
  - rewrite cleanup_names_dict, Hd, Hc.
    intros i rm (n & name & fam & _ & Hres & ->)%cleaned_lookup_inv. simpl.
    apply printable_compatible. apply resolve_family in Hres.
    case_decide; [by apply families_printable | by apply numbered_printable].
Qed.

(** Renaming with the plans of discovery and cleanup, on any document, is
    never refused a write. *)
Lemma discovered_plans_writable tree s tree' :
  find_generic_instrument_names tree (__init__ tree) = (Ok tt, s) →
  writable (part_rename_dict (cleanup_names s).2)
           (instrument_rename_dict (cleanup_names s).2) tree'.
Proof.
  intros Hs. apply compatible_writable.
  - by apply (discovered_plan_compatible Part tree s Hs).
  - by apply (discovered_plan_compatible Instrument tree s Hs).
Qed.

(** ** Renaming to the same names *)

Lemma NoDup_fst_eq {A B} (l : list (A * B)) x y1 y2 :
  NoDup l.*1 → (x, y1) ∈ l → (x, y2) ∈ l → y1 = y2.
Proof.
  intros Hnd [n Hn]%list_elem_of_lookup_1 [m Hm]%list_elem_of_lookup_1.
  assert (n = m) as ->; [|congruence].
  eapply NoDup_lookup; [done|..]; rewrite list_lookup_fmap.
  - by rewrite Hn.
  - by rewrite Hm.
Qed.

(** A loop whose body returns every tagged child as it is does nothing. *)
Lemma for_each_child_fixed t body cs :
  (∀ c, c ∈ cs → has_tag t c = true → body c = (Ok tt, c)) →
  for_each_child t body cs = (Ok tt, cs).
Proof.
  intros H. rewrite for_each_child_Ok.
  - f_equal. apply map_tagged_id. intros c Hc Ht. by rewrite H.
  - apply Forall_forall. intros c [Hc Ht]%list_elem_of_In%filter_In.
    rewrite H; [done| |done]. by apply list_elem_of_In.
Qed.

(** What is read from the tagged children is kept by a loop whose body
    keeps it. *)
Lemma for_each_child_bind {B} t body (g : element → list B) cs :
  (∀ c, c ∈ cs → has_tag t c = true →
        has_tag t (body c).2 = true ∧ g (body c).2 = g c) →
  List.filter (has_tag t) (for_each_child t body cs).2 ≫= g =
  List.filter (has_tag t) cs ≫= g.
Proof.
  induction cs as [|c cs IH]; intros H; [done|].
  rewrite for_each_child_cons.
  assert (∀ c0, c0 ∈ cs → has_tag t c0 = true →
            has_tag t (body c0).2 = true ∧ g (body c0).2 = g c0) as H'.
  { intros c0 Hc0. apply H. by right. }
  destruct (has_tag t c) eqn:E.
  - destruct (H c) as [Ht Hg]; [left|done|].
    specialize (IH H'). unfold mbind in IH.
    destruct (body c) as [[[]|e] c']; simpl in *; rewrite Ht, E; simpl;
      rewrite Hg; [by rewrite IH | done].
  - simpl. rewrite E. by apply IH.
Qed.

Lemma with_text_same s c : text c = Some s → with_text s c = c.
Proof. destruct c. simpl. by intros ->. Qed.

(** Renaming an element whose labels all carry the original name to that
    same name returns the element as it is. *)
Lemma rename_element_fixed (elem : element) (d : rename_dict) tag_name rm :
  d !! get "id" elem = Some rm → swap_name rm = original_name rm →
  xml_compatible (swap_name rm) = true →
  Forall (λ c, text c = Some (original_name rm)) (findall tag_name elem) →
  _rename_element elem d tag_name = (Ok tt, elem).
Proof.
  intros Hd Hswap Hcompat Hall. unfold _rename_element, on_children. rewrite Hd.
  rewrite for_each_child_fixed; [by rewrite set_children_id|].
  intros c Hc Ht. rewrite Forall_forall in Hall.
  assert (text c = Some (original_name rm)) as Htext.
  { apply Hall. apply list_elem_of_In, filter_In.
    split; [by apply list_elem_of_In|done]. }
  rewrite rename_tag_match by done.
  by rewrite Hswap, with_text_same.
Qed.

(** Discovery never writes to the tree. *)
Lemma bind_preserves {A B T} (f : InstrumentManager → T) (m : M A)
    (k : A → M B) :
  (∀ s, f (m s).2 = f s) → (∀ a s, f (k a s).2 = f s) →
  ∀ s, f ((m ≫= k) s).2 = f s.
Proof.
  intros Hm Hk s. rewrite bind_unfold. specialize (Hm s).
  destruct (m s) as [[a|e] s1]; simpl in *; [by rewrite Hk|done].
Qed.

Lemma for_each_preserves {X T} (f : InstrumentManager → T) (xs : list X) body :
  (∀ x s, f (body x s).2 = f s) → ∀ s, f (for_each xs body s).2 = f s.
Proof.
  intros Hbody. induction xs as [|x xs IH]; intros s; [done|].
  simpl. by apply bind_preserves.
Qed.

Lemma record_generic_name_root k element_id name s :
  root (record_generic_name k element_id name s).2 = root s.
Proof.
  destruct name as [name|].
  - rewrite record_generic_name_Some. apply root_put.
  - by rewrite record_generic_name_None.
Qed.

Lemma discover_root r s : root (find_generic_instrument_names r s).2 = root s.
Proof.
  unfold find_generic_instrument_names.
  destruct (find "part-list" r) as [part_list|]; [|done].
  apply for_each_preserves. intros score_part s'.
  unfold discover_score_part. apply bind_preserves.
  - apply for_each_preserves. intros. apply record_generic_name_root.
  - intros _. apply for_each_preserves. intros score_instrument s''.
    unfold discover_score_instrument.
    destruct (find "instrument-name" score_instrument); [|done].
    apply record_generic_name_root.
Qed.

Lemma cleanup_names_root s : root (cleanup_names s).2 = root s.
Proof. by destruct s. Qed.

Lemma elem_of_score_parts_entities k root score_part e :
  score_part ∈ score_parts root → e ∈ labels_of k score_part →
  e ∈ entities k root.
Proof. intros Hsp He. unfold entities. apply list_elem_of_bind. eauto. Qed.

(** After cleanup, the plan of canonical entities proposes the names the
    entities have. *)
Lemma cleaned_plan_canonical k root s i rm :
  find_generic_instrument_names root (__init__ root) = (Ok tt, s) →
  canonical k root →
  dict_of k (cleanup_names s).2 !! i = Some rm →
  swap_name rm = original_name rm ∧
  (i, Some (original_name rm)) ∈ entities k root.
Proof.
  intros Hs Hcan. destruct (discover_init k root s Hs) as (Hd & Hc & _).
  rewrite cleanup_names_dict, Hd, Hc.
  intros (n & name & fam & Hn & Hres & ->)%cleaned_lookup_inv. simpl.
  apply list_elem_of_lookup_2 in Hn. split; [|done].
  destruct (Hcan _ Hn) as [Hnone|(fam' & Hlabel & Hself & Hone)].
  - unfold family in Hnone. simpl in Hnone. congruence.
  - simpl in Hlabel. simplify_eq.
    rewrite decide_True; [congruence|].
    rewrite counts_occurrences. congruence.
Qed.

(** A plan that proposes the recorded names writes what it reads: renaming
    with it may raise, but it changes no label. *)
Lemma rename_tag_same rm c :
  swap_name rm = original_name rm → xml_compatible (swap_name rm) = true →
  (rename_tag rm c).2 = c.
Proof.
  intros Hswap Hcompat. unfold rename_tag. case_decide as Ht; [|done].
  rewrite set_text_compatible by done.
  simpl. rewrite Hswap. by apply with_text_same.
Qed.

Lemma for_each_child_same t body cs :
  (∀ c, (body c).2 = c) → (for_each_child t body cs).2 = cs.
Proof.
  intros Hbody. induction cs as [|c cs IH]; [done|].
  rewrite for_each_child_cons. specialize (Hbody c).
  destruct (has_tag t c); [destruct (body c) as [[[]|e] c']|];
    simpl in *; by subst; rewrite ?IH.
Qed.

Lemma rename_element_same (elem : element) (d : rename_dict) tag_name :
  (∀ i rm, d !! i = Some rm → swap_name rm = original_name rm) →
  compatible d →
  (_rename_element elem d tag_name).2 = elem.
Proof.
  intros Hd Hcompat. unfold _rename_element.
  destruct (d !! get "id" elem) as [rm|] eqn:E; [|done].
  rewrite on_children_snd, for_each_child_same; [apply set_children_id|].
  intros c. apply rename_tag_same; [by eapply Hd | by eapply Hcompat].
Qed.

Section rename_same.
Variables (tree : element) (parts instruments : rename_dict).

Hypothesis parts_same :
  ∀ i rm, parts !! i = Some rm → swap_name rm = original_name rm.
Hypothesis parts_compatible : compatible parts.

Lemma rename_score_part_part_labels score_part :
  part_labels (rename_score_part parts instruments score_part).2 =
  part_labels score_part.
Proof.
  unfold rename_score_part.
  pose proof (rename_element_same score_part parts "part-name" parts_same
                parts_compatible) as H.
  destruct (_rename_element score_part parts "part-name") as [[[]|e] sp];
    simpl in H; subst sp; [|done].
  rewrite on_children_snd. unfold part_labels, findall, get. simpl.
  rewrite (for_each_child_filter_other "score-instrument" "part-name");
    [done..|].
  intros c. apply rename_element_tag.
Qed.

(** With a part plan that proposes the recorded names, renaming keeps every
    part label, whatever it does to the instruments. *)
Lemma rename_instruments_part_entities :
  entities Part (rename_instruments tree parts instruments).2 =
  entities Part tree.
Proof.
  unfold entities, score_parts.
  destruct (find "part-list" tree) as [part_list|] eqn:Hpl.
  - rewrite (rename_instruments_find tree parts instruments part_list Hpl).
    unfold findall. rewrite children_set_children.
    apply for_each_child_bind. intros sp Hsp Ht. split.
    + unfold has_tag in *. by rewrite rename_score_part_tag.
    + simpl. apply rename_score_part_part_labels.
  - rewrite rename_instruments_no_part_list by done. simpl. by rewrite Hpl.
Qed.
End rename_same.

(** With plans that propose the names the entities have, under distinct
    ids, every assertion of renaming holds. *)
Section rename_normalized.
Variables (root : element) (parts instruments : rename_dict).

Hypothesis parts_distinct : NoDup (entities Part root).*1.
Hypothesis parts_fixed :
  ∀ i rm, parts !! i = Some rm →
    swap_name rm = original_name rm ∧
    (i, Some (original_name rm)) ∈ entities Part root.
Hypothesis parts_compatible : compatible parts.

Lemma rename_part_names_normalized score_part :
  score_part ∈ score_parts root →
  _rename_element score_part parts "part-name" = (Ok tt, score_part).
Proof.
  intros Hsp. destruct (parts !! get "id" score_part) as [rm|] eqn:Hd;
    [|by apply rename_element_absent].
  destruct (parts_fixed _ _ Hd) as [Hswap Hin].
  apply (rename_element_fixed _ _ _ rm); [done|done|by eapply parts_compatible|].
  apply Forall_forall. intros c Hc.
  eapply (NoDup_fst_eq _ (get "id" score_part)); [exact parts_distinct| |done].
  apply (elem_of_score_parts_entities Part root score_part); [done|].
  simpl. unfold part_labels. apply list_elem_of_fmap. by exists c.
Qed.

Hypothesis instruments_distinct : NoDup (entities Instrument root).*1.
Hypothesis instruments_fixed :
  ∀ i rm, instruments !! i = Some rm →
    swap_name rm = original_name rm ∧
    (i, Some (original_name rm)) ∈ entities Instrument root.
Hypothesis instruments_single_named : single_named root.
Hypothesis instruments_compatible : compatible instruments.

Lemma rename_score_instrument_normalized score_part score_instrument :
  score_part ∈ score_parts root →
  score_instrument ∈ findall "score-instrument" score_part →
  _rename_element score_instrument instruments "instrument-name" =
  (Ok tt, score_instrument).
Proof.
  intros Hsp Hsi.
  destruct (instruments !! get "id" score_instrument) as [rm|] eqn:Hd;
    [|by apply rename_element_absent].
  destruct (instruments_fixed _ _ Hd) as [Hswap Hin].
  apply (rename_element_fixed _ _ _ rm);
    [done|done|by eapply instruments_compatible|].
  assert (instrument_label score_instrument = Some (original_name rm)) as <-.
  { eapply (NoDup_fst_eq _ (get "id" score_instrument));
      [exact instruments_distinct| |done].
    apply (elem_of_score_parts_entities Instrument root score_part); [done|].
    simpl. unfold instrument_labels. apply list_elem_of_fmap.
    by exists score_instrument. }
  by apply (instruments_single_named score_part).
Qed.

Lemma rename_score_part_normalized score_part :
  score_part ∈ score_parts root →
  rename_score_part parts instruments score_part = (Ok tt, score_part).
Proof.
  intros Hsp. unfold rename_score_part.
  rewrite rename_part_names_normalized by done. unfold on_children.
  rewrite for_each_child_fixed; [by rewrite set_children_id|].
  intros si Hsi Ht. apply (rename_score_instrument_normalized score_part);
    [done|]. apply list_elem_of_In, filter_In.
  split; [by apply list_elem_of_In|done].
Qed.

(** With plans that propose the names the entities have, renaming returns
    and leaves the document as it is. *)
Lemma rename_instruments_normalized :
  is_Some (find "part-list" root) →
  rename_instruments root parts instruments = (Ok tt, root).
Proof.
  intros [part_list Hpl].
  assert (on_children
            (for_each_child "score-part" (rename_score_part parts instruments))
            part_list = (Ok tt, part_list)) as Hbody.
  { unfold on_children. rewrite for_each_child_fixed;
      [by rewrite set_children_id|].
    intros sp Hsp Ht. apply rename_score_part_normalized.
    unfold score_parts. rewrite Hpl. apply list_elem_of_In, filter_In.
    split; [by apply list_elem_of_In|done]. }
  unfold rename_instruments, on_children at 1.
  pose proof (with_first_child_fst "part-list"
    (on_children
       (for_each_child "score-part" (rename_score_part parts instruments)))
    (children root) part_list Hpl) as Hfst.
  pose proof (with_first_child_id "part-list"
    (on_children
       (for_each_child "score-part" (rename_score_part parts instruments)))
    (children root) part_list Hpl) as Hid.
  rewrite Hbody in Hfst, Hid. specialize (Hid eq_refl).
  destruct (with_first_child _ _ (children root)) as [r cs].
  simpl in *. subst. by rewrite set_children_id.
Qed.
End rename_normalized.

(** ** Normalising a normalised document *)

(** Part labels that are already normalised survive [process_xml], whether
    it returns or raises. *)
Lemma normalize_keeps_part_labels tree r s :
  canonical Part tree →
  process_xml (__init__ tree) = (r, s) →
  entities Part (root s) = entities Part tree.
Proof.
  intros Hnorm. rewrite process_xml_unfold.
  unfold call_find_generic_instrument_names.
  change (root (__init__ tree)) with tree.
  pose proof (discover_root tree (__init__ tree)) as Hroot.
  change (root (__init__ tree)) with tree in Hroot.
  destruct (find_generic_instrument_names tree (__init__ tree))
    as [[[]|e] s0] eqn:E; cbn [snd] in Hroot.
  - unfold call_rename_instruments. rewrite cleanup_names_root, Hroot.
    destruct (rename_instruments tree _ _) as [r' tree'] eqn:Er.
    intros [= <- <-]. simpl.
    change tree' with (r', tree').2. rewrite <-Er.
    apply rename_instruments_part_entities.
    + intros i rm Hi. by apply (cleaned_plan_canonical Part tree s0 i rm).
    + by apply (discovered_plan_compatible Part tree s0).
  - intros [= <- <-]. by rewrite Hroot.
Qed.

(** A well-labelled document whose parts and instruments are normalised is
    a fixed point of [process_xml]. *)
Lemma normalize_fixed tree :
  well_labelled tree → normalized Part tree → normalized Instrument tree →
  single_named tree →
  ∃ s, process_xml (__init__ tree) = (Ok tt, s) ∧ root s = tree.
Proof.
  intros Hwell HP HI Hsingle.
  assert (find_generic_instrument_names tree (__init__ tree) =
          (Ok tt, discovered tree (__init__ tree))) as Hs
    by (by apply discover_Ok).
  pose proof (discover_root tree (__init__ tree)) as Hroot.
  rewrite Hs in Hroot. cbn [snd] in Hroot.
  change (root (__init__ tree)) with tree in Hroot.
  rewrite process_xml_unfold.
  unfold call_find_generic_instrument_names.
  change (root (__init__ tree)) with tree. rewrite Hs.
  unfold call_rename_instruments. rewrite cleanup_names_root, Hroot.
  rewrite rename_instruments_normalized.
  - eexists. split; [done|]. done.
  - apply HP.
  - intros i rm Hi. eapply (cleaned_plan_canonical Part); [done|apply HP|done].
  - by apply (discovered_plan_compatible Part tree _ Hs).
  - apply HI.
  - intros i rm Hi.
    eapply (cleaned_plan_canonical Instrument); [done|apply HI|done].
  - done.
  - by apply (discovered_plan_compatible Instrument tree _ Hs).
  - apply Hwell.
Qed.

(** * The claims of the specification *)

(** ** Resolution *)


(** ** Discovery *)


(** ** Cleanup *)

(** C3, as stated, fails: the dictionary is keyed by id, so of two entities
    with one id the second replaces the entry of the first. In a document
    with two harps under the id P1, which [process_xml] accepts, the family
    is counted twice and the only entry proposes ["Harp 2"]: no entry
    proposes ["Harp 1"]. *)
Lemma same_id_skips_a_number :
  ¬ (∀ root s k fam,
       find_generic_instrument_names root (__init__ root) = (Ok tt, s) →
       2 ≤ counter_get (counter_of k (cleanup_names s).2) fam →
       ∀ n, 1 ≤ n ≤ counter_get (counter_of k (cleanup_names s).2) fam →
            ∃ i rm, dict_of k (cleanup_names s).2 !! i = Some rm ∧
                    swap_name rm = fam +:+ " " +:+ str n).
Proof.
  intros H.
  destruct (H twin_harps_doc
              (find_generic_instrument_names twin_harps_doc
                 (__init__ twin_harps_doc)).2 Part "Harp")
    with (n := 1) as (i & rm & Hrm & Hname).
  - vm_compute. reflexivity.
  - vm_compute. lia.
  - vm_compute. lia.
  - apply elem_of_map_to_list in Hrm.
    assert (map_to_list
              (dict_of Part
                 (cleanup_names
                    (find_generic_instrument_names twin_harps_doc
                       (__init__ twin_harps_doc)).2).2) =
            [(Some "P1", {| original_name := "Harp"; swap_name := "Harp 2" |})])
      as Hlist by (vm_compute; reflexivity).
    rewrite Hlist in Hrm. apply list_elem_of_singleton in Hrm.
    injection Hrm as _ ->. vm_compute in Hname. discriminate Hname.
Qed.

(** C3, amended. After discovery and cleanup, for a family that occurs [N]
    times among the entities of a kind: an entry of the family has the bare
    family name as proposed name when [N] is 1, and a name ["<family> <n>"]
    with [n] from 1 to [N] when [N >= 2]; no two entries of the family share
    a proposed name; and when the entities of the kind have distinct ids no
    entry is missing: for [N = 1] the family has its entry, and for [N >= 2]
    every number from 1 to [N] names an entry. *)
Theorem cleanup_numbering (root : element) (s : InstrumentManager) (k : kind)
    (fam : string) :
  find_generic_instrument_names root (__init__ root) = (Ok tt, s) →
  let plan := dict_of k (cleanup_names s).2 in
  let N := counter_get (counter_of k (cleanup_names s).2) fam in
  N = occurrences fam (entities k root) ∧
  (∀ i rm, plan !! i = Some rm → resolve (original_name rm) = Some fam →
     (N = 1 ∧ swap_name rm = fam) ∨
     (2 ≤ N ∧ ∃ n, 1 ≤ n ≤ N ∧ swap_name rm = fam +:+ " " +:+ str n)) ∧
  (∀ i i' rm rm',
     plan !! i = Some rm → plan !! i' = Some rm' →
     resolve (original_name rm) = Some fam →
     resolve (original_name rm') = Some fam →
     swap_name rm = swap_name rm' → i = i') ∧
  (NoDup (entities k root).*1 →
     (N = 1 →
        ∃ i name,
          (i, Some name) ∈ entities k root ∧ resolve name = Some fam ∧
          plan !! i = Some {| original_name := name; swap_name := fam |}) ∧
     (2 ≤ N → ∀ n, 1 ≤ n ≤ N →
        ∃ i name,
          (i, Some name) ∈ entities k root ∧ resolve name = Some fam ∧
          plan !! i = Some {| original_name := name;
                              swap_name := fam +:+ " " +:+ str n |})).
Proof.
  intros Hs plan N. subst plan N.
  destruct (discover_init k root s Hs) as (Hd & Hc & Hlab).
  rewrite cleanup_names_dict, cleanup_names_counter, Hd, Hc.
  set (es := entities k root) in *.
  pose proof (counts_occurrences es fam) as Hocc.
  split_and!; [done|..].
  - intros i rm Hi Hres.
    apply cleaned_lookup_inv in Hi as (n & name & fam' & Hn & Hres' & ->).
    simpl in *. assert (fam' = fam) as -> by congruence.
    pose proof (occurrences_pos fam es n _ Hn Hres') as Hpos.
    case_decide as Hone; [by left|]. right. split; [lia|].
    exists (occurrences fam (take (S n) es)). split; [lia|done].
  - intros i i' rm rm' Hi Hi' Hres Hres' Heq.
    apply cleaned_lookup_inv in Hi as (n & name & f1 & Hn & Hr1 & ->).
    apply cleaned_lookup_inv in Hi' as (n' & name' & f2 & Hn' & Hr2 & ->).
    simpl in *. assert (f1 = fam) as -> by congruence.
    assert (f2 = fam) as -> by congruence.
    pose proof (occurrences_pos fam es n _ Hn Hr1) as Hpos.
    pose proof (occurrences_pos fam es n' _ Hn' Hr2) as Hpos'.
    assert (n = n') as ->; [|congruence].
    eapply (occurrences_inj es fam); [done..|].
    case_decide as Hone; [lia|].
    by apply numbered_str_inj in Heq as [_ Heq].
  - intros Hnd. split.
    + intros Hone. rewrite Hocc in Hone.
      destruct (occurrences_surj fam es 1) as (n & [i label] & Hn & Hfam & Hnum);
        [lia|].
      destruct (labelled_lookup es n i label Hlab Hn) as [name ->].
      exists i, name. split_and!; [by eapply list_elem_of_lookup_2|done|].
      rewrite (cleaned_lookup es Hnd n i name fam Hn Hfam).
      by rewrite decide_True by (by rewrite Hocc).
    + intros Htwo n Hn. rewrite Hocc in Htwo, Hn.
      destruct (occurrences_surj fam es n Hn) as (m & [i label] & Hm & Hfam & Hnum).
      destruct (labelled_lookup es m i label Hlab Hm) as [name ->].
      exists i, name. split_and!; [by eapply list_elem_of_lookup_2|done|].
      rewrite (cleaned_lookup es Hnd m i name fam Hm Hfam).
      rewrite decide_False by lia. by rewrite Hnum.
Qed.

(** The counters of a manager only count families of the table. *)
Lemma init_counts_families root : counts_families_only (__init__ root).
Proof. intros [] fam H; by apply elem_of_nil in H. Qed.

Lemma discovery_counts_families root s s' :
  counts_families_only s →
  find_generic_instrument_names root s = (Ok tt, s') →
  counts_families_only s'.
Proof.
  intros Hs [_ ->]%discover_Ok k fam Hfam.
  pose proof (discovered_proj k root s) as H. unfold proj in H.
  apply (f_equal snd) in H. simpl in H. rewrite H in Hfam.
  apply record_entities_keys in Hfam as [Hfam|Hfam]; [|done].
  simpl in Hfam. by apply (Hs k).
Qed.

Lemma counts_families_separated k s :
  counts_families_only s → separated (counter_of k s).
Proof.
  intros Hs f g Hf Hg. apply families_separated; apply (Hs k);
    apply list_elem_of_fmap; [by exists (f, 1) | by exists (g, 1)].
Qed.

(** On a manager whose counters only count families of the table, cleaning
    up twice is cleaning up once. *)
Lemma cleanup_names_idemp s :
  counts_families_only s →
  cleanup_names (cleanup_names s).2 = (Ok tt, (cleanup_names s).2).
Proof.
  intros Hs. unfold cleanup_names at 1, modify. f_equal.
  apply manager_eq; [by destruct s|..].
  - pose proof (cleanup_idemp (part_counter s) (part_rename_dict s)
                  (counts_families_separated Part s Hs)) as H.
    destruct s. unfold proj. simpl in *. by rewrite H.
  - pose proof (cleanup_idemp (instrument_counter s) (instrument_rename_dict s)
                  (counts_families_separated Instrument s Hs)) as H.
    destruct s. unfold proj. simpl in *. by rewrite H.
Qed.

(** C8. After discovery, cleanup is idempotent: a second run of
    [cleanup_names] on the state the first run leaves changes nothing,
    because no entry of a rename dictionary still has the numbered form
    ["<family> 1"] of a family counted once. *)
Theorem cleanup_idempotent (root : element) (s : InstrumentManager) :
  find_generic_instrument_names root (__init__ root) = (Ok tt, s) →
  let s1 := (cleanup_names s).2 in
  cleanup_names s1 = (Ok tt, s1) ∧
  (∀ k i rm fam,
     dict_of k s1 !! i = Some rm → (fam, 1) ∈ counter_of k s1 →
     swap_name rm ≠ fam +:+ " 1").
Proof.
  intros Hs s1. subst s1.
  assert (counts_families_only s) as Hfam.
  { eapply discovery_counts_families; [apply init_counts_families | done]. }
  split; [by apply cleanup_names_idemp|].
  intros k i rm fam. rewrite cleanup_names_dict, cleanup_names_counter.
  rewrite cleanup_fmap, lookup_fmap.
  destruct (dict_of k s !! i) as [rm0|]; [|done]. simpl. intros [= <-] Hone.
  apply cleanup_entries_settled; [|done]. by apply counts_families_separated.
Qed.

(** ** Apply *)






(** ** Documents without parts *)

Lemma find_generic_instrument_names_no_part_list root s :
  find "part-list" root = None →
  find_generic_instrument_names root s = (Raise AttributeError, s).
Proof. unfold find_generic_instrument_names. by intros ->. Qed.

Lemma entities_no_score_part k root part_list :
  find "part-list" root = Some part_list →
  findall "score-part" part_list = [] → entities k root = [].
Proof. intros Hpl Hsp. unfold entities, score_parts. by rewrite Hpl, Hsp. Qed.

(** C6, as stated, fails: a document whose part list holds no score part is
    normalised without any error, and comes out as it went in. *)
Lemma no_parts_is_not_fatal :
  score_parts no_parts_doc = [] ∧
  process_xml (__init__ no_parts_doc) = (Ok tt, __init__ no_parts_doc).
Proof. split; vm_compute; reflexivity. Qed.

(** C6, amended. A document without part list makes normalisation fail at
    once, with the attribute error of [None.findall], before anything is
    recorded or renamed; a document whose part list holds no score part is
    normalised without error and is left as it is. *)
Theorem missing_part_list_is_fatal (root : element) :
  (find "part-list" root = None →
   ∀ s, process_xml (set_root root s) = (Raise AttributeError, set_root root s)) ∧
  (∀ part_list,
     find "part-list" root = Some part_list →
     findall "score-part" part_list = [] →
     process_xml (__init__ root) = (Ok tt, __init__ root)).
Proof.
  split.
  - intros Hpl s. rewrite process_xml_unfold.
    unfold call_find_generic_instrument_names. simpl.
    by rewrite find_generic_instrument_names_no_part_list.
  - intros pl Hpl Hsp. rewrite process_xml_unfold.
    unfold call_find_generic_instrument_names. simpl.
    assert (find_generic_instrument_names root (__init__ root) =
            (Ok tt, __init__ root)) as ->.
    { apply discover_Ok. split.
      - unfold well_labelled, labelled.
        rewrite !(entities_no_score_part _ root pl Hpl Hsp), Hpl.
        split_and!; [by eexists | constructor | constructor].
      - unfold discovered.
        rewrite !(entities_no_score_part _ root pl Hpl Hsp). done. }
    unfold call_rename_instruments. simpl.
    by rewrite (rename_instruments_no_score_part root ∅ ∅ pl Hpl Hsp).
Qed.

(** ** The worked example *)

Lemma violins_and_harp_canonical tree i1 i2 i3 :
  entities Part tree =
    [(i1, Some "Violins 1"); (i2, Some "Violins 2"); (i3, Some "Harp")] →
  canonical Part tree.
Proof.
  intros Hes. unfold canonical. rewrite Hes. intros e He. right.
  repeat (apply elem_of_cons in He as [->|He]);
    [exists "Violins 1" | exists "Violins 2" | exists "Harp" |
     by apply elem_of_nil in He];
    (split_and!; [done | vm_compute; reflexivity | vm_compute; reflexivity]).
Qed.

(** C9. On every document whose part entities are ["Violins 1"],
    ["Violins 2"] and ["Harp"], in this order: each label resolves to its
    own family; discovery counts each family once, and after cleanup every
    entry of the part plan proposes the name it recorded (with distinct ids,
    each part has its entry, with the bare family name); the part labels are
    the same after [process_xml], whether it returns or raises; and when the
    ids are distinct and the instruments are normalised as well,
    [process_xml] returns and the document is unchanged. *)
Theorem violins_and_harp_unchanged (tree : element) (i1 i2 i3 : option string) :
  entities Part tree =
    [(i1, Some "Violins 1"); (i2, Some "Violins 2"); (i3, Some "Harp")] →
  (resolve "Violins 1" = Some "Violins 1" ∧
   resolve "Violins 2" = Some "Violins 2" ∧
   resolve "Harp" = Some "Harp") ∧
  (∀ s, find_generic_instrument_names tree (__init__ tree) = (Ok tt, s) →
     part_counter s = [("Violins 1", 1); ("Violins 2", 1); ("Harp", 1)] ∧
     (∀ i rm, part_rename_dict (cleanup_names s).2 !! i = Some rm →
              swap_name rm = original_name rm) ∧
     (NoDup [i1; i2; i3] →
      part_rename_dict (cleanup_names s).2 !! i1 =
        Some {| original_name := "Violins 1"; swap_name := "Violins 1" |} ∧
      part_rename_dict (cleanup_names s).2 !! i2 =
        Some {| original_name := "Violins 2"; swap_name := "Violins 2" |} ∧
      part_rename_dict (cleanup_names s).2 !! i3 =
        Some {| original_name := "Harp"; swap_name := "Harp" |})) ∧
  (∀ r s, process_xml (__init__ tree) = (r, s) →
     entities Part (root s) = entities Part tree) ∧
  (NoDup [i1; i2; i3] → well_labelled tree → normalized Instrument tree →
   single_named tree →
   ∃ s, process_xml (__init__ tree) = (Ok tt, s) ∧ root s = tree).
Proof.
  intros Hes.
  pose proof (violins_and_harp_canonical tree i1 i2 i3 Hes) as Hcan.
  split_and!; [vm_compute; reflexivity..| | |].
  - intros s Hs. destruct (discover_init Part tree s Hs) as (Hd & Hc & _).
    simpl in Hd, Hc. split_and!.
    + rewrite Hc, Hes. vm_compute. reflexivity.
    + intros i rm Hi. by apply (cleaned_plan_canonical Part tree s i rm).
    + intros Hnd.
      assert (NoDup (entities Part tree).*1) as Hnd' by (by rewrite Hes).
      assert (∀ n i name,
        entities Part tree !! n = Some (i, Some name) →
        resolve name = Some name → occurrences name (entities Part tree) = 1 →
        part_rename_dict (cleanup_names s).2 !! i =
        Some {| original_name := name; swap_name := name |}) as Hentry.
      { intros n i name Hn Hres Hone.
        change (part_rename_dict (cleanup_names s).2)
          with (dict_of Part (cleanup_names s).2).
        rewrite cleanup_names_dict. simpl. rewrite Hd, Hc.
        rewrite (cleaned_lookup (entities Part tree) Hnd' n i name name Hn Hres).
        by rewrite decide_True by (by rewrite counts_occurrences). }
      split_and!.
      * apply (Hentry 0); [by rewrite Hes|vm_compute; reflexivity|].
        rewrite Hes. vm_compute. reflexivity.
      * apply (Hentry 1); [by rewrite Hes|vm_compute; reflexivity|].
        rewrite Hes. vm_compute. reflexivity.
      * apply (Hentry 2); [by rewrite Hes|vm_compute; reflexivity|].
        rewrite Hes. vm_compute. reflexivity.
  - intros r s. by apply normalize_keeps_part_labels.
  - intros Hnd Hwell HI Hsingle. apply normalize_fixed; [done| |done..].
    split; [by rewrite Hes | done].
Qed.

(** ** Score instruments without a name *)

Lemma elem_of_entities k root part_list score_part e :
  find "part-list" root = Some part_list →
  score_part ∈ findall "score-part" part_list →
  e ∈ labels_of k score_part → e ∈ entities k root.
Proof.
  intros Hpl Hsp He. unfold entities, score_parts. rewrite Hpl.
  apply list_elem_of_bind. eauto.
Qed.

(** C10. Discovery reads the text of the instrument name of every score
    instrument: on a score instrument without that child the step raises the
    attribute error, and on one whose instrument name has no text the type
    error, in both cases without recording anything; and discovery of a
    document that holds such a score instrument does not return normally. *)
Theorem discovery_needs_instrument_names
    (root part_list score_part score_instrument : element) :
  find "part-list" root = Some part_list →
  score_part ∈ findall "score-part" part_list →
  score_instrument ∈ findall "score-instrument" score_part →
  instrument_label score_instrument = None →
  (∀ s, discover_score_instrument score_instrument s =
        (Raise (match find "instrument-name" score_instrument with
                | Some _ => TypeError
                | None => AttributeError
                end), s)) ∧
  (∀ s, ∃ e s', find_generic_instrument_names root s = (Raise e, s')) ∧
  (∀ s, ∃ e s', process_xml (set_root root s) = (Raise e, s')).
Proof.
  intros Hpl Hsp Hsi Hlabel.
  assert (∀ s, ∃ e s', find_generic_instrument_names root s = (Raise e, s'))
    as Hraise.
  { intros s.
    destruct (find_generic_instrument_names root s) as [[[]|e] s'] eqn:E;
      [|by eauto].
    apply discover_Ok in E as [(_ & _ & HI) _].
    unfold labelled in HI. rewrite Forall_forall in HI.
    destruct (HI (get "id" score_instrument, instrument_label score_instrument))
      as [name Hname].
    - eapply (elem_of_entities Instrument); [done..|].
      simpl. unfold instrument_labels. apply list_elem_of_fmap.
      by exists score_instrument.
    - simpl in Hname. congruence. }
  split_and!; [|done|].
  - intros s. unfold discover_score_instrument, instrument_label in *.
    destruct (find "instrument-name" score_instrument) as [c|]; [|done].
    simpl in Hlabel. rewrite Hlabel. apply record_generic_name_None.
  - intros s. rewrite process_xml_unfold.
    unfold call_find_generic_instrument_names. simpl.
    destruct (Hraise (set_root root s)) as (e & s' & ->). eauto.
Qed.

(** * The claims at concrete documents *)



Lemma cleanup_numbering_witness :
  ∃ i name,
    dict_of Part
      (cleanup_names
         (find_generic_instrument_names timpani_doc (__init__ timpani_doc)).2).2
      !! i =
    Some {| original_name := name; swap_name := "2 Trumpets" |}.
Proof.
  assert (find_generic_instrument_names timpani_doc (__init__ timpani_doc) =
          (Ok tt, (find_generic_instrument_names timpani_doc
                     (__init__ timpani_doc)).2)) as Hs
    by (vm_compute; reflexivity).
  assert (NoDup (entities Part timpani_doc).*1) as Hnd
    by (apply (bool_decide_unpack _); vm_compute; exact I).
  destruct (cleanup_numbering timpani_doc _ Part "2 Trumpets" Hs)
    as (_ & _ & _ & Hall).
  destruct (Hall Hnd) as [Hone _].
  destruct Hone as (i & name & _ & _ & Hi); [vm_compute; reflexivity|].
  by exists i, name.
Defined.

Lemma cleanup_idempotent_witness :
  cleanup_names
    (cleanup_names
       (find_generic_instrument_names timpani_doc (__init__ timpani_doc)).2).2 =
  (Ok tt,
   (cleanup_names
      (find_generic_instrument_names timpani_doc (__init__ timpani_doc)).2).2).
Proof.
  refine (proj1 (cleanup_idempotent timpani_doc _ _)).
  vm_compute. reflexivity.
Defined.


Lemma missing_part_list_is_fatal_witness :
  process_xml (__init__ no_part_list_doc) =
  (Raise AttributeError, __init__ no_part_list_doc).
Proof.
  exact (proj1 (missing_part_list_is_fatal no_part_list_doc) eq_refl
           (__init__ no_part_list_doc)).
Defined.

Lemma discovery_needs_instrument_names_witness :
  ∃ e s,
    find_generic_instrument_names unnamed_instrument_doc
      (__init__ unnamed_instrument_doc) = (Raise e, s).
Proof.
  refine (proj1 (proj2 (discovery_needs_instrument_names
            unnamed_instrument_doc
            (mk "part-list" None None
               [ simple_part "P1" "Harp" [mk "score-instrument" (Some "P1-I1") None []];
                 simple_part "P2" "Tuba" [simple_instrument "P2-I1" "Tuba"] ])
            (simple_part "P1" "Harp" [mk "score-instrument" (Some "P1-I1") None []])
            (mk "score-instrument" (Some "P1-I1") None []) _ _ _ _))
            (__init__ unnamed_instrument_doc)).
  - reflexivity.
  - left.
  - left.
  - reflexivity.
Defined.


Lemma violins_and_harp_unchanged_witness :
  entities Part (root (process_xml (__init__ violins_harp_doc)).2) =
  entities Part violins_harp_doc.
Proof.
  refine (proj1 (proj2 (proj2 (violins_and_harp_unchanged violins_harp_doc
            (Some "P1") (Some "P2") (Some "P3") _))) _ _ _).
  - vm_compute. reflexivity.
  - apply surjective_pairing.
Defined.

(** * Outside the assumptions *)

(** Two score parts with one id: the second part replaces the entry of the
    first, so the family of the first is counted once and has no entry, and
    renaming stops at the first part, whose label is not the recorded one.
    The document is left as it was. *)
Example colliding_ids_lose_an_entry :
  ∃ s, process_xml (__init__ colliding_ids_doc) =
         (Raise (AssertionError "Original name mismatch"), s) ∧
       root s = colliding_ids_doc ∧
       part_counter s = [("Harp", 1); ("Tuba", 1)] ∧
       map_to_list (part_rename_dict s) =
         [(Some "P1", {| original_name := "Tuba"; swap_name := "Tuba" |})].
Proof.
  exists (process_xml (__init__ colliding_ids_doc)).2.
  split_and!; vm_compute; reflexivity.
Qed.

(** Two harps with one id: both are counted, the entry of the second
    replaces the entry of the first, and both parts end up with the name of
    the second. *)
Example twin_harps_share_a_name :
  ∃ s, process_xml (__init__ twin_harps_doc) = (Ok tt, s) ∧
       part_counter s = [("Harp", 2)] ∧
       map_to_list (part_rename_dict s) =
         [(Some "P1", {| original_name := "Harp"; swap_name := "Harp 2" |})] ∧
       entities Part (root s) =
         [(Some "P1", Some "Harp 2"); (Some "P1", Some "Harp 2")].
Proof.
  exists (process_xml (__init__ twin_harps_doc)).2.
  split_and!; vm_compute; reflexivity.
Qed.

(** A proposed name that lxml refuses: no plan of discovery holds one, but a
    dictionary made by hand may. The assertion holds, the write raises, and
    the label is left without text. *)
Example control_character_is_refused :
  xml_compatible (swap_name bell_harp) = false ∧
  _rename_element (simple_part "P1" "Harp" []) {[Some "P1" := bell_harp]}
    "part-name" =
  (Raise ValueError,
   mk "score-part" (Some "P1") None [mk "part-name" None None []]) ∧
  ∃ tree,
    rename_instruments violins_harp_doc {[Some "P3" := bell_harp]} ∅ =
    (Raise ValueError, tree) ∧
    entities Part tree =
      [(Some "P1", Some "Violins 1"); (Some "P2", Some "Violins 2");
       (Some "P3", None)].
Proof.
  split_and!; [vm_compute; reflexivity..|].
  eexists. split; vm_compute; reflexivity.
Qed.

(** A second run on the manager of the first one is not a second
    normalisation: the counters go on counting, so every name that resolves
    is numbered again. *)
Example used_manager_renumbers :
  (process_xml (process_xml (__init__ timpani_doc)).2).1 = Ok tt ∧
  entities Part (root (process_xml (process_xml (__init__ timpani_doc)).2).2) =
    [ (Some "P1", Some "Timpani 4"); (Some "P2", Some "Timpani 5");
      (Some "P3", Some "2 Trumpets 2"); (Some "P4", Some "Timpani 6") ].
Proof. split; vm_compute; reflexivity. Qed.

(** Idempotence of cleanup rests on the table. A counter that held a family
    and that family followed by [" 1"], both once, would rewrite an entry on
    the second run; discovery builds no such counter
    ([discovery_counts_families], [families_separated]). *)
Example cleanup_needs_separated_counter :
  let counter := [("A", 1); ("A 1", 1)] in
  let d : rename_dict :=
    {[Some "P1" := {| original_name := "A 1"; swap_name := "A 1 1" |}]} in
  _cleanup counter d !! Some "P1" =
    Some {| original_name := "A 1"; swap_name := "A 1" |} ∧
  _cleanup counter (_cleanup counter d) !! Some "P1" =
    Some {| original_name := "A 1"; swap_name := "A" |}.
Proof. split; vm_compute; reflexivity. Qed.

(** * Further properties of the code *)

(** ** Patterns inside patterns *)

Lemma app_assoc_str a b c : (a +:+ b) +:+ c = a +:+ (b +:+ c).
Proof. induction a as [|x a IH]; unfold_app; [done|]. by rewrite IH. Qed.

Lemma substring_of_trans a b c :
  substring_of a b → substring_of b c → substring_of a c.
Proof.
  intros (p1 & q1 & ->) (p2 & q2 & ->). exists (p2 +:+ p1), (q1 +:+ q2).
  by rewrite !app_assoc_str.
Qed.

Lemma contains_trans a b c :
  contains a b = true → contains b c = true → contains a c = true.
Proof. rewrite !contains_spec. apply substring_of_trans. Qed.

Lemma resolve_from_live earlier items name :
  (∀ k, k ∈ earlier → contains k name = false) →
  resolve_from (live_from earlier items) name = resolve_from items name.
Proof.
  revert earlier.
  induction items as [|[pat fam] items IH]; intros earlier Hearlier; [done|].
  simpl. destruct (existsb (λ k, contains k pat) earlier) eqn:E.
  - apply existsb_exists in E as (k & Hk%list_elem_of_In & Hkpat).
    destruct (contains pat name) eqn:Hpat; [|by apply IH].
    specialize (Hearlier k Hk).
    by rewrite (contains_trans k pat name Hkpat Hpat) in Hearlier.
  - simpl. destruct (contains pat name) eqn:Hpat; [done|].
    apply IH. intros k [Hk|Hk%list_elem_of_singleton]%elem_of_app; [auto|].
    by subst.
Qed.

Lemma resolve_live name : resolve name = resolve_from live_entries name.
Proof.
  symmetry. apply resolve_from_live. intros k Hk. by apply elem_of_nil in Hk.
Qed.

Lemma live_entries_resolve item :
  item ∈ live_entries →
  item ∈ instrument_swap_map ∧ resolve item.1 = Some item.2.
Proof.
  revert item.
  assert (Forall (λ item, item ∈ instrument_swap_map ∧
                          resolve item.1 = Some item.2) live_entries) as H.
  { apply (bool_decide_unpack _). vm_compute. exact I. }
  intros item. rewrite Forall_forall in H. apply H.
Qed.

Lemma shadowed_entry item :
  item ∈ instrument_swap_map → item ∉ live_entries →
  ∃ earlier, earlier ∈ live_entries ∧ earlier.1 ≠ item.1 ∧
             substring_of earlier.1 item.1.
Proof.
  revert item.
  assert (Forall (λ item, item ∉ live_entries →
            Exists (λ earlier, earlier.1 ≠ item.1 ∧
                               contains earlier.1 item.1 = true) live_entries)
            instrument_swap_map) as H.
  { apply (bool_decide_unpack _). vm_compute. exact I. }
  intros item Hin Hlive. rewrite Forall_forall in H.
  destruct (proj1 (Exists_exists _ _) (H item Hin Hlive))
    as (earlier & He & Hne & Hsub).
  exists earlier. split_and!; [done..|]. by apply contains_spec.
Qed.

Lemma resolve_live_family name fam :
  resolve name = Some fam → fam ∈ live_entries.*2.
Proof.
  rewrite resolve_live. intros (i & pat & Hi & _)%resolve_from_Some.
  apply list_elem_of_fmap. exists (pat, fam). split; [done|].
  by eapply list_elem_of_lookup_2.
Qed.

(** X1. The entries of the swap map whose pattern holds an earlier pattern
    never decide a lookup: resolving with the 54 other entries gives the
    same result for every name. Each of these 54 entries is an entry of
    the map and is used, the name equal to its pattern resolving to its
    family; each of the 33 others has a different pattern of the 54
    occurring in its own. *)
Theorem shadowed_entries_never_match :
  (∀ name, resolve name = resolve_from live_entries name) ∧
  (∀ item, item ∈ live_entries →
     item ∈ instrument_swap_map ∧ resolve item.1 = Some item.2) ∧
  (∀ item, item ∈ instrument_swap_map → item ∉ live_entries →
     ∃ earlier, earlier ∈ live_entries ∧ earlier.1 ≠ item.1 ∧
                substring_of earlier.1 item.1) ∧
  length instrument_swap_map = 87 ∧ length live_entries = 54.
Proof.
  split_and!; [apply resolve_live | apply live_entries_resolve |
               apply shadowed_entry | reflexivity | reflexivity].
Qed.

(** X2. The families [resolve] returns are exactly the families of the
    entries that are not shadowed; the families of the table that no name
    resolves to are the five ["Solo ..."] families and ["Violas"],
    ["Cellos"], ["Basses"]. *)
Theorem resolve_range (fam : string) :
  ((∃ name, resolve name = Some fam) ↔ fam ∈ live_entries.*2) ∧
  (fam ∈ families →
     (∀ name, resolve name ≠ Some fam) ↔ fam ∈ never_resolved_families).
Proof.
  assert ((∃ name, resolve name = Some fam) ↔ fam ∈ live_entries.*2) as Hrange.
  { split.
    - intros [name H]. by eapply resolve_live_family.
    - intros (item & -> & Hitem)%list_elem_of_fmap.
      exists item.1. by apply live_entries_resolve. }
  split; [done|]. intros Hfam.
  assert (Forall (λ fam, fam ∈ live_entries.*2 ↔ fam ∉ never_resolved_families)
            families) as H.
  { apply (bool_decide_unpack _). vm_compute. exact I. }
  rewrite Forall_forall in H. specialize (H fam Hfam).
  split.
  - intros Hnone. destruct (decide (fam ∈ never_resolved_families)); [done|].
    apply H, Hrange in n as [name Hname]. by destruct (Hnone name).
  - intros Hnever name Hname.
    assert (fam ∈ live_entries.*2) as Hl by (apply Hrange; eauto).
    by apply H in Hl.
Qed.

(** ** Names followed by a numeral *)

Lemma startswith_digits k ds :
  all_digits ds = true → startswith k ds = true → all_digits k = true.
Proof.
  revert ds. induction k as [|a k IH]; intros [|b ds]; simpl; try done.
  intros [Hb Hds]%andb_true_iff.
  destruct (Ascii.eqb_spec a b) as [->|]; [|done].
  intros Hk. rewrite Hb. simpl. eauto.
Qed.

Lemma contains_digits k ds :
  all_digits ds = true → contains k ds = true → all_digits k = true.
Proof.
  induction ds as [|b ds IH]; intros Hds.
  - simpl. rewrite orb_false_r. by apply startswith_digits.
  - change (contains k (String b ds))
      with (startswith k (String b ds) || contains k ds).
    intros [H|H]%orb_true_iff; [by eapply startswith_digits|].
    simpl in Hds. apply andb_true_iff in Hds as [_ Hds]. auto.
Qed.

Lemma startswith_numbered k a ds :
  all_digits ds = true →
  startswith k (a +:+ " " +:+ ds) = true →
  startswith k a = true ∨ through k a = true.
Proof.
  intros Hds. revert k. induction a as [|c a IH]; intros [|d k]; unfold_app;
    simpl; auto.
  - destruct (Ascii.eqb_spec d " ") as [->|]; [|done].
    intros Hk. right. simpl. by eapply startswith_digits.
  - destruct (Ascii.eqb_spec d c) as [->|]; [|done]. simpl. apply IH.
Qed.

Lemma contains_numbered k a ds :
  all_digits ds = true →
  contains k (a +:+ " " +:+ ds) = true →
  contains k a = true ∨ straddles k a = true.
Proof.
  intros Hds. induction a as [|c a IH].
  - unfold_app.
    change (contains k (String " " ds))
      with (startswith k (String " " ds) || contains k ds).
    intros [H|H]%orb_true_iff.
    + destruct (startswith_numbered k "" ds Hds H) as [H'|H'].
      * left. simpl. by rewrite H'.
      * right. simpl in *. by rewrite H'.
    + right. simpl. rewrite (contains_digits k ds Hds H). apply orb_true_r.
  - unfold_app.
    change (contains k (String c (a +:+ " " +:+ ds)))
      with (startswith k (String c a +:+ " " +:+ ds) ||
            contains k (a +:+ " " +:+ ds)).
    intros [H|H]%orb_true_iff.
    + destruct (startswith_numbered k (String c a) ds Hds H) as [H'|H'].
      * left. change (contains k (String c a))
          with (startswith k (String c a) || contains k a). by rewrite H'.
      * right. change (straddles k (String c a))
          with (through k (String c a) || straddles k a). by rewrite H'.
    + destruct (IH H) as [H'|H'].
      * left. change (contains k (String c a))
          with (startswith k (String c a) || contains k a).
        rewrite H'. apply orb_true_r.
      * right. change (straddles k (String c a))
          with (through k (String c a) || straddles k a).
        rewrite H'. apply orb_true_r.
Qed.

Lemma contains_app_r k a b : contains k a = true → contains k (a +:+ b) = true.
Proof.
  rewrite !contains_spec. intros (p & q & ->). exists p, (q +:+ b).
  by rewrite !app_assoc_str.
Qed.

Lemma resolve_from_ext items a b :
  (∀ item, item ∈ items → contains item.1 a = contains item.1 b) →
  resolve_from items a = resolve_from items b.
Proof.
  induction items as [|[pat fam] items IH]; intros H; [done|]. simpl.
  pose proof (H (pat, fam) ltac:(left)) as Hhd. simpl in Hhd. rewrite Hhd.
  rewrite IH; [done|]. intros item Hitem. apply H. by right.
Qed.

Lemma families_not_straddled fam item :
  fam ∈ families → item ∈ instrument_swap_map → straddles item.1 fam = false.
Proof.
  revert fam item.
  assert (Forall (λ fam, Forall (λ item : string * string,
            straddles item.1 fam = false) instrument_swap_map) families) as H.
  { apply (bool_decide_unpack _). vm_compute. exact I. }
  intros fam item Hfam Hitem. rewrite Forall_forall in H.
  specialize (H fam Hfam). rewrite Forall_forall in H. by apply H.
Qed.

Lemma resolve_numbered fam ds :
  fam ∈ families → all_digits ds = true →
  resolve (fam +:+ " " +:+ ds) = resolve fam.
Proof.
  intros Hfam Hds. apply resolve_from_ext. intros item Hitem.
  destruct (contains item.1 fam) eqn:E.
  - by apply contains_app_r.
  - destruct (contains item.1 (fam +:+ " " +:+ ds)) eqn:E'; [|done].
    destruct (contains_numbered _ _ _ Hds E') as [H|H]; [congruence|].
    by rewrite families_not_straddled in H.
Qed.

Lemma resolve_resolved name fam :
  resolve name = Some fam →
  resolve fam = if decide (fam = "French Horn") then None else Some fam.
Proof.
  intros H%resolve_live_family. revert fam H.
  assert (Forall (λ fam, resolve fam =
            if decide (fam = "French Horn") then None else Some fam)
            live_entries.*2) as H.
  { apply (bool_decide_unpack _). vm_compute. exact I. }
  intros fam. rewrite Forall_forall in H. apply H.
Qed.

(** X3. A family name of the table followed by a blank and a number
    resolves as the family name alone does; and a family some name
    resolves to resolves to itself, except ["French Horn"], which does not
    resolve. So the names [_find_generic_name] proposes resolve to the
    family they were built from, or to nothing. *)
Theorem numbering_keeps_family :
  (∀ fam n, fam ∈ families →
     resolve (fam +:+ " " +:+ str n) = resolve fam) ∧
  (∀ name fam, resolve name = Some fam →
     resolve fam = if decide (fam = "French Horn") then None else Some fam).
Proof.
  split.
  - intros fam n Hfam. apply resolve_numbered; [done|apply str_digits].
  - apply resolve_resolved.
Qed.

(** ** Text around a name *)

(** X4. Text around a name never unmatches it: when a name resolves, every
    name it occurs in resolves too; and such a name resolves to the same
    family when no pattern before the matching one occurs in it. *)
Theorem surrounding_text (name name' : string) :
  substring_of name name' →
  (is_Some (resolve name) → is_Some (resolve name')) ∧
  (∀ i pat fam,
     instrument_swap_map !! i = Some (pat, fam) → substring_of pat name →
     (∀ j e, j < i → instrument_swap_map !! j = Some e →
             ¬ substring_of e.1 name') →
     resolve name' = Some fam).
Proof.
  intros Hsub. split.
  - intros [fam (i & pat & Hi & Hpat & _)%resolve_from_Some].
    destruct (resolve name') as [fam'|] eqn:E; [by eexists|].
    unfold resolve in E. rewrite resolve_from_None in E.
    destruct (E pat fam); [by eapply list_elem_of_lookup_2|].
    by eapply substring_of_trans.
  - intros i pat fam Hi Hpat Hmin. apply resolve_from_Some.
    exists i, pat. split_and!; [done| |done]. by eapply substring_of_trans.
Qed.

(** ** Cleanup on any counter and dictionary *)

Lemma app_empty_r s : s +:+ "" = s.
Proof. induction s as [|a s IH]; unfold_app; [done|]. by rewrite IH. Qed.

Lemma cleanup_entries_shape (counter : Counter) rm :
  original_name (cleanup_entries counter rm) = original_name rm ∧
  ∃ n, n ≤ length (counted_once counter) ∧
       swap_name rm = swap_name (cleanup_entries counter rm) +:+ ones n.
Proof.
  revert rm. induction counter as [|[f c] counter IH]; intros rm.
  - split; [done|]. exists 0. split; [lia|]. simpl. by rewrite app_empty_r.
  - rewrite cleanup_entries_cons. unfold counted_once. simpl.
    destruct (Nat.eqb_spec c 1) as [->|Hc].
    + destruct (String.eqb_spec (swap_name rm) (f +:+ " 1")) as [Hhit|Hmiss].
      * rewrite cleanup_entry_hit by done.
        destruct (IH (set_swap_name f rm)) as [Ho (n & Hn & Hs)]. split; [done|].
        exists (S n). split; [rewrite fmap_cons; simpl; unfold counted_once in Hn; lia|].
        simpl in *. by rewrite <-app_assoc_str, <-Hs.
      * rewrite cleanup_entry_miss by done.
        destruct (IH rm) as [Ho (n & Hn & Hs)]. split; [done|].
        exists n. split; [rewrite fmap_cons; simpl; unfold counted_once in Hn; lia|done].
    + destruct (IH rm) as [Ho (n & Hn & Hs)]. split; [done|].
      exists n. split; [done|done].
Qed.

Lemma cleanup_entries_none_once (counter : Counter) rm :
  counted_once counter = [] → cleanup_entries counter rm = rm.
Proof.
  intros H. apply cleanup_entries_miss. intros g Hg.
  assert (g ∈ counted_once counter) as Hin; [|rewrite H in Hin; by apply elem_of_nil in Hin].
  unfold counted_once. apply list_elem_of_fmap. exists (g, 1). split; [done|].
  apply list_elem_of_In, filter_In. split; [by apply list_elem_of_In|done].
Qed.

(** X5. On any counter and dictionary, [_cleanup] keeps the keys of the
    dictionary and every original name, and a proposed name only loses
    trailing [" 1"], at most one for each family the counter counts once;
    an entry whose proposed name is not such a family followed by [" 1"]
    is kept as it is, and a counter that counts no family once leaves the
    dictionary as it is. *)
Theorem cleanup_keeps_plan (counter : Counter) (d : rename_dict) :
  dom (_cleanup counter d) = dom d ∧
  (∀ i rm', _cleanup counter d !! i = Some rm' →
     ∃ rm n, d !! i = Some rm ∧ original_name rm' = original_name rm ∧
             n ≤ length (counted_once counter) ∧
             swap_name rm = swap_name rm' +:+ ones n) ∧
  (∀ i rm, d !! i = Some rm →
     (∀ g, g ∈ counted_once counter → swap_name rm ≠ g +:+ " 1") →
     _cleanup counter d !! i = Some rm) ∧
  (counted_once counter = [] → _cleanup counter d = d).
Proof.
  rewrite cleanup_fmap. split_and!.
  - apply dom_fmap_L.
  - intros i rm'. rewrite lookup_fmap.
    destruct (d !! i) as [rm|]; [|done]. simpl. intros [= <-].
    destruct (cleanup_entries_shape counter rm) as [Ho (n & Hn & Hs)].
    by exists rm, n.
  - intros i rm Hi Hmiss. rewrite lookup_fmap, Hi. simpl. f_equal.
    apply cleanup_entries_miss. intros g Hg. apply Hmiss.
    unfold counted_once. apply list_elem_of_fmap. exists (g, 1). split; [done|].
    apply list_elem_of_In, filter_In. split; [by apply list_elem_of_In|done].
  - intros Hnone. rewrite <-(map_fmap_id d) at 2. apply map_fmap_ext.
    intros i rm _. by apply cleanup_entries_none_once.
Qed.

(** ** Discovery, read by read *)

Lemma until_unlabelled_all rs : all_labelled rs → until_unlabelled rs = rs.
Proof.
  induction 1 as [|r rs [name Hr] _ IH]; [done|]. simpl. by rewrite Hr, IH.
Qed.

Lemma until_unlabelled_app rs1 rs2 :
  all_labelled rs1 →
  until_unlabelled (rs1 ++ rs2) = rs1 ++ until_unlabelled rs2.
Proof.
  induction 1 as [|r rs [name Hr] _ IH]; [done|]. simpl. by rewrite Hr, IH.
Qed.

Lemma until_unlabelled_app_stop rs1 rs2 :
  ¬ all_labelled rs1 →
  until_unlabelled (rs1 ++ rs2) = until_unlabelled rs1.
Proof.
  induction rs1 as [|r rs IH]; intros H.
  - destruct H. constructor.
  - simpl. destruct r.2.2 as [name|] eqn:Hr; [|done]. f_equal. apply IH.
    intros Hrs. apply H. constructor; [by eexists|done].
Qed.


Lemma reads_nil P : reads_until_unlabelled (mret tt) [] P.
Proof. intros s. split_and!; [done| |done]. split; [constructor|done]. Qed.

Lemma reads_bind (m1 m2 : M unit) rs1 rs2 P :
  reads_until_unlabelled m1 rs1 P → reads_until_unlabelled m2 rs2 P →
  reads_until_unlabelled (m1 ;; m2) (rs1 ++ rs2) P.
Proof.
  intros H1 H2 s. rewrite bind_unfold.
  destruct (H1 s) as (Hs & Hr & He).
  destruct (m1 s) as [[[]|e] s1]; simpl in *.
  - assert (all_labelled rs1) as Hall by (by apply Hr).
    rewrite until_unlabelled_all in Hs by done. subst s1.
    destruct (H2 (fold_left record_read rs1 s)) as (Hs2 & Hr2 & He2).
    split_and!.
    + by rewrite Hs2, until_unlabelled_app, fold_left_app.
    + rewrite Hr2. unfold all_labelled. rewrite Forall_app. tauto.
    + done.
  - assert (¬ all_labelled rs1) as Hnot.
    { intros Hall. by apply Hr in Hall. }
    split_and!.
    + by rewrite until_unlabelled_app_stop.
    + split; [done|]. unfold all_labelled. rewrite Forall_app. tauto.
    + done.
Qed.

Lemma reads_for_each {X} (xs : list X) body (f : X → list read) P :
  (∀ x, reads_until_unlabelled (body x) (f x) P) →
  reads_until_unlabelled (for_each xs body) (xs ≫= f) P.
Proof.
  intros Hbody. induction xs as [|x xs IH]; [apply reads_nil|].
  rewrite bind_cons. simpl. by apply reads_bind.
Qed.

Lemma reads_record_generic_name k element_id name :
  reads_until_unlabelled (record_generic_name k element_id name)
    [(k, (element_id, name))] (λ e, e = TypeError).
Proof.
  intros s. destruct name as [name|].
  - rewrite record_generic_name_Some. simpl. split_and!; [done| |done].
    split; [|done]. intros _. repeat constructor. by eexists.
  - rewrite record_generic_name_None. simpl. split_and!; [done| |congruence].
    split; [done|]. intros [[? [=]] _]%Forall_cons.
Qed.

Lemma reads_weaken (m : M unit) rs (P Q : exn → Prop) :
  (∀ e, P e → Q e) →
  reads_until_unlabelled m rs P → reads_until_unlabelled m rs Q.
Proof. intros HPQ H s. destruct (H s) as (? & ? & ?). split_and!; auto. Qed.

Lemma reads_discover_score_instrument si :
  reads_until_unlabelled (discover_score_instrument si)
    [(Instrument, (get "id" si, instrument_label si))] discovery_error.
Proof.
  unfold discover_score_instrument, instrument_label.
  destruct (find "instrument-name" si) as [c|]; simpl.
  - eapply reads_weaken; [|apply reads_record_generic_name]. by left.
  - intros s. unfold raise. simpl. split_and!; [done| |].
    + split; [done|]. intros [[? [=]] _]%Forall_cons.
    + intros e [= <-]. by right.
Qed.

Lemma bind_singleton {A B} (g : A → B) (l : list A) :
  l ≫= (λ x, [g x]) = g <$> l.
Proof. induction l as [|x l IH]; [done|]. by rewrite bind_cons, fmap_cons, IH. Qed.

Lemma reads_discover_score_part sp :
  reads_until_unlabelled (discover_score_part sp) (reads_of sp) discovery_error.
Proof.
  unfold discover_score_part, reads_of. apply reads_bind.
  - unfold part_labels. rewrite <-list_fmap_compose, <-bind_singleton.
    apply reads_for_each. intros part_name.
    eapply reads_weaken; [|apply reads_record_generic_name]. by left.
  - unfold instrument_labels. rewrite <-list_fmap_compose, <-bind_singleton.
    apply reads_for_each. intros si. apply reads_discover_score_instrument.
Qed.

Lemma reads_discovery root :
  is_Some (find "part-list" root) →
  reads_until_unlabelled (find_generic_instrument_names root) (reads root)
    discovery_error.
Proof.
  intros [part_list Hpl]. unfold find_generic_instrument_names, reads, score_parts.
  rewrite Hpl. apply reads_for_each. intros sp. apply reads_discover_score_part.
Qed.

(** X6. Without part list, discovery raises the attribute error at once.
    With a part list, it reads the entities in the order of the traversal
    and stops at the first one without label: the manager it leaves holds
    the records of the reads before that one, whether it returns or
    raises; it returns exactly when every read has a label; and it raises
    nothing but the type error and the attribute error. *)
Theorem discovery_stops_at_first_unlabelled (root : element)
    (s : InstrumentManager) :
  (find "part-list" root = None →
   find_generic_instrument_names root s = (Raise AttributeError, s)) ∧
  (is_Some (find "part-list" root) →
   (find_generic_instrument_names root s).2 =
     fold_left record_read (until_unlabelled (reads root)) s ∧
   ((find_generic_instrument_names root s).1 = Ok tt ↔
      all_labelled (reads root)) ∧
   (∀ e, (find_generic_instrument_names root s).1 = Raise e →
         e = TypeError ∨ e = AttributeError)).
Proof.
  split.
  - apply find_generic_instrument_names_no_part_list.
  - intros Hpl. apply (reads_discovery root Hpl s).
Qed.

(** ** Renaming with dictionaries that agree with the document *)

(** A loop that returns has a body that returns on every tagged child. *)
Lemma for_each_child_Ok_inv t body cs :
  (for_each_child t body cs).1 = Ok tt →
  Forall (λ c, (body c).1 = Ok tt) (List.filter (has_tag t) cs).
Proof.
  intros HOk. apply Forall_forall.
  intros c [Hc Ht]%list_elem_of_In%filter_In. apply list_elem_of_In in Hc.
  destruct (body c).1 as [[]|e] eqn:E; [done|].
  pose proof (for_each_child_raises t body cs c Hc Ht) as H.
  rewrite E, HOk in H. by specialize (H eq_refl).
Qed.

Lemma rename_element_agrees (elem : element) (d : rename_dict) tag_name :
  agrees d tag_name elem → writes d tag_name elem →
  _rename_element elem d tag_name = (Ok tt, relabel_element d tag_name elem).
Proof.
  unfold agrees, writes, _rename_element, relabel_element, on_children.
  destruct (d !! get "id" elem) as [rm|]; [|done]. intros H Hw.
  destruct (findall tag_name elem) as [|c cs] eqn:E.
  - unfold findall in E. rewrite for_each_child_none by done.
    rewrite map_children_eq. f_equal. f_equal. symmetry.
    apply map_tagged_id. intros c Hc Ht.
    assert (c ∈ List.filter (has_tag tag_name) (children elem)) as Hin.
    { apply list_elem_of_In, filter_In. split; [by apply list_elem_of_In|done]. }
    rewrite E in Hin. by apply elem_of_nil in Hin.
  - unfold findall in E.
    rewrite rename_labels_Ok; [done|by apply Hw|]. rewrite E. by apply H.
Qed.

(** Renaming an element returns only when its labels carry the original
    name and the proposed name can be written. *)
Lemma rename_element_Ok_inv (elem : element) (d : rename_dict) tag_name :
  (_rename_element elem d tag_name).1 = Ok tt →
  agrees d tag_name elem ∧ writes d tag_name elem.
Proof.
  unfold agrees, writes, _rename_element.
  destruct (d !! get "id" elem) as [rm|]; [|done].
  rewrite on_children_fst. intros H%for_each_child_Ok_inv.
  fold (findall tag_name elem) in H. split.
  - intros ? [= <-]. eapply Forall_impl; [exact H|].
    intros c Hc. simpl in Hc. by apply rename_tag_Ok in Hc as [? _].
  - intros ? [= <-] Hne. destruct (findall tag_name elem) as [|c cs]; [done|].
    apply Forall_cons in H as [Hc _]. by apply rename_tag_Ok in Hc as [_ ?].
Qed.

Lemma relabel_element_tag (d : rename_dict) tag_name elem :
  tag (relabel_element d tag_name elem) = tag elem.
Proof. unfold relabel_element. by destruct (d !! get "id" elem). Qed.

Lemma relabel_element_id (d : rename_dict) tag_name elem :
  get "id" (relabel_element d tag_name elem) = get "id" elem.
Proof. unfold relabel_element. by destruct (d !! get "id" elem). Qed.

Lemma relabel_score_part_tag (parts instruments : rename_dict) sp :
  tag (relabel_score_part parts instruments sp) = tag sp.
Proof. unfold relabel_score_part. simpl. apply relabel_element_tag. Qed.

Lemma relabel_score_part_id (parts instruments : rename_dict) sp :
  get "id" (relabel_score_part parts instruments sp) = get "id" sp.
Proof.
  unfold relabel_score_part, get. simpl. apply (relabel_element_id parts).
Qed.

Lemma with_text_tag s c : tag (with_text s c) = tag c.
Proof. done. Qed.

Lemma findall_relabel_element_other (d : rename_dict) t t' elem :
  t ≠ t' →
  findall t' (relabel_element d t elem) = findall t' elem.
Proof.
  intros Hne. unfold relabel_element, findall.
  destruct (d !! get "id" elem); [|done]. simpl.
  by apply filter_map_tagged_other.
Qed.

Lemma rename_score_part_agrees (parts instruments : rename_dict) sp :
  agrees parts "part-name" sp → writes parts "part-name" sp →
  (∀ si, si ∈ findall "score-instrument" sp →
         agrees instruments "instrument-name" si ∧
         writes instruments "instrument-name" si) →
  rename_score_part parts instruments sp =
  (Ok tt, relabel_score_part parts instruments sp).
Proof.
  intros HP HPw HI. unfold rename_score_part, relabel_score_part.
  rewrite rename_element_agrees by done. unfold on_children.
  assert (∀ si, si ∈ children (relabel_element parts "part-name" sp) →
                has_tag "score-instrument" si = true →
                _rename_element si instruments "instrument-name" =
                (Ok tt, relabel_element instruments "instrument-name" si)) as H.
  { intros si Hsi Ht.
    assert (si ∈ findall "score-instrument" sp) as Hin.
    { rewrite <-(findall_relabel_element_other parts "part-name") by done.
      apply list_elem_of_In, filter_In. split; [by apply list_elem_of_In|done]. }
    destruct (HI si Hin). by apply rename_element_agrees. }
  rewrite for_each_child_Ok.
  - f_equal. rewrite map_children_eq. f_equal. apply map_tagged_ext.
    intros c Hc Ht. by rewrite H.
  - apply Forall_forall. intros c [Hc Ht]%list_elem_of_In%filter_In.
    rewrite H; [done|by apply list_elem_of_In|done].
Qed.

Lemma with_first_child_eq t body cs :
  with_first_child t body cs =
  (match head (List.filter (has_tag t) cs) with
   | Some c => (body c).1
   | None => Raise AttributeError
   end, map_first t (λ c, (body c).2) cs).
Proof.
  induction cs as [|c cs IH]; [done|]. simpl.
  destruct (has_tag t c) eqn:E; simpl.
  - by destruct (body c).
  - rewrite IH. done.
Qed.

Lemma map_first_ext t f g cs c :
  head (List.filter (has_tag t) cs) = Some c → f c = g c →
  map_first t f cs = map_first t g cs.
Proof.
  induction cs as [|c0 cs IH]; [done|]. simpl.
  destruct (has_tag t c0) eqn:E; simpl.
  - intros [= ->] ->. done.
  - intros Hc Hfg. by rewrite IH.
Qed.

(** Renaming a score part returns only when the part names and the
    instrument names carry the original names and the proposed names can be
    written. *)
Lemma rename_score_part_Ok_inv (parts instruments : rename_dict) sp :
  (rename_score_part parts instruments sp).1 = Ok tt →
  (agrees parts "part-name" sp ∧ writes parts "part-name" sp) ∧
  ∀ si, si ∈ findall "score-instrument" sp →
        agrees instruments "instrument-name" si ∧
        writes instruments "instrument-name" si.
Proof.
  unfold rename_score_part.
  pose proof (rename_element_findall_other sp parts "part-name"
                "score-instrument" ltac:(done)) as Hsi.
  pose proof (rename_element_Ok_inv sp parts "part-name") as HP.
  destruct (_rename_element sp parts "part-name") as [[[]|e1] sp1];
    simpl in *; [|done].
  rewrite on_children_fst. intros H%for_each_child_Ok_inv.
  split; [by apply HP|]. intros si Hin. rewrite <-Hsi in Hin.
  rewrite Forall_forall in H. by apply rename_element_Ok_inv, H.
Qed.

Lemma rename_instruments_consistent (root : element)
    (parts instruments : rename_dict) :
  is_Some (find "part-list" root) → consistent parts instruments root →
  writable parts instruments root →
  rename_instruments root parts instruments =
  (Ok tt, relabel parts instruments root).
Proof.
  intros [part_list Hpl] Hcons Hw.
  unfold rename_instruments, relabel, on_children.
  rewrite with_first_child_eq. unfold find, findall in Hpl. rewrite Hpl.
  assert (∀ sp, sp ∈ children part_list → has_tag "score-part" sp = true →
            rename_score_part parts instruments sp =
            (Ok tt, relabel_score_part parts instruments sp)) as H.
  { intros sp Hsp Ht.
    assert (sp ∈ score_parts root) as Hin.
    { unfold score_parts, find, findall. rewrite Hpl.
      apply list_elem_of_In, filter_In. split; [by apply list_elem_of_In|done]. }
    destruct (Hcons sp Hin) as [HP HI]. destruct (Hw sp Hin) as [HPw HIw].
    apply rename_score_part_agrees; [done..|]. intros si Hsi. split; auto. }
  assert (for_each_child "score-part" (rename_score_part parts instruments)
            (children part_list) =
          (Ok tt, map_tagged "score-part"
                    (relabel_score_part parts instruments) (children part_list)))
    as Hloop.
  { rewrite for_each_child_Ok.
    - f_equal. apply map_tagged_ext. intros c Hc Ht. by rewrite H.
    - apply Forall_forall. intros c [Hc Ht]%list_elem_of_In%filter_In.
      rewrite H; [done|by apply list_elem_of_In|done]. }
  rewrite Hloop. simpl. f_equal. rewrite map_children_eq. f_equal.
  apply (map_first_ext _ _ _ _ part_list); [done|]. by rewrite Hloop.
Qed.

(** Renaming returns only when the plans agree with the document and every
    proposed name it writes is XML compatible. *)
Lemma rename_instruments_Ok_consistent (root : element)
    (parts instruments : rename_dict) root' :
  rename_instruments root parts instruments = (Ok tt, root') →
  is_Some (find "part-list" root) ∧ consistent parts instruments root ∧
  writable parts instruments root.
Proof.
  intros HOk. destruct (find "part-list" root) as [part_list|] eqn:Hpl.
  2:{ rewrite rename_instruments_no_part_list in HOk by done. done. }
  split; [by eexists|].
  pose proof (rename_instruments_fst root parts instruments part_list Hpl)
    as Hfst.
  rewrite HOk in Hfst. symmetry in Hfst. simpl in Hfst.
  apply for_each_child_Ok_inv in Hfst. rewrite Forall_forall in Hfst.
  assert (∀ sp, sp ∈ score_parts root →
            (rename_score_part parts instruments sp).1 = Ok tt) as H.
  { intros sp Hsp. apply Hfst. unfold score_parts in Hsp.
    by rewrite Hpl in Hsp. }
  split; intros sp Hsp;
    destruct (rename_score_part_Ok_inv parts instruments sp (H sp Hsp))
      as [[HP HPw] HI]; (split; [done|]); intros si Hsi; by apply HI.
Qed.

Lemma rename_instruments_Ok_iff (root : element)
    (parts instruments : rename_dict) root' :
  rename_instruments root parts instruments = (Ok tt, root') ↔
  is_Some (find "part-list" root) ∧ consistent parts instruments root ∧
  writable parts instruments root ∧ root' = relabel parts instruments root.
Proof.
  split.
  - intros HOk.
    destruct (rename_instruments_Ok_consistent _ _ _ _ HOk) as (Hpl & Hc & Hw).
    split_and!; [done..|].
    rewrite rename_instruments_consistent in HOk by done. congruence.
  - intros (Hpl & Hc & Hw & ->). by apply rename_instruments_consistent.
Qed.

(** ** The entities of a relabelled document *)

Lemma head_filter_map_first t f cs :
  (∀ c, tag (f c) = tag c) →
  head (List.filter (has_tag t) (map_first t f cs)) =
  f <$> head (List.filter (has_tag t) cs).
Proof.
  intros Htag. induction cs as [|c cs IH]; [done|]. simpl.
  destruct (has_tag t c) eqn:E; simpl.
  - by rewrite (has_tag_ext t (f c) c (Htag c)), E.
  - by rewrite E.
Qed.

Lemma score_parts_relabel (parts instruments : rename_dict) root :
  score_parts (relabel parts instruments root) =
  relabel_score_part parts instruments <$> score_parts root.
Proof.
  unfold score_parts, relabel, find, findall. simpl.
  rewrite head_filter_map_first by done.
  destruct (head (List.filter (has_tag "part-list") (children root)))
    as [part_list|]; [|done]. simpl.
  apply filter_map_tagged. intros c. apply relabel_score_part_tag.
Qed.

Lemma findall_relabel_element (d : rename_dict) t elem :
  findall t (relabel_element d t elem) =
  match d !! get "id" elem with
  | Some rm => with_text (swap_name rm) <$> findall t elem
  | None => findall t elem
  end.
Proof.
  unfold relabel_element, findall.
  destruct (d !! get "id" elem); [|done]. simpl.
  by apply filter_map_tagged.
Qed.

Lemma part_labels_relabel (parts instruments : rename_dict) sp :
  part_labels (relabel_score_part parts instruments sp) =
  relabelled parts (part_labels sp).
Proof.
  unfold part_labels, relabelled. rewrite relabel_score_part_id.
  unfold relabel_score_part at 1, findall. simpl.
  rewrite filter_map_tagged_other; [|done|intros; apply relabel_element_tag].
  change (List.filter (has_tag "part-name")
            (children (relabel_element parts "part-name" sp)))
    with (findall "part-name" (relabel_element parts "part-name" sp)).
  rewrite findall_relabel_element, <-list_fmap_compose.
  destruct (parts !! get "id" sp) as [rm|] eqn:E.
  - rewrite <-list_fmap_compose. apply list_fmap_ext. intros n c _. simpl.
    by rewrite E.
  - apply list_fmap_ext. intros n c _. simpl. by rewrite E.
Qed.

Lemma instrument_label_relabel (instruments : rename_dict) si :
  is_Some (instrument_label si) →
  instrument_label (relabel_element instruments "instrument-name" si) =
  match instruments !! get "id" si with
  | Some rm => Some (swap_name rm)
  | None => instrument_label si
  end.
Proof.
  unfold instrument_label, find. rewrite findall_relabel_element.
  destruct (instruments !! get "id" si) as [rm|]; [|done].
  destruct (findall "instrument-name" si) as [|c cs]; [|done].
  simpl. by intros [? [=]].
Qed.

Lemma instrument_labels_relabel (parts instruments : rename_dict) sp :
  labelled (instrument_labels sp) →
  instrument_labels (relabel_score_part parts instruments sp) =
  relabelled instruments (instrument_labels sp).
Proof.
  unfold labelled, instrument_labels, relabelled. rewrite Forall_fmap.
  intros Hlab. unfold relabel_score_part at 1, findall. simpl.
  rewrite filter_map_tagged by (intros; apply relabel_element_tag).
  change (List.filter (has_tag "score-instrument")
            (children (relabel_element parts "part-name" sp)))
    with (findall "score-instrument" (relabel_element parts "part-name" sp)).
  rewrite findall_relabel_element_other by done.
  rewrite <-!list_fmap_compose. apply Forall_fmap_ext_1.
  eapply Forall_impl; [exact Hlab|]. intros si Hsi. simpl in *.
  by rewrite relabel_element_id, instrument_label_relabel.
Qed.

Lemma relabelled_app d es1 es2 :
  relabelled d (es1 ++ es2) = relabelled d es1 ++ relabelled d es2.
Proof. unfold relabelled. apply fmap_app. Qed.

Lemma entities_relabel (k : kind) (parts instruments : rename_dict) root :
  labelled (entities Instrument root) →
  entities k (relabel parts instruments root) =
  relabelled (match k with Part => parts | Instrument => instruments end)
    (entities k root).
Proof.
  unfold entities. rewrite score_parts_relabel. rewrite labelled_bind.
  induction (score_parts root) as [|sp sps IH]; [done|].
  rewrite Forall_cons. intros [Hsp Hsps].
  rewrite fmap_cons, !bind_cons, relabelled_app, (IH Hsps). f_equal.
  destruct k; simpl.
  - apply part_labels_relabel.
  - by apply instrument_labels_relabel.
Qed.

Lemma entities_relabel_Part (parts instruments : rename_dict) root :
  entities Part (relabel parts instruments root) =
  relabelled parts (entities Part root).
Proof.
  unfold entities. rewrite score_parts_relabel.
  induction (score_parts root) as [|sp sps IH]; [done|].
  rewrite fmap_cons, !bind_cons, relabelled_app, IH. f_equal.
  apply part_labels_relabel.
Qed.

Lemma refused_kind rm c e :
  refused rm c e →
  e = AssertionError "Original name mismatch" ∨ e = ValueError.
Proof. intros [[-> _]|[-> _]]; auto. Qed.

(** X7. What [rename_instruments] does with any two dictionaries. Without
    part list it raises the attribute error and leaves the document. With a
    part list it returns exactly when the dictionaries are consistent with
    the document and every proposed name it has to write is XML compatible,
    and it then leaves the relabelled document; it raises nothing but the
    failed assertion and the [ValueError] of a refused write: the failed
    assertion when the proposed names can be written and the dictionaries
    are not consistent, the refused write when they are consistent and some
    proposed name cannot be written. Dictionaries whose proposed names are
    all XML compatible can be written. The part entities of the relabelled
    document are those of the document, each with the proposed name of the
    entry of its id when there is one; so are the instrument entities when
    every score instrument has a label. *)
Theorem rename_instruments_outcome (root : element)
    (parts instruments : rename_dict) :
  (find "part-list" root = None →
   rename_instruments root parts instruments = (Raise AttributeError, root)) ∧
  (is_Some (find "part-list" root) →
   (∀ root',
      rename_instruments root parts instruments = (Ok tt, root') ↔
      consistent parts instruments root ∧ writable parts instruments root ∧
      root' = relabel parts instruments root) ∧
   (∀ e, (rename_instruments root parts instruments).1 = Raise e →
         e = AssertionError "Original name mismatch" ∨ e = ValueError) ∧
   (writable parts instruments root → ¬ consistent parts instruments root →
    (rename_instruments root parts instruments).1 =
    Raise (AssertionError "Original name mismatch")) ∧
   (consistent parts instruments root → ¬ writable parts instruments root →
    (rename_instruments root parts instruments).1 = Raise ValueError)) ∧
  (compatible parts → compatible instruments →
   writable parts instruments root) ∧
  entities Part (relabel parts instruments root) =
    relabelled parts (entities Part root) ∧
  (labelled (entities Instrument root) →
   entities Instrument (relabel parts instruments root) =
     relabelled instruments (entities Instrument root)).
Proof.
  split_and!.
  - apply rename_instruments_no_part_list.
  - intros Hpl. split_and!.
    + intros root'. rewrite rename_instruments_Ok_iff. tauto.
    + intros e [[Hnone _]|(sp & Hsp & H)]%rename_instruments_raise.
      { rewrite Hnone in Hpl. by destruct Hpl. }
      destruct H as [H|(si & Hsi & H)];
        apply rename_element_raise in H as (rm & c & _ & _ & H);
        by eapply refused_kind.
    + intros Hw Hnot.
      destruct (rename_instruments root parts instruments)
        as [[[]|e] root'] eqn:E.
      * by apply rename_instruments_Ok_consistent in E as (_ & ? & _).
      * simpl. f_equal.
        apply (rename_instruments_raise_writable root parts instruments);
          [done..|by rewrite E].
    + intros Hc Hnot.
      destruct (rename_instruments root parts instruments)
        as [[[]|e] root'] eqn:E.
      * by apply rename_instruments_Ok_consistent in E as (_ & _ & ?).
      * simpl. f_equal.
        apply (rename_instruments_raise_consistent root parts instruments);
          [done..|by rewrite E].
  - apply compatible_writable.
  - apply entities_relabel_Part.
  - intros Hlab. by apply (entities_relabel Instrument).
Qed.

(** ** The names normalisation gives *)

Lemma relabelled_plan es :
  NoDup es.*1 → labelled es →
  relabelled (_cleanup (record_entities es (∅, [])).2
                       (record_entities es (∅, [])).1) es =
  normal_names es.
Proof.
  intros Hnd Hlab. apply list_eq. intros n. unfold relabelled, normal_names.
  rewrite list_lookup_fmap, list_lookup_imap.
  destruct (es !! n) as [[i label]|] eqn:Hn; [|done]. simpl. f_equal. f_equal.
  destruct (labelled_lookup es n i label Hlab Hn) as [name ->].
  unfold normal_name, family. simpl.
  destruct (resolve name) as [fam|] eqn:Hres.
  - rewrite (cleaned_lookup es Hnd n i name fam Hn Hres). simpl.
    by rewrite counts_occurrences.
  - destruct (_ !! i) as [rm|] eqn:E; [|done].
    apply cleaned_lookup_inv in E as (n' & name' & fam & Hn' & Hres' & _).
    assert (n' = n) as -> by (by eapply (ids_distinct_lookup es Hnd)).
    congruence.
Qed.

(** After discovery and cleanup on a document with distinct ids and one
    label per score instrument, the plans agree with the document. *)
Lemma discovered_plans_consistent tree s :
  find_generic_instrument_names tree (__init__ tree) = (Ok tt, s) →
  NoDup (entities Part tree).*1 → NoDup (entities Instrument tree).*1 →
  single_named tree →
  consistent (part_rename_dict (cleanup_names s).2)
             (instrument_rename_dict (cleanup_names s).2) tree.
Proof.
  intros Hs HP HI Hsingle sp Hsp.
  change (part_rename_dict (cleanup_names s).2)
    with (dict_of Part (cleanup_names s).2).
  change (instrument_rename_dict (cleanup_names s).2)
    with (dict_of Instrument (cleanup_names s).2).
  rewrite !cleanup_names_dict.
  destruct (discover_init Part tree s Hs) as (HdP & HcP & _).
  destruct (discover_init Instrument tree s Hs) as (HdI & HcI & _).
  rewrite HdP, HcP, HdI, HcI. split.
  - intros rm (n & name & fam & Hn & _ & ->)%cleaned_lookup_inv.
    apply Forall_forall. intros c Hc. simpl.
    eapply (NoDup_fst_eq _ (get "id" sp)); [exact HP| |].
    + apply (elem_of_score_parts_entities Part tree sp); [done|].
      simpl. unfold part_labels. apply list_elem_of_fmap. by exists c.
    + by eapply list_elem_of_lookup_2.
  - intros si Hsi rm (n & name & fam & Hn & _ & ->)%cleaned_lookup_inv.
    simpl. assert (instrument_label si = Some name) as <-.
    { eapply (NoDup_fst_eq _ (get "id" si)); [exact HI| |].
      + apply (elem_of_score_parts_entities Instrument tree sp); [done|].
        simpl. unfold instrument_labels. apply list_elem_of_fmap. by exists si.
      + by eapply list_elem_of_lookup_2. }
    by apply (Hsingle sp).
Qed.

Lemma process_xml_relabel tree :
  well_labelled tree →
  NoDup (entities Part tree).*1 → NoDup (entities Instrument tree).*1 →
  single_named tree →
  let s0 := (cleanup_names (discovered tree (__init__ tree))).2 in
  process_xml (__init__ tree) =
  (Ok tt, set_root (relabel (part_rename_dict s0) (instrument_rename_dict s0) tree)
            s0).
Proof.
  intros Hwell HP HI Hsingle s0.
  assert (find_generic_instrument_names tree (__init__ tree) =
          (Ok tt, discovered tree (__init__ tree))) as Hs
    by (by apply discover_Ok).
  pose proof (discover_root tree (__init__ tree)) as Hroot.
  rewrite Hs in Hroot. cbn [snd] in Hroot.
  change (root (__init__ tree)) with tree in Hroot.
  rewrite process_xml_unfold.
  unfold call_find_generic_instrument_names.
  change (root (__init__ tree)) with tree. rewrite Hs.
  unfold call_rename_instruments. rewrite cleanup_names_root, Hroot.
  rewrite rename_instruments_consistent; [done|apply Hwell| |].
  - by apply discovered_plans_consistent.
  - by apply (discovered_plans_writable tree).
Qed.

Lemma process_xml_entities tree k :
  well_labelled tree →
  NoDup (entities Part tree).*1 → NoDup (entities Instrument tree).*1 →
  single_named tree →
  entities k (root (process_xml (__init__ tree)).2) =
  normal_names (entities k tree).
Proof.
  intros Hwell HP HI Hsingle. rewrite process_xml_relabel by done.
  cbn [snd]. unfold set_root at 1. cbn [root].
  rewrite entities_relabel by apply Hwell.
  assert (find_generic_instrument_names tree (__init__ tree) =
          (Ok tt, discovered tree (__init__ tree))) as Hs
    by (by apply discover_Ok).
  destruct (discover_init k tree _ Hs) as (Hd & Hc & Hlab).
  replace (match k with
           | Part => part_rename_dict _
           | Instrument => instrument_rename_dict _
           end)
    with (dict_of k (cleanup_names (discovered tree (__init__ tree))).2)
    by (by destruct k).
  rewrite cleanup_names_dict, Hd, Hc.
  apply relabelled_plan; [by destruct k|done].
Qed.

(** X8. On a document that discovery can read to the end, with distinct
    ids in each kind and one label per score instrument, [process_xml]
    returns; every entity that resolves then carries the bare name of its
    family when the family occurs once in its kind, and the family name
    followed by its rank among the entities of the family otherwise; an
    entity that does not resolve keeps its label; and the document is the
    one relabelled with the two dictionaries of the manager. *)
Theorem process_xml_renames (tree : element) :
  well_labelled tree →
  NoDup (entities Part tree).*1 → NoDup (entities Instrument tree).*1 →
  single_named tree →
  ∃ s, process_xml (__init__ tree) = (Ok tt, s) ∧
       (∀ k, entities k (root s) = normal_names (entities k tree)) ∧
       root s =
         relabel (part_rename_dict s) (instrument_rename_dict s) tree.
Proof.
  intros Hwell HP HI Hsingle.
  pose proof (process_xml_relabel tree Hwell HP HI Hsingle) as H.
  cbv zeta in H. eexists. split; [exact H|]. split.
  - intros k. rewrite <-(process_xml_entities tree k) by done. by rewrite H.
  - done.
Qed.

(** ** Normal names are stable *)

Lemma take_imap {A B} (f : nat → A → B) l m :
  take m (imap f l) = imap f (take m l).
Proof.
  revert f m. induction l as [|x l IH]; intros f [|m]; [done..|].
  simpl. by rewrite IH.
Qed.

Lemma family_normal_name es n e :
  family (normal_name es n e) = family e.2 ≫= resolve.
Proof.
  unfold normal_name. destruct (family e.2) as [fam|] eqn:E; [|done].
  simpl. unfold family in E. destruct e.2 as [name|]; [|done]. simpl in E.
  case_decide; [done|]. apply resolve_numbered; [|apply str_digits].
  by eapply resolve_family.
Qed.

Lemma family_normal_name_Some es n e fam :
  family (normal_name es n e) = Some fam ↔
  family e.2 = Some fam ∧ fam ≠ "French Horn".
Proof.
  rewrite family_normal_name. destruct (family e.2) as [g|] eqn:E; simpl.
  - unfold family in E. destruct e.2 as [name|]; [|done]. simpl in E.
    rewrite (resolve_resolved name g E). case_decide as Hg; split.
    + done.
    + intros [[= ->] ?]. done.
    + intros [= ->]. done.
    + by intros [[= ->] _].
  - split; [done|]. by intros [[=] _].
Qed.

Lemma occurrences_imap_normal es fam (g : nat → nat) l :
  occurrences fam (imap (λ n e, (e.1, normal_name es (g n) e)) l) =
  if decide (fam = "French Horn") then 0 else occurrences fam l.
Proof.
  revert g. induction l as [|e l IH]; intros g.
  - by case_decide.
  - rewrite imap_cons, !occurrences_cons. simpl.
    change ((λ n e0, (e0.1, normal_name es (g n) e0)) ∘ S)
      with (λ n (e0 : option string * option string),
              (e0.1, normal_name es ((g ∘ S) n) e0)).
    rewrite IH. case_decide as Hfh.
    + rewrite bool_decide_false; [done|].
      rewrite family_normal_name_Some. tauto.
    + f_equal.
      rewrite (bool_decide_ext _ (family e.2 = Some fam)); [done|].
      rewrite family_normal_name_Some. tauto.
Qed.

Lemma occurrences_normal_names es fam :
  occurrences fam (normal_names es) =
  if decide (fam = "French Horn") then 0 else occurrences fam es.
Proof. apply (occurrences_imap_normal es fam id). Qed.

Lemma occurrences_take_normal_names es fam m :
  occurrences fam (take m (normal_names es)) =
  if decide (fam = "French Horn") then 0 else occurrences fam (take m es).
Proof.
  unfold normal_names. rewrite take_imap.
  apply (occurrences_imap_normal es fam id).
Qed.

(** Normalising normal names gives them again. *)
Lemma normal_names_idemp es : normal_names (normal_names es) = normal_names es.
Proof.
  apply list_eq. intros n. unfold normal_names at 1.
  rewrite list_lookup_imap.
  destruct (normal_names es !! n) as [e'|] eqn:Hn'; [|done]. simpl. f_equal.
  destruct e' as [i label']. simpl. f_equal.
  unfold normal_names in Hn'.
  apply list_lookup_imap_Some in Hn' as (e & Hn & [= -> ->]).
  fold (normal_names es).
  unfold normal_name at 1. cbn [snd].
  destruct (family (normal_name es n e)) as [fam|] eqn:E; [|done].
  apply family_normal_name_Some in E as [E Hfh].
  rewrite occurrences_normal_names, occurrences_take_normal_names.
  destruct (decide (fam = "French Horn")) as [|_]; [done|].
  unfold normal_name. by rewrite E.
Qed.

Lemma normal_names_ids es : (normal_names es).*1 = es.*1.
Proof.
  unfold normal_names. rewrite fmap_imap. apply list_eq. intros n.
  rewrite list_lookup_imap, list_lookup_fmap. by destruct (es !! n).
Qed.

Lemma normal_names_labelled es : labelled es → labelled (normal_names es).
Proof.
  unfold labelled. rewrite !Forall_forall. intros H e'.
  intros (n & e & -> & Hn)%elem_of_lookup_imap. simpl. unfold normal_name.
  destruct (family e.2); [by eexists|]. apply H. by eapply list_elem_of_lookup_2.
Qed.

(** The plan of entities that carry their normal names proposes the names
    they have. *)
Lemma normal_plan_fixed es i rm :
  normal_names es = es →
  _cleanup (record_entities es (∅, [])).2 (record_entities es (∅, [])).1 !! i =
    Some rm →
  swap_name rm = original_name rm ∧ (i, Some (original_name rm)) ∈ es.
Proof.
  intros Hfix (n & name & fam & Hn & Hres & ->)%cleaned_lookup_inv. simpl.
  split; [|by eapply list_elem_of_lookup_2].
  assert (normal_names es !! n = Some (i, Some name)) as H by (by rewrite Hfix).
  unfold normal_names in H.
  apply list_lookup_imap_Some in H as (e & Hn' & H).
  rewrite Hn in Hn'. injection Hn' as <-. injection H as H.
  unfold normal_name, family in H. simpl in H. rewrite Hres in H.
  rewrite counts_occurrences. congruence.
Qed.


(** ** Normalising twice *)

Lemma find_part_list_relabel (parts instruments : rename_dict) tree :
  is_Some (find "part-list" tree) →
  is_Some (find "part-list" (relabel parts instruments tree)).
Proof.
  unfold relabel, find, findall. simpl. intros [pl Hpl].
  rewrite head_filter_map_first by done. rewrite Hpl. by eexists.
Qed.

Lemma findall_score_instrument_relabel (parts instruments : rename_dict) sp :
  findall "score-instrument" (relabel_score_part parts instruments sp) =
  relabel_element instruments "instrument-name" <$>
    findall "score-instrument" sp.
Proof.
  unfold relabel_score_part at 1, findall. simpl.
  rewrite filter_map_tagged by (intros; apply relabel_element_tag).
  change (List.filter (has_tag "score-instrument")
            (children (relabel_element parts "part-name" sp)))
    with (findall "score-instrument" (relabel_element parts "part-name" sp)).
  by rewrite findall_relabel_element_other.
Qed.

Lemma single_named_relabel (parts instruments : rename_dict) tree :
  single_named tree → single_named (relabel parts instruments tree).
Proof.
  intros Hsingle sp' si'. rewrite score_parts_relabel.
  intros (sp & -> & Hsp)%list_elem_of_fmap.
  rewrite findall_score_instrument_relabel.
  intros (si & -> & Hsi)%list_elem_of_fmap.
  specialize (Hsingle sp si Hsp Hsi).
  unfold instrument_label, find in *. rewrite findall_relabel_element.
  destruct (instruments !! get "id" si) as [rm|]; [|done].
  rewrite Forall_fmap.
  destruct (findall "instrument-name" si) as [|c cs]; [constructor|].
  by apply Forall_forall.
Qed.

(** A document whose entities carry their normal names is a fixed point of
    [process_xml]. *)
Lemma process_xml_fixed tree :
  well_labelled tree →
  NoDup (entities Part tree).*1 → NoDup (entities Instrument tree).*1 →
  single_named tree →
  (∀ k, normal_names (entities k tree) = entities k tree) →
  ∃ s, process_xml (__init__ tree) = (Ok tt, s) ∧ root s = tree.
Proof.
  intros Hwell HP HI Hsingle Hfix.
  assert (find_generic_instrument_names tree (__init__ tree) =
          (Ok tt, discovered tree (__init__ tree))) as Hs
    by (by apply discover_Ok).
  pose proof (discover_root tree (__init__ tree)) as Hroot.
  rewrite Hs in Hroot. cbn [snd] in Hroot.
  change (root (__init__ tree)) with tree in Hroot.
  rewrite process_xml_unfold.
  unfold call_find_generic_instrument_names.
  change (root (__init__ tree)) with tree. rewrite Hs.
  unfold call_rename_instruments. rewrite cleanup_names_root, Hroot.
  assert (∀ k i rm,
    dict_of k (cleanup_names (discovered tree (__init__ tree))).2 !! i = Some rm →
    swap_name rm = original_name rm ∧
    (i, Some (original_name rm)) ∈ entities k tree) as Hplan.
  { intros k i rm. rewrite cleanup_names_dict.
    destruct (discover_init k tree _ Hs) as (Hd & Hc & _). rewrite Hd, Hc.
    apply normal_plan_fixed, Hfix. }
  rewrite rename_instruments_normalized.
  - eexists. split; [done|]. done.
  - done.
  - apply (Hplan Part).
  - by apply (discovered_plan_compatible Part tree _ Hs).
  - done.
  - apply (Hplan Instrument).
  - done.
  - by apply (discovered_plan_compatible Instrument tree _ Hs).
  - apply Hwell.
Qed.

(** The document [process_xml] leaves is a fixed point of [process_xml]. *)
Lemma process_xml_twice (tree : element) :
  well_labelled tree →
  NoDup (entities Part tree).*1 → NoDup (entities Instrument tree).*1 →
  single_named tree →
  ∃ s1 s2,
    process_xml (__init__ tree) = (Ok tt, s1) ∧
    process_xml (__init__ (root s1)) = (Ok tt, s2) ∧
    root s2 = root s1.
Proof.
  intros Hwell HP HI Hsingle.
  pose proof (process_xml_entities tree Part Hwell HP HI Hsingle) as HeP.
  pose proof (process_xml_entities tree Instrument Hwell HP HI Hsingle) as HeI.
  pose proof (process_xml_relabel tree Hwell HP HI Hsingle) as H1.
  cbv zeta in H1. rewrite H1 in HeP, HeI. cbn [snd] in HeP, HeI.
  eexists.
  destruct (process_xml_fixed
    (root (set_root (relabel
       (part_rename_dict (cleanup_names (discovered tree (__init__ tree))).2)
       (instrument_rename_dict (cleanup_names (discovered tree (__init__ tree))).2)
       tree) (cleanup_names (discovered tree (__init__ tree))).2)))
    as (s2 & H2 & Hroot2).
  - split_and!.
    + apply find_part_list_relabel, Hwell.
    + rewrite HeP. apply normal_names_labelled, Hwell.
    + rewrite HeI. apply normal_names_labelled, Hwell.
  - by rewrite HeP, normal_names_ids.
  - by rewrite HeI, normal_names_ids.
  - by apply single_named_relabel.
  - intros [|]; [rewrite HeP|rewrite HeI]; apply normal_names_idemp.
  - exists s2. split_and!; [exact H1|exact H2|exact Hroot2].
Qed.

(** X9. Normalising twice is normalising once: on a document that
    discovery can read to the end, with distinct ids in each kind and one
    label per score instrument, [process_xml] returns, and [process_xml]
    with a new manager on the document it leaves returns as well and leaves
    that document as it is. *)
Theorem normalize_idempotent (tree : element) :
  well_labelled tree →
  NoDup (entities Part tree).*1 → NoDup (entities Instrument tree).*1 →
  single_named tree →
  ∃ s1 s2,
    process_xml (__init__ tree) = (Ok tt, s1) ∧
    process_xml (__init__ (root s1)) = (Ok tt, s2) ∧
    root s2 = root s1.
Proof. apply process_xml_twice. Qed.

(** ** Proposed names are distinct *)

Lemma through_numbered g ds :
  all_digits ds = true → through (g +:+ " " +:+ ds) g = true.
Proof.
  intros Hds. induction g as [|c g IH]; unfold_app; simpl; [done|].
  by rewrite Ascii.eqb_refl.
Qed.

Lemma families_not_numbered f g ds :
  f ∈ families → g ∈ families → all_digits ds = true → f ≠ g +:+ " " +:+ ds.
Proof.
  revert f g.
  assert (Forall (λ f, Forall (λ g, through f g = false) families) families)
    as H.
  { apply (bool_decide_unpack _). vm_compute. exact I. }
  intros f g Hf Hg Hds ->. rewrite Forall_forall in H. specialize (H _ Hf).
  rewrite Forall_forall in H. specialize (H _ Hg).
  by rewrite through_numbered in H.
Qed.

Lemma normal_name_inj es n m e e' :
  es !! n = Some e → es !! m = Some e' →
  is_Some (family e.2) → is_Some (family e'.2) →
  normal_name es n e = normal_name es m e' → n = m.
Proof.
  intros Hn Hm [f Hf] [g Hg]. unfold normal_name. rewrite Hf, Hg.
  assert (f ∈ families ∧ g ∈ families) as [Hfam Hgam].
  { unfold family in *. destruct e.2 as [name|], e'.2 as [name'|]; try done.
    simpl in *. split; by eapply resolve_family. }
  pose proof (occurrences_pos f es n e Hn Hf) as Hpos.
  pose proof (occurrences_pos g es m e' Hm Hg) as Hpos'.
  intros [= Heq]. repeat case_decide.
  - subst g. eapply (occurrences_inj es f); [done..|lia].
  - exfalso. eapply (families_not_numbered f g);
      [exact Hfam | exact Hgam | apply str_digits | exact Heq].
  - exfalso. eapply (families_not_numbered g f);
      [exact Hgam | exact Hfam | apply str_digits | symmetry; exact Heq].
  - apply numbered_str_inj in Heq as [-> Heq].
    by eapply (occurrences_inj es g).
Qed.

Lemma plan_names_distinct es i i' rm rm' :
  let plan := _cleanup (record_entities es (∅, [])).2
                       (record_entities es (∅, [])).1 in
  plan !! i = Some rm → plan !! i' = Some rm' →
  swap_name rm = swap_name rm' → i = i'.
Proof.
  intros plan.
  intros (n & name & f & Hn & Hr & ->)%cleaned_lookup_inv.
  intros (m & name' & g & Hm & Hr' & ->)%cleaned_lookup_inv.
  simpl. rewrite !counts_occurrences. intros Heq.
  assert (n = m) as ->; [|congruence].
  eapply (normal_name_inj es n m); [done..| | |].
  - unfold family. simpl. by eexists.
  - unfold family. simpl. by eexists.
  - unfold normal_name, family. simpl. rewrite Hr, Hr'. by f_equal.
Qed.

(** X10. After discovery and cleanup no two entries of a dictionary propose
    the same name, whatever their families. On a document with distinct
    ids in each kind and one label per score instrument, [process_xml]
    returns, and two entities of a kind that resolve never carry the same
    label in the document it leaves. *)
Theorem proposed_names_distinct (tree : element) (s : InstrumentManager)
    (k : kind) :
  find_generic_instrument_names tree (__init__ tree) = (Ok tt, s) →
  (∀ i i' rm rm',
     dict_of k (cleanup_names s).2 !! i = Some rm →
     dict_of k (cleanup_names s).2 !! i' = Some rm' →
     swap_name rm = swap_name rm' → i = i') ∧
  (NoDup (entities Part tree).*1 → NoDup (entities Instrument tree).*1 →
   single_named tree →
   ∃ s', process_xml (__init__ tree) = (Ok tt, s') ∧
     ∀ n m e e' l l',
       entities k tree !! n = Some e → entities k tree !! m = Some e' →
       is_Some (family e.2) → is_Some (family e'.2) →
       entities k (root s') !! n = Some l →
       entities k (root s') !! m = Some l' →
       l.2 = l'.2 → n = m).
Proof.
  intros Hs. destruct (discover_init k tree s Hs) as (Hd & Hc & _). split.
  - rewrite cleanup_names_dict, Hd, Hc. apply plan_names_distinct.
  - intros HP HI Hsingle. pose proof Hs as [Hwell _]%discover_Ok.
    pose proof (process_xml_entities tree k Hwell HP HI Hsingle) as He.
    destruct (process_xml (__init__ tree)) as [r s'] eqn:E.
    pose proof (process_xml_relabel tree Hwell HP HI Hsingle) as HOk.
    cbv zeta in HOk. rewrite E in HOk. injection HOk as -> _.
    exists s'. split; [done|]. cbn [snd] in He. rewrite He.
    intros n m e e' l l' Hn Hm Hf Hf' Hl Hl' Heq.
    unfold normal_names in Hl, Hl'.
    apply list_lookup_imap_Some in Hl as (e1 & Hn1 & ->).
    apply list_lookup_imap_Some in Hl' as (e2 & Hm2 & ->).
    rewrite Hn in Hn1. rewrite Hm in Hm2. simplify_eq. simpl in Heq.
    by eapply (normal_name_inj (entities k tree) n m).
Qed.

(** ** The outcomes of [process_xml] *)

(** X11. On a new manager [process_xml] returns or raises the attribute
    error, the type error or the assertion error, and nothing else. It
    raises one of the first two exactly when discovery cannot read the
    document to the end, and the document is then as it was. In every case
    the document differs from the original in texts of labels only; and
    when discovery returns, the dictionaries are those of discovery and
    cleanup and the counters those of discovery, whether renaming returns
    or raises. *)
Theorem process_xml_outcome (tree : element) :
  let r := (process_xml (__init__ tree)).1 in
  let s := (process_xml (__init__ tree)).2 in
  blank_labels (root s) = blank_labels tree ∧
  (r = Ok tt ∨ r = Raise AttributeError ∨ r = Raise TypeError ∨
   r = Raise (AssertionError "Original name mismatch")) ∧
  (¬ well_labelled tree ↔ r = Raise AttributeError ∨ r = Raise TypeError) ∧
  (¬ well_labelled tree → root s = tree) ∧
  (well_labelled tree →
   ∀ k, dict_of k s =
          dict_of k (cleanup_names (discovered tree (__init__ tree))).2 ∧
        counter_of k s = counter_of k (discovered tree (__init__ tree))).
Proof.
  intros r s. subst r s. rewrite process_xml_unfold.
  unfold call_find_generic_instrument_names.
  change (root (__init__ tree)) with tree.
  pose proof (discover_root tree (__init__ tree)) as Hroot.
  change (root (__init__ tree)) with tree in Hroot.
  destruct (find_generic_instrument_names tree (__init__ tree))
    as [[[]|e] s0] eqn:E; cbn [snd] in Hroot.
  - apply discover_Ok in E as [Hwell ->].
    unfold call_rename_instruments. rewrite cleanup_names_root, Hroot.
    pose proof (rename_instruments_frame tree
      (part_rename_dict (cleanup_names (discovered tree (__init__ tree))).2)
      (instrument_rename_dict (cleanup_names (discovered tree (__init__ tree))).2))
      as Hframe.
    assert (∀ e,
      (rename_instruments tree
         (part_rename_dict (cleanup_names (discovered tree (__init__ tree))).2)
         (instrument_rename_dict
            (cleanup_names (discovered tree (__init__ tree))).2)).1 = Raise e →
      e = AssertionError "Original name mismatch") as Hraise.
    { intros e. apply rename_instruments_raise_writable; [apply Hwell|].
      apply (discovered_plans_writable tree). by apply discover_Ok. }
    assert (∀ tree' k,
      dict_of k (set_root tree'
                   (cleanup_names (discovered tree (__init__ tree))).2) =
        dict_of k (cleanup_names (discovered tree (__init__ tree))).2 ∧
      counter_of k (set_root tree'
                      (cleanup_names (discovered tree (__init__ tree))).2) =
        counter_of k (discovered tree (__init__ tree))) as Hstate.
    { intros tree' k. rewrite <-(cleanup_names_counter k). by destruct k. }
    destruct (rename_instruments tree _ _) as [[[]|e] tree'];
      cbn [fst snd] in *.
    + split_and!; [done | by left | | done | intros _; apply Hstate].
      split; [done|]. by intros [|].
    + rewrite (Hraise e eq_refl).
      split_and!; [done | by right; right; right | | done | intros _; apply Hstate].
      split; [done|]. by intros [|].
  - cbn [fst snd]. rewrite Hroot.
    assert (¬ well_labelled tree) as Hnot.
    { intros Hwell. assert (find_generic_instrument_names tree (__init__ tree) =
        (Ok tt, discovered tree (__init__ tree))) by (by apply discover_Ok).
      congruence. }
    assert (e = TypeError ∨ e = AttributeError) as He.
    { destruct (find "part-list" tree) as [pl|] eqn:Hpl.
      - destruct (reads_discovery tree (ltac:(by eexists)) (__init__ tree))
          as (_ & _ & H). apply H. by rewrite E.
      - rewrite find_generic_instrument_names_no_part_list in E by done.
        right. congruence. }
    split_and!; [done | | | done | done].
    + destruct He as [->| ->]; auto.
    + split; [intros _|done]. destruct He as [->| ->]; auto.
Qed.

(** ** The name of the output file *)

(** X12. The output file of [main] is named after the input file without
    its last four characters: a name with an extension of four characters
    gives its stem followed by ["_xml_cleanup.xml"], whatever the
    extension, and a name of at most four characters gives
    ["_xml_cleanup.xml"]. The output name is never the input name. *)
Theorem output_file_name :
  (∀ stem ext, length ext = 4 →
     output_file (stem ++ ext) = stem ++ code_points "_xml_cleanup.xml") ∧
  (∀ input_file, length input_file ≤ 4 →
     output_file input_file = code_points "_xml_cleanup.xml") ∧
  (∀ input_file, output_file input_file ≠ input_file) ∧
  (∀ stem ext ext', length ext = 4 → length ext' = 4 →
     output_file (stem ++ ext) = output_file (stem ++ ext')).
Proof.
  assert (∀ stem ext, length ext = 4 →
     output_file (stem ++ ext) = stem ++ code_points "_xml_cleanup.xml") as H.
  { intros stem ext Hext. unfold output_file. rewrite length_app, Hext.
    replace (length stem + 4 - 4) with (length stem) by lia.
    by rewrite take_app_length. }
  split_and!; [done| | |].
  - intros f Hf. unfold output_file.
    replace (length f - 4) with 0 by lia. done.
  - intros f Heq. apply (f_equal length) in Heq. unfold output_file in Heq.
    rewrite length_app, length_take in Heq.
    change (length (code_points "_xml_cleanup.xml")) with 16 in Heq. lia.
  - intros stem ext ext' He He'. by rewrite !H.
Qed.

(** ** When [process_xml] returns *)

Lemma record_entities_keeps es st i :
  is_Some (st.1 !! i) → is_Some ((record_entities es st).1 !! i).
Proof.
  revert st. induction es as [|e es IH]; intros st Hst; [done|].
  simpl. apply IH. pose proof (record_entity_cases st e) as Hc.
  destruct (family e.2) as [f|].
  - destruct Hc as (name & _ & _ & ->). simpl.
    destruct (decide (e.1 = i)) as [->|Hne].
    + rewrite lookup_insert_eq. by eexists.
    + by rewrite lookup_insert_ne.
  - by rewrite Hc.
Qed.

Lemma record_entities_is_Some es st i label :
  (i, label) ∈ es → is_Some (family label) →
  is_Some ((record_entities es st).1 !! i).
Proof.
  revert st. induction es as [|e es IH]; intros st Hin Hfam.
  - by apply elem_of_nil in Hin.
  - apply elem_of_cons in Hin as [<-|Hin]; [|by apply (IH _ Hin)].
    simpl. apply record_entities_keeps.
    pose proof (record_entity_cases st (i, label)) as Hc. simpl in Hc.
    destruct Hfam as [f Hf]. rewrite Hf in Hc.
    destruct Hc as (name & _ & _ & ->). simpl. rewrite lookup_insert_eq.
    by eexists.
Qed.

(** An id with an entity that resolves has an entry after cleanup, and the
    original name of the entry is the label of an entity of the id. *)
Lemma cleaned_is_Some es i label :
  (i, label) ∈ es → is_Some (family label) →
  ∃ rm, _cleanup (record_entities es (∅, [])).2
                 (record_entities es (∅, [])).1 !! i = Some rm ∧
        (i, Some (original_name rm)) ∈ es.
Proof.
  intros Hin Hfam.
  destruct (record_entities_is_Some es (∅, []) i label Hin Hfam) as [rm0 Hrm0].
  assert (is_Some (_cleanup (record_entities es (∅, [])).2
                      (record_entities es (∅, [])).1 !! i)) as [rm Hrm].
  { rewrite cleanup_fmap, lookup_fmap, Hrm0. by eexists. }
  exists rm. split; [done|].
  apply cleaned_lookup_inv in Hrm as (n & name & fam & Hn & _ & ->).
  by eapply list_elem_of_lookup_2.
Qed.

Lemma elem_of_entities_Part root i label :
  (i, label) ∈ entities Part root ↔
  ∃ sp c, sp ∈ score_parts root ∧ c ∈ findall "part-name" sp ∧
          i = get "id" sp ∧ label = text c.
Proof.
  unfold entities. rewrite list_elem_of_bind. simpl. unfold part_labels. split.
  - intros (sp & (c & [= -> ->] & Hc)%list_elem_of_fmap & Hsp). by exists sp, c.
  - intros (sp & c & Hsp & Hc & -> & ->). exists sp. split; [|done].
    apply list_elem_of_fmap. by exists c.
Qed.

Lemma elem_of_entities_Instrument root i label :
  (i, label) ∈ entities Instrument root ↔
  ∃ sp si, sp ∈ score_parts root ∧ si ∈ findall "score-instrument" sp ∧
           i = get "id" si ∧ label = instrument_label si.
Proof.
  unfold entities. rewrite list_elem_of_bind. simpl. unfold instrument_labels.
  split.
  - intros (sp & (si & [= -> ->] & Hsi)%list_elem_of_fmap & Hsp).
    by exists sp, si.
  - intros (sp & si & Hsp & Hsi & -> & ->). exists sp. split; [|done].
    apply list_elem_of_fmap. by exists si.
Qed.

Lemma family_is_Some label : is_Some (family label) → is_Some label.
Proof. destruct label; [by eexists|]. by intros [? [=]]. Qed.

(** The first instrument name of a score instrument with a label. *)
Lemma instrument_label_Some si name :
  instrument_label si = Some name →
  ∃ c, c ∈ findall "instrument-name" si ∧ text c = Some name.
Proof.
  unfold instrument_label, find.
  destruct (findall "instrument-name" si) as [|c cs]; [done|]. simpl.
  intros H. exists c. split; [left|done].
Qed.

Section consistent_plans.
Variables (tree : element) (s : InstrumentManager).
Hypothesis discovered_s :
  find_generic_instrument_names tree (__init__ tree) = (Ok tt, s).

Local Abbreviation parts := (part_rename_dict (cleanup_names s).2).
Local Abbreviation instruments := (instrument_rename_dict (cleanup_names s).2).

Lemma plan_entry k i label :
  (i, label) ∈ entities k tree → is_Some (family label) →
  ∃ rm, dict_of k (cleanup_names s).2 !! i = Some rm ∧
        (i, Some (original_name rm)) ∈ entities k tree.
Proof.
  rewrite cleanup_names_dict.
  destruct (discover_init k tree s discovered_s) as (-> & -> & _).
  apply cleaned_is_Some.
Qed.

Lemma plan_entry_inv k i rm :
  dict_of k (cleanup_names s).2 !! i = Some rm →
  (i, Some (original_name rm)) ∈ entities k tree ∧
  is_Some (resolve (original_name rm)).
Proof.
  rewrite cleanup_names_dict.
  destruct (discover_init k tree s discovered_s) as (-> & -> & _).
  intros (n & name & fam & Hn & Hres & ->)%cleaned_lookup_inv. simpl.
  split; [by eapply list_elem_of_lookup_2|by eexists].
Qed.

Lemma consistent_ids_agree :
  consistent parts instruments tree →
  ids_agree (entities Part tree) ∧ ids_agree (entities Instrument tree) ∧
  resolved_single_named tree.
Proof.
  intros Hcons.
  assert (∀ i l rm, (i, l) ∈ entities Part tree →
            parts !! i = Some rm → l = Some (original_name rm)) as HP.
  { intros i l rm (sp & c & Hsp & Hc & -> & ->)%elem_of_entities_Part Hrm.
    destruct (Hcons sp Hsp) as [Hagree _]. specialize (Hagree rm Hrm).
    rewrite Forall_forall in Hagree. by apply Hagree. }
  assert (∀ sp si rm, sp ∈ score_parts tree →
            si ∈ findall "score-instrument" sp → is_Some (instrument_label si) →
            instruments !! get "id" si = Some rm →
            instrument_label si = Some (original_name rm)) as HI.
  { intros sp si rm Hsp Hsi [name Hname] Hrm.
    destruct (Hcons sp Hsp) as [_ Hagree]. specialize (Hagree si Hsi rm Hrm).
    rewrite Forall_forall in Hagree.
    destruct (instrument_label_Some si name Hname) as (c & Hc & Htext).
    rewrite Hname, <-Htext. by apply Hagree. }
  split_and!.
  - intros i l1 l2 H1 H2 Hfam.
    destruct (plan_entry Part i l1 H1 Hfam) as (rm & Hrm & _).
    by rewrite (HP i l1 rm H1 Hrm), (HP i l2 rm H2 Hrm).
  - intros i l1 l2 H1 H2 Hfam.
    destruct (plan_entry Instrument i l1 H1 Hfam) as (rm & Hrm & _).
    destruct (discover_init Instrument tree s discovered_s) as (_ & _ & Hlab).
    unfold labelled in Hlab. rewrite Forall_forall in Hlab.
    pose proof (Hlab _ H1) as Hl1. pose proof (Hlab _ H2) as Hl2.
    apply elem_of_entities_Instrument in H1 as (sp1 & si1 & ? & ? & -> & ->).
    apply elem_of_entities_Instrument in H2 as (sp2 & si2 & ? & ? & Hid & ->).
    rewrite Hid in Hrm at 1.
    rewrite (HI sp2 si2 rm) by done. rewrite <-Hid in Hrm.
    by rewrite (HI sp1 si1 rm).
  - intros sp si Hsp Hsi Hfam.
    destruct (plan_entry Instrument (get "id" si) (instrument_label si))
      as (rm & Hrm & _); [|done|].
    { apply elem_of_entities_Instrument. by exists sp, si. }
    rewrite (HI sp si rm Hsp Hsi (family_is_Some _ Hfam) Hrm).
    destruct (Hcons sp Hsp) as [_ Hagree]. by apply (Hagree si Hsi rm).
Qed.

Lemma ids_agree_consistent :
  ids_agree (entities Part tree) → ids_agree (entities Instrument tree) →
  resolved_single_named tree →
  consistent parts instruments tree.
Proof.
  intros HP HI Hsingle sp Hsp. split.
  - intros rm Hrm. apply Forall_forall. intros c Hc.
    destruct (plan_entry_inv Part _ rm Hrm) as [Hin Hres].
    symmetry. apply (HP (get "id" sp)); [done| |done].
    apply elem_of_entities_Part. by exists sp, c.
  - intros si Hsi rm Hrm.
    destruct (plan_entry_inv Instrument _ rm Hrm) as [Hin Hres].
    assert (instrument_label si = Some (original_name rm)) as Hlabel.
    { symmetry. apply (HI (get "id" si)); [done| |done].
      apply elem_of_entities_Instrument. by exists sp, si. }
    rewrite <-Hlabel. apply (Hsingle sp si Hsp Hsi).
    rewrite Hlabel. done.
Qed.
End consistent_plans.

(** X13. On a new manager [process_xml] returns exactly on the documents
    that discovery can read to the end and in which, in each kind, the
    entities of an id that has an entity that resolves all carry the same
    label, and every instrument name of a score instrument that resolves
    carries the label of the first one. It then leaves the document
    relabelled with its two dictionaries: every entity whose id has an
    entry carries the proposed name of the entry. *)
Theorem process_xml_returns_iff (tree : element) :
  ((∃ s, process_xml (__init__ tree) = (Ok tt, s)) ↔
   well_labelled tree ∧
   ids_agree (entities Part tree) ∧ ids_agree (entities Instrument tree) ∧
   resolved_single_named tree) ∧
  (∀ s, process_xml (__init__ tree) = (Ok tt, s) →
     root s = relabel (part_rename_dict s) (instrument_rename_dict s) tree ∧
     entities Part (root s) =
       relabelled (part_rename_dict s) (entities Part tree) ∧
     entities Instrument (root s) =
       relabelled (instrument_rename_dict s) (entities Instrument tree)).
Proof.
  rewrite process_xml_unfold. unfold call_find_generic_instrument_names.
  change (root (__init__ tree)) with tree.
  pose proof (discover_root tree (__init__ tree)) as Hroot.
  change (root (__init__ tree)) with tree in Hroot.
  destruct (find_generic_instrument_names tree (__init__ tree))
    as [[[]|e] s0] eqn:E; cbn [snd] in Hroot.
  2:{ split; [|done]. split; [by intros [? [=]]|]. intros [Hwell _].
      assert (find_generic_instrument_names tree (__init__ tree) =
        (Ok tt, discovered tree (__init__ tree))) by (by apply discover_Ok).
      congruence. }
  pose proof E as [Hwell _]%discover_Ok.
  unfold call_rename_instruments. rewrite cleanup_names_root, Hroot.
  destruct (rename_instruments tree _ _) as [r tree'] eqn:Er. split.
  - split.
    + intros [s [= -> <-]]. split; [done|].
      apply rename_instruments_Ok_consistent in Er as (_ & Hcons & _).
      by apply (consistent_ids_agree tree s0).
    + intros (_ & HP & HI & Hsingle).
      rewrite rename_instruments_consistent in Er;
        [|apply Hwell|by apply ids_agree_consistent
         |by apply (discovered_plans_writable tree)].
      injection Er as <- <-. by eexists.
  - intros s [= -> <-].
    apply rename_instruments_Ok_iff in Er as (_ & _ & _ & ->). cbn [root part_rename_dict instrument_rename_dict set_root].
    split_and!; [done|..].
    + apply (entities_relabel Part), Hwell.
    + apply (entities_relabel Instrument), Hwell.
Qed.

(** ** The table and a second normalisation *)

(** The entry of an id is the entry of the last entity of the id that
    resolves. *)
Lemma cleaned_lookup_last es i rm :
  _cleanup (record_entities es (∅, [])).2 (record_entities es (∅, [])).1 !! i =
    Some rm →
  ∃ n name fam,
    es !! n = Some (i, Some name) ∧ resolve name = Some fam ∧
    (∀ m e, n < m → es !! m = Some e → e.1 = i → family e.2 = None) ∧
    rm = {| original_name := name;
            swap_name :=
              if decide (occurrences fam es = 1) then fam
              else fam +:+ " " +:+ str (occurrences fam (take (S n) es)) |}.
Proof.
  rewrite cleanup_fmap, lookup_fmap.
  destruct (_ !! i) as [rm0|] eqn:E; [|done]. simpl. intros [= <-].
  apply record_entities_lookup in E
    as [(n & name & fam & Hn & Hres & Hlast & ->)|[E _]]; [|done].
  exists n, name, fam. split_and!; [done..|]. simpl.
  rewrite <-(counts_occurrences es fam). apply cleanup_numbered.
  - rewrite counts_occurrences. eapply occurrences_pos; [done|].
    unfold family. simpl. done.
  - by eapply resolve_family.
Qed.

Section second_run.
Variable es : list (option string * option string).
Hypothesis es_agree : ids_agree es.

Local Abbreviation d1 :=
  (_cleanup (record_entities es (∅, [])).2 (record_entities es (∅, [])).1).

(** The entry of an id records the label of every entity of the id. *)
Lemma agreed_entry i label rm :
  (i, label) ∈ es → d1 !! i = Some rm →
  label = Some (original_name rm) ∧
  ∃ fam, resolve (original_name rm) = Some fam ∧
         resolve (swap_name rm) = resolve fam.
Proof.
  intros Hin (n & name & fam & Hn & Hres & ->)%cleaned_lookup_inv. simpl.
  split.
  - symmetry. apply (es_agree i); [by eapply list_elem_of_lookup_2|done|].
    unfold family. simpl. by eexists.
  - exists fam. split; [done|]. case_decide; [done|].
    apply resolve_numbered; [by eapply resolve_family|apply str_digits].
Qed.

Lemma family_relabelled e :
  e ∈ es →
  family (match d1 !! e.1 with
          | Some rm => Some (swap_name rm)
          | None => e.2
          end) = family e.2 ≫= resolve.
Proof.
  intros He. destruct e as [i label]. simpl.
  destruct (d1 !! i) as [rm|] eqn:E.
  - destruct (agreed_entry i label rm He E) as [-> (fam & Hres & Hswap)].
    unfold family. simpl. by rewrite Hres, Hswap.
  - destruct (family label) as [fam|] eqn:Hfam; [|done].
    destruct (cleaned_is_Some es i label He) as (rm & Hrm & _); [by eexists|].
    congruence.
Qed.

Lemma family_relabelled_Some e fam :
  e ∈ es →
  family (match d1 !! e.1 with
          | Some rm => Some (swap_name rm)
          | None => e.2
          end) = Some fam ↔
  family e.2 = Some fam ∧ fam ≠ "French Horn".
Proof.
  intros He. rewrite family_relabelled by done.
  destruct (family e.2) as [g|] eqn:E; simpl.
  - unfold family in E. destruct e.2 as [name|]; [|done]. simpl in E.
    rewrite (resolve_resolved name g E). case_decide as Hg; split.
    + done.
    + intros [[= ->] ?]. done.
    + intros [= ->]. done.
    + by intros [[= ->] _].
  - split; [done|]. by intros [[=] _].
Qed.

Lemma occurrences_relabelled fam l :
  l ⊆ es →
  occurrences fam (relabelled d1 l) =
  if decide (fam = "French Horn") then 0 else occurrences fam l.
Proof.
  induction l as [|e l IH]; intros Hl.
  - by case_decide.
  - unfold relabelled in *. rewrite fmap_cons, !occurrences_cons. simpl.
    rewrite IH by (intros x Hx; apply Hl; by right).
    assert (e ∈ es) as He by (apply Hl; left).
    case_decide as Hfh.
    + rewrite bool_decide_false; [done|].
      rewrite family_relabelled_Some by done. tauto.
    + f_equal.
      rewrite (bool_decide_ext _ (family e.2 = Some fam)); [done|].
      rewrite family_relabelled_Some by done. tauto.
Qed.

Local Abbreviation es2 := (relabelled d1 es).
Local Abbreviation d2 :=
  (_cleanup (record_entities es2 (∅, [])).2 (record_entities es2 (∅, [])).1).

(** The plan of a second discovery proposes what the first one wrote. *)
Lemma second_plan i rm2 :
  d2 !! i = Some rm2 →
  swap_name rm2 = original_name rm2 ∧
  ∃ rm1, d1 !! i = Some rm1 ∧ original_name rm2 = swap_name rm1.
Proof.
  intros (n & name2 & fam & Hn & Hres & Hlast & ->)%cleaned_lookup_last.
  simpl. unfold relabelled in Hn. rewrite list_lookup_fmap in Hn.
  destruct (es !! n) as [[i' label]|] eqn:Hn'; [|done].
  simpl in Hn. injection Hn as -> Hname.
  assert ((i, label) ∈ es) as Hin by (by eapply list_elem_of_lookup_2).
  pose proof (proj1 (family_relabelled_Some (i, label) fam Hin)) as Hfam.
  simpl in Hfam. rewrite Hname in Hfam.
  destruct Hfam as [Hfam Hfh]; [done|].
  destruct (d1 !! i) as [rm1|] eqn:E.
  2:{ destruct (cleaned_is_Some es i label Hin) as (rm & Hrm & _);
        [by eexists|congruence]. }
  injection Hname as <-. split; [|by exists rm1].
  destruct (cleaned_lookup_last es i rm1 E)
    as (n1 & name1 & fam1 & Hn1 & Hres1 & Hlast1 & Hrm1).
  assert (n = n1) as ->.
  { destruct (Nat.lt_trichotomy n n1) as [Hlt|[?|Hlt]]; [|done|].
    - specialize (Hlast n1 (i, Some (swap_name rm1)) Hlt).
      unfold family in Hlast. simpl in Hlast. rewrite Hres in Hlast.
      assert (es2 !! n1 = Some (i, Some (swap_name rm1))) as H2.
      { unfold relabelled. rewrite list_lookup_fmap, Hn1. cbn [fmap option_fmap option_map fst snd]. rewrite E. done. }
      by specialize (Hlast H2 eq_refl).
    - specialize (Hlast1 n (i, label) Hlt Hn' eq_refl). simpl in Hlast1.
      congruence. }
  rewrite Hn1 in Hn'. injection Hn' as <-.
  assert (fam1 = fam) as -> by (unfold family in Hfam; simpl in *; congruence).
  subst rm1. simpl in *.
  rewrite occurrences_relabelled by done. unfold relabelled at 1.
  rewrite <-fmap_take. fold (relabelled d1 (take (S n1) es)).
  rewrite occurrences_relabelled by apply subseteq_take.
  by destruct (decide (fam = "French Horn")).
Qed.
End second_run.

(** With dictionaries that propose the recorded names, renaming leaves the
    document as it is, whether it returns or raises. *)
Lemma rename_instruments_same (tree : element) (parts instruments : rename_dict) :
  (∀ i rm, parts !! i = Some rm → swap_name rm = original_name rm) →
  (∀ i rm, instruments !! i = Some rm → swap_name rm = original_name rm) →
  compatible parts → compatible instruments →
  (rename_instruments tree parts instruments).2 = tree.
Proof.
  intros HP HI HPc HIc.
  assert (∀ sp, (rename_score_part parts instruments sp).2 = sp) as Hsp.
  { intros sp. unfold rename_score_part.
    pose proof (rename_element_same sp parts "part-name" HP HPc) as H.
    destruct (_rename_element sp parts "part-name") as [[[]|e] sp1];
      simpl in H; subst sp1; [|done].
    rewrite on_children_snd, for_each_child_same; [apply set_children_id|].
    intros si. by apply rename_element_same. }
  unfold rename_instruments. rewrite on_children_snd.
  destruct (find "part-list" tree) as [pl|] eqn:Hpl.
  - rewrite (with_first_child_id _ _ _ pl Hpl); [apply set_children_id|].
    rewrite on_children_snd, for_each_child_same by done.
    apply set_children_id.
  - rewrite with_first_child_none by done. apply set_children_id.
Qed.

(** Dictionaries that record what renaming wrote are consistent with the
    relabelled document. *)
Lemma consistent_relabel (parts instruments parts' instruments' : rename_dict)
    tree :
  (∀ i rm', parts' !! i = Some rm' →
     ∃ rm, parts !! i = Some rm ∧ original_name rm' = swap_name rm) →
  (∀ i rm', instruments' !! i = Some rm' →
     ∃ rm, instruments !! i = Some rm ∧ original_name rm' = swap_name rm) →
  consistent parts' instruments' (relabel parts instruments tree).
Proof.
  intros HP HI sp'. rewrite score_parts_relabel.
  intros (sp & -> & Hsp)%list_elem_of_fmap. split.
  - intros rm'. rewrite relabel_score_part_id.
    intros (rm & Hrm & ->)%HP.
    unfold relabel_score_part at 1, findall. simpl.
    rewrite filter_map_tagged_other; [|done|intros; apply relabel_element_tag].
    change (List.filter (has_tag "part-name")
              (children (relabel_element parts "part-name" sp)))
      with (findall "part-name" (relabel_element parts "part-name" sp)).
    rewrite findall_relabel_element, Hrm, Forall_fmap. by apply Forall_true.
  - intros si'. rewrite findall_score_instrument_relabel.
    intros (si & -> & Hsi)%list_elem_of_fmap rm'. rewrite relabel_element_id.
    intros (rm & Hrm & ->)%HI.
    rewrite findall_relabel_element, Hrm, Forall_fmap. by apply Forall_true.
Qed.

Lemma relabelled_labelled d es : labelled es → labelled (relabelled d es).
Proof.
  unfold labelled, relabelled. rewrite Forall_fmap. intros H.
  eapply Forall_impl; [exact H|]. intros e He. simpl. by destruct (d !! e.1).
Qed.

(** Whenever [process_xml] returns, the document it leaves is a fixed point
    of [process_xml]. *)
Lemma process_xml_again (tree : element) (s1 : InstrumentManager) :
  process_xml (__init__ tree) = (Ok tt, s1) →
  ∃ s2, process_xml (__init__ (root s1)) = (Ok tt, s2) ∧ root s2 = root s1.
Proof.
  rewrite process_xml_unfold. unfold call_find_generic_instrument_names.
  change (root (__init__ tree)) with tree.
  pose proof (discover_root tree (__init__ tree)) as Hroot.
  change (root (__init__ tree)) with tree in Hroot.
  destruct (find_generic_instrument_names tree (__init__ tree))
    as [[[]|e] s0] eqn:Hs; cbn [snd] in Hroot; [|done].
  pose proof Hs as [Hwell _]%discover_Ok.
  unfold call_rename_instruments. rewrite cleanup_names_root, Hroot.
  destruct (rename_instruments tree _ _) as [r tree1] eqn:Er.
  intros [= -> <-]. cbn [root set_root].
  apply rename_instruments_Ok_iff in Er as (Hpl & Hcons & _ & ->).
  destruct (consistent_ids_agree tree s0 Hs Hcons) as (HaP & HaI & _).
  set (P1 := part_rename_dict (cleanup_names s0).2) in *.
  set (I1 := instrument_rename_dict (cleanup_names s0).2) in *.
  set (tree1 := relabel P1 I1 tree).
  assert (well_labelled tree1) as Hwell1.
  { destruct Hwell as (_ & HlP & HlI). split_and!.
    - by apply find_part_list_relabel.
    - unfold tree1. rewrite (entities_relabel Part) by done.
      by apply relabelled_labelled.
    - unfold tree1. rewrite (entities_relabel Instrument) by done.
      by apply relabelled_labelled. }
  assert (find_generic_instrument_names tree1 (__init__ tree1) =
          (Ok tt, discovered tree1 (__init__ tree1))) as Hs1
    by (by apply discover_Ok).
  pose proof (discover_root tree1 (__init__ tree1)) as Hroot1.
  rewrite Hs1 in Hroot1. cbn [snd] in Hroot1.
  change (root (__init__ tree1)) with tree1 in Hroot1.
  assert (∀ k i rm2,
    dict_of k (cleanup_names (discovered tree1 (__init__ tree1))).2 !! i =
      Some rm2 →
    swap_name rm2 = original_name rm2 ∧
    ∃ rm1, dict_of k (cleanup_names s0).2 !! i = Some rm1 ∧
           original_name rm2 = swap_name rm1) as Hplan.
  { intros k i rm2. rewrite !cleanup_names_dict.
    destruct (discover_init k tree s0 Hs) as (Hd & Hc & _).
    destruct (discover_init k tree1 _ Hs1) as (Hd1 & Hc1 & _).
    rewrite Hd, Hc, Hd1, Hc1. unfold tree1.
    rewrite (entities_relabel k) by apply Hwell.
    replace (match k with Part => P1 | Instrument => I1 end)
      with (dict_of k (cleanup_names s0).2) by (by destruct k).
    rewrite cleanup_names_dict, Hd, Hc.
    apply second_plan. by destruct k. }
  rewrite process_xml_unfold. unfold call_find_generic_instrument_names.
  change (root (__init__ tree1)) with tree1. rewrite Hs1.
  unfold call_rename_instruments. rewrite cleanup_names_root, Hroot1.
  set (P2 := part_rename_dict (cleanup_names (discovered tree1 (__init__ tree1))).2)
    in *.
  set (I2 := instrument_rename_dict
               (cleanup_names (discovered tree1 (__init__ tree1))).2) in *.
  assert (rename_instruments tree1 P2 I2 = (Ok tt, relabel P2 I2 tree1)) as HOk.
  { apply rename_instruments_consistent; [apply Hwell1| |].
    - apply consistent_relabel.
      + intros i rm' Hrm'. by destruct (Hplan Part i rm' Hrm').
      + intros i rm' Hrm'. by destruct (Hplan Instrument i rm' Hrm').
    - by apply (discovered_plans_writable tree1). }
  pose proof (rename_instruments_same tree1 P2 I2) as Hsame.
  rewrite HOk in Hsame |- *. cbn [snd] in Hsame. rewrite Hsame.
  - eexists. split; [done|]. done.
  - intros i rm Hrm. by destruct (Hplan Part i rm Hrm).
  - intros i rm Hrm. by destruct (Hplan Instrument i rm Hrm).
  - by apply (discovered_plan_compatible Part tree1 _ Hs1).
  - by apply (discovered_plan_compatible Instrument tree1 _ Hs1).
Qed.

(** C5, as stated, fails: ["French Horn"] is a family of the table, no
    pattern of the table occurs in it, and it resolves to no match. *)
Lemma french_horn_unresolved :
  ¬ (∀ fam, fam ∈ families → resolve fam = Some fam).
Proof.
  intros H. specialize (H "French Horn").
  assert ("French Horn" ∈ families) as Hin.
  { apply (bool_decide_unpack _). vm_compute. exact I. }
  specialize (H Hin). vm_compute in H. discriminate.
Qed.

(** C5, amended. Every family of the table resolves to itself, except for
    nine: ["French Horn"] and the five ["Solo ..."] families, which are not
    patterns of the table, and ["Violas"], ["Cellos"] and ["Basses"], which
    follow their singular in the table. ["French Horn"] resolves to no
    match, ["Solo X"] resolves to the family of [X], the pattern that occurs
    in it, and the three plurals resolve to their singular. All the same,
    whenever [process_xml] returns, [process_xml] with a new manager on the
    document it leaves returns as well and leaves that document as it is. *)
Theorem families_resolve :
  (∀ fam, fam ∈ families →
     fam ∉ unmatched_families → fam ∉ shadowed_families →
     resolve fam = Some fam) ∧
  (∀ fam, fam ∈ unmatched_families →
     fam ∈ families ∧ fam ∉ instrument_swap_map.*1) ∧
  resolve "French Horn" = None ∧
  (∀ x, x ∈ solo_strings → resolve ("Solo " +:+ x) = Some x) ∧
  (resolve "Violas" = Some "Viola" ∧ resolve "Cellos" = Some "Cello" ∧
   resolve "Basses" = Some "Bass") ∧
  (∀ tree s1,
     process_xml (__init__ tree) = (Ok tt, s1) →
     ∃ s2, process_xml (__init__ (root s1)) = (Ok tt, s2) ∧ root s2 = root s1).
Proof.
  split; [|split; [|split; [|split; [|split; [|apply process_xml_again]]]]].
  - assert (Forall (λ fam, fam ∉ unmatched_families → fam ∉ shadowed_families →
                           resolve fam = Some fam) families) as H.
    { apply (bool_decide_unpack _). vm_compute. exact I. }
    intros fam Hfam. rewrite Forall_forall in H. by apply H.
  - assert (Forall (λ fam, fam ∈ families ∧ fam ∉ instrument_swap_map.*1)
              unmatched_families) as H.
    { apply (bool_decide_unpack _). vm_compute. exact I. }
    intros fam Hfam. rewrite Forall_forall in H. by apply H.
  - reflexivity.
  - assert (Forall (λ x, resolve ("Solo " +:+ x) = Some x) solo_strings) as H.
    { apply (bool_decide_unpack _). vm_compute. exact I. }
    intros x Hx. rewrite Forall_forall in H. by apply H.
  - split_and!; vm_compute; reflexivity.
Qed.

(** ** A manager used again *)


(** With consistent dictionaries every label of an entity with an entry is
    the original name of the entry. *)
Lemma consistent_labels (tree : element) (parts instruments : rename_dict)
    (k : kind) i label rm :
  consistent parts instruments tree →
  (i, label) ∈ entities k tree → is_Some label →
  (match k with Part => parts | Instrument => instruments end) !! i = Some rm →
  label = Some (original_name rm).
Proof.
  intros Hcons Hin [name ->] Hrm. destruct k.
  - apply elem_of_entities_Part in Hin as (sp & c & Hsp & Hc & -> & Htext).
    destruct (Hcons sp Hsp) as [Hagree _]. specialize (Hagree rm Hrm).
    rewrite Forall_forall in Hagree. rewrite Htext. by apply Hagree.
  - apply elem_of_entities_Instrument in Hin as (sp & si & Hsp & Hsi & -> & Hl).
    destruct (Hcons sp Hsp) as [_ Hagree]. specialize (Hagree si Hsi rm Hrm).
    rewrite Forall_forall in Hagree. symmetry in Hl.
    destruct (instrument_label_Some si name Hl) as (c & Hc & Htext).
    rewrite <-Htext. by apply Hagree.
Qed.

(** A labelled entity with an entry carries the proposed name of the entry
    in the relabelled document. *)
Lemma elem_of_entities_relabel (k : kind) (parts instruments : rename_dict)
    tree i label rm :
  (i, label) ∈ entities k tree → is_Some label →
  (match k with Part => parts | Instrument => instruments end) !! i = Some rm →
  (i, Some (swap_name rm)) ∈ entities k (relabel parts instruments tree).
Proof.
  intros Hin Hlabel Hrm. destruct k.
  - rewrite entities_relabel_Part. unfold relabelled.
    apply list_elem_of_fmap. exists (i, label). split; [|done].
    simpl. by rewrite Hrm.
  - apply elem_of_entities_Instrument in Hin as (sp & si & Hsp & Hsi & -> & ->).
    apply elem_of_entities_Instrument.
    exists (relabel_score_part parts instruments sp),
           (relabel_element instruments "instrument-name" si).
    split_and!.
    + rewrite score_parts_relabel. apply list_elem_of_fmap. by exists sp.
    + rewrite findall_score_instrument_relabel. apply list_elem_of_fmap.
      by exists si.
    + by rewrite relabel_element_id.
    + rewrite instrument_label_relabel by done. by rewrite Hrm.
Qed.

(** Relabelling keeps the entities that have a label, so what could be
    written can be written again. *)
Lemma writable_relabel (parts instruments : rename_dict) tree :
  writable parts instruments tree →
  writable parts instruments (relabel parts instruments tree).
Proof.
  intros Hw sp'. rewrite score_parts_relabel.
  intros (sp & -> & Hsp)%list_elem_of_fmap.
  destruct (Hw sp Hsp) as [HP HI]. split.
  - intros rm Hrm Hne. rewrite relabel_score_part_id in Hrm.
    apply (HP rm Hrm). intros Hnil. apply Hne.
    pose proof (part_labels_relabel parts instruments sp) as H.
    unfold part_labels, relabelled in H. rewrite Hnil in H.
    by apply fmap_nil_inv in H.
  - intros si'. rewrite findall_score_instrument_relabel.
    intros (si & -> & Hsi)%list_elem_of_fmap rm Hrm Hne.
    rewrite relabel_element_id in Hrm. apply (HI si Hsi rm Hrm).
    intros Hnil. apply Hne. by rewrite findall_relabel_element, Hrm, Hnil.
Qed.

(** X15. Renaming is not repeatable: when [rename_instruments] returns on a
    document and an entity with a label has an entry whose proposed name
    differs from its original name, [rename_instruments] with the same
    dictionaries on the document the first call left raises the assertion
    error. *)
Theorem rename_instruments_twice (tree tree' : element)
    (parts instruments : rename_dict) (k : kind) i label rm :
  rename_instruments tree parts instruments = (Ok tt, tree') →
  (i, label) ∈ entities k tree → is_Some label →
  (match k with Part => parts | Instrument => instruments end) !! i = Some rm →
  swap_name rm ≠ original_name rm →
  (rename_instruments tree' parts instruments).1 =
  Raise (AssertionError "Original name mismatch").
Proof.
  intros (Hpl & _ & Hw & ->)%rename_instruments_Ok_iff Hin Hlabel Hrm Hne.
  pose proof (find_part_list_relabel parts instruments tree Hpl) as Hpl'.
  destruct (rename_instruments (relabel parts instruments tree) parts instruments)
    as [[[]|e] tree''] eqn:E.
  - apply rename_instruments_Ok_consistent in E as (_ & Hcons & _).
    pose proof (elem_of_entities_relabel k parts instruments tree i label rm
                  Hin Hlabel Hrm) as Hin'.
    pose proof (consistent_labels _ _ _ k i _ rm Hcons Hin'
                  (mk_is_Some _ _ eq_refl) Hrm) as Heq.
    congruence.
  - simpl. f_equal.
    apply (rename_instruments_raise_writable
             (relabel parts instruments tree) parts instruments);
      [done | by apply writable_relabel | by rewrite E].
Qed.

(** * The further properties at concrete documents *)

Lemma single_named_Forall tree :
  Forall (λ sp, Forall (λ si,
            Forall (λ c, text c = instrument_label si)
              (findall "instrument-name" si))
            (findall "score-instrument" sp)) (score_parts tree) →
  single_named tree.
Proof.
  intros H sp si Hsp Hsi. rewrite Forall_forall in H. specialize (H sp Hsp).
  rewrite Forall_forall in H. by apply H.
Qed.

Lemma timpani_doc_well_formed :
  well_labelled timpani_doc ∧
  NoDup (entities Part timpani_doc).*1 ∧
  NoDup (entities Instrument timpani_doc).*1 ∧
  single_named timpani_doc.
Proof.
  split_and!.
  - split_and!; [by eexists|..]; apply (bool_decide_unpack _); vm_compute; exact I.
  - apply (bool_decide_unpack _). vm_compute. exact I.
  - apply (bool_decide_unpack _). vm_compute. exact I.
  - apply single_named_Forall. apply (bool_decide_unpack _). vm_compute. exact I.
Qed.

Lemma process_xml_renames_witness :
  ∃ s, process_xml (__init__ timpani_doc) = (Ok tt, s) ∧
       entities Part (root s) =
         [ (Some "P1", Some "Timpani 1"); (Some "P2", Some "Timpani 2");
           (Some "P3", Some "2 Trumpets"); (Some "P4", Some "Timpani 3") ] ∧
       entities Instrument (root s) =
         [ (Some "P1-I1", Some "Timpani"); (Some "P2-I1", Some "Kazoo");
           (Some "P3-I1", Some "2 Trumpets") ].
Proof.
  destruct timpani_doc_well_formed as (Hwell & HP & HI & Hsingle).
  destruct (process_xml_renames timpani_doc Hwell HP HI Hsingle)
    as (s & Hs & He & _).
  exists s. split; [exact Hs|]. rewrite !He. split; vm_compute; reflexivity.
Defined.

Lemma normalize_idempotent_witness :
  ∃ s1 s2,
    process_xml (__init__ timpani_doc) = (Ok tt, s1) ∧
    process_xml (__init__ (root s1)) = (Ok tt, s2) ∧
    root s2 = root s1.
Proof.
  destruct timpani_doc_well_formed as (Hwell & HP & HI & Hsingle).
  exact (normalize_idempotent timpani_doc Hwell HP HI Hsingle).
Defined.

Lemma families_resolve_witness :
  entities Part (root (process_xml (__init__ horns_doc)).2) =
    [ (Some "P1", Some "French Horn 1"); (Some "P2", Some "French Horn 2");
      (Some "P3", Some "Viola") ] ∧
  ∃ s2,
    process_xml (__init__ (root (process_xml (__init__ horns_doc)).2)) =
      (Ok tt, s2) ∧
    root s2 = root (process_xml (__init__ horns_doc)).2.
Proof.
  split; [vm_compute; reflexivity|].
  destruct families_resolve as (_ & _ & _ & _ & _ & Htwice).
  apply (Htwice horns_doc). vm_compute. reflexivity.
Defined.

Lemma proposed_names_distinct_witness :
  swap_name <$>
    dict_of Part
      (cleanup_names
         (find_generic_instrument_names timpani_doc (__init__ timpani_doc)).2).2
      !! Some "P1" ≠
  swap_name <$>
    dict_of Part
      (cleanup_names
         (find_generic_instrument_names timpani_doc (__init__ timpani_doc)).2).2
      !! Some "P4" ∧
  snd <$> entities Part (root (process_xml (__init__ timpani_doc)).2) !! 0 ≠
  snd <$> entities Part (root (process_xml (__init__ timpani_doc)).2) !! 3.
Proof.
  assert (find_generic_instrument_names timpani_doc (__init__ timpani_doc) =
          (Ok tt, (find_generic_instrument_names timpani_doc
                     (__init__ timpani_doc)).2)) as Hs
    by (vm_compute; reflexivity).
  destruct (proposed_names_distinct timpani_doc _ Part Hs) as [Hplan Hdoc].
  split.
  - intros Heq.
    assert (Some "P1" = Some "P4") as Hid; [|discriminate Hid].
    apply (Hplan (Some "P1") (Some "P4")
             {| original_name := "CinePerc Timpani"; swap_name := "Timpani 1" |}
             {| original_name := "Timpani"; swap_name := "Timpani 3" |}).
    + vm_compute. reflexivity.
    + vm_compute. reflexivity.
    + vm_compute in Heq. discriminate Heq.
  - intros Heq.
    destruct timpani_doc_well_formed as (_ & HP & HI & Hsingle).
    destruct (Hdoc HP HI Hsingle) as (s' & HOk & Hinj).
    rewrite HOk in Heq. cbn [snd] in Heq.
    assert (0 = 3) as Hnm; [|discriminate Hnm].
    apply (Hinj 0 3 (Some "P1", Some "CinePerc Timpani")
             (Some "P4", Some "Timpani")
             (Some "P1", Some "Timpani 1") (Some "P4", Some "Timpani 3")).
    + reflexivity.
    + reflexivity.
    + by eexists.
    + by eexists.
    + assert (s' = (process_xml (__init__ timpani_doc)).2) as ->
        by (by rewrite HOk).
      vm_compute. reflexivity.
    + assert (s' = (process_xml (__init__ timpani_doc)).2) as ->
        by (by rewrite HOk).
      vm_compute. reflexivity.
    + assert (s' = (process_xml (__init__ timpani_doc)).2) as Hs'
        by (by rewrite HOk).
      rewrite Hs' in Heq. vm_compute in Heq. discriminate Heq.
Defined.

Lemma surrounding_text_witness :
  resolve "Solo Flute 2" = Some "Flute".
Proof.
  refine (proj2 (surrounding_text "Flute" "Solo Flute 2" _) 4 "Flute" "Flute" _ _ _).
  - by exists "Solo ", " 2".
  - reflexivity.
  - by exists "", "".
  - intros j e Hj He. apply contains_false.
    do 4 (destruct j as [|j]; [by simplify_eq/=|]). lia.
Defined.


Lemma rename_instruments_twice_witness :
  (rename_instruments violins_harp_doc
     {[Some "P3" := {| original_name := "Harp"; swap_name := "Harp 1" |}]} ∅).1 =
  Ok tt ∧
  (rename_instruments
     (rename_instruments violins_harp_doc
        {[Some "P3" := {| original_name := "Harp"; swap_name := "Harp 1" |}]}
        ∅).2
     {[Some "P3" := {| original_name := "Harp"; swap_name := "Harp 1" |}]} ∅).1 =
  Raise (AssertionError "Original name mismatch").
Proof.
  split; [vm_compute; reflexivity|].
  apply (rename_instruments_twice violins_harp_doc _ _ ∅ Part (Some "P3")
           (Some "Harp") {| original_name := "Harp"; swap_name := "Harp 1" |}).
  - vm_compute. reflexivity.
  - vm_compute. do 2 right. left.
  - by eexists.
  - reflexivity.
  - discriminate.
Defined.
